(** * Kalman filter core (Kalman/kalman.c): predict / correct recursion

    A shallow embedding of [kalman_filter_initialize],
    [kalman_measurement_initialize], [kalman_predict] and [kalman_correct]
    over an explicit store of caller-owned buffers, with the dense-matrix
    collaborator (matrix.h, cholesky.h) modelled from its contract. *)

From Stdlib Require Import List Arith Bool Lia ZArith Reals Lra SpecFloat.
From ExtLib Require Import Structures.Monad Structures.MonadState
  Structures.MonadExc Data.Monads.StateMonad Data.Monads.EitherMonad.
Import ListNotations.
Import MonadNotation.
Local Open Scope monad_scope.

Set Implicit Arguments.

(* ===================================================================== *)
(** ** Scalars: [matrix_data_t] *)
(* ===================================================================== *)

(** The typedef [matrix_data_t] lives in matrix.h; kalman.c only uses the
    literal [1.0], the product [lambda * lambda] and the quotient
    [1.0 / ...] directly, the remaining arithmetic happens inside the matrix
    primitives.  The arithmetic is therefore an interface. *)
Class Scalar (T : Type) : Type := {
  s_zero : T;
  s_one : T;
  s_add : T -> T -> T;
  s_sub : T -> T -> T;
  s_mul : T -> T -> T;
  s_div : T -> T -> T
}.

(** Laws of the neutral elements, as far as the no-inflation identity of
    predict needs them. *)
Class UnitLaws (T : Type) {ST : Scalar T} : Prop := {
  add_zero_r : forall t : T, s_add t s_zero = t;
  mul_one_r : forall t : T, s_mul t s_one = t;
  div_one_one : s_div (s_one : T) s_one = s_one
}.
Arguments UnitLaws T {ST}.

(** Exact arithmetic: the commutative-semiring laws. *)
Class ExactLaws (T : Type) {ST : Scalar T} : Prop := {
  add_comm : forall a b : T, s_add a b = s_add b a;
  add_assoc : forall a b c : T, s_add (s_add a b) c = s_add a (s_add b c);
  add_zero_l : forall a : T, s_add s_zero a = a;
  mul_comm : forall a b : T, s_mul a b = s_mul b a;
  mul_assoc : forall a b c : T, s_mul (s_mul a b) c = s_mul a (s_mul b c);
  mul_zero_l : forall a : T, s_mul s_zero a = s_zero;
  mul_add_distr_r : forall a b c : T,
      s_mul (s_add a b) c = s_add (s_mul a c) (s_mul b c)
}.
Arguments ExactLaws T {ST}.

(** Ideal real arithmetic. *)
#[export] Instance real_scalar : Scalar R := {|
  s_zero := 0%R; s_one := 1%R;
  s_add := Rplus; s_sub := Rminus; s_mul := Rmult; s_div := Rdiv |}.

(** IEEE 754 binary floating point with [prec] bits of precision and
    exponent bound [emax], round to nearest even. *)
Definition ieee_one (prec : Z) : spec_float :=
  S754_finite false (Z.to_pos (Z.shiftl 1 (prec - 1))) (1 - prec).

Definition ieee_scalar (prec emax : Z) : Scalar spec_float := {|
  s_zero := S754_zero false;
  s_one := ieee_one prec;
  s_add := SFadd prec emax;
  s_sub := SFsub prec emax;
  s_mul := SFmul prec emax;
  s_div := SFdiv prec emax |}.

(** C [double] and C [float]. *)
Definition binary64 : Scalar spec_float := ieee_scalar 53 1024.
Definition binary32 : Scalar spec_float := ieee_scalar 24 128.

(** A float that is neither zero nor a finite number. *)
Definition nonfinite (x : spec_float) : bool :=
  match x with
  | S754_infinity _ | S754_nan => true
  | S754_zero _ | S754_finite _ _ _ => false
  end.

(** A float that is a number other than zero, finite or infinite. *)
Definition nonzero_number (x : spec_float) : bool :=
  match x with
  | S754_finite _ _ _ | S754_infinity _ => true
  | S754_zero _ | S754_nan => false
  end.

(** Small integers and dyadic fractions as floats: [m * 2^e]. *)
Definition dyadic (prec emax : Z) (m e : Z) : spec_float :=
  binary_normalize prec emax m e false.

(* ===================================================================== *)
(** ** Buffers, matrices and the store *)
(* ===================================================================== *)

(** A [matrix_data_t *]: the identity of a caller-owned buffer. *)
Definition buf := nat.

(** [matrix_t] as kalman.c uses it: [kf->B.rows], and the triple handed to
    [matrix_init]. *)
Record matrix_t : Type := { rows : nat; cols : nat; data : buf }.

Definition size (m : matrix_t) : nat := rows m * cols m.

(** The part of memory a matrix occupies: its buffer and how many elements
    of it are touched. *)
Definition region : Type := (buf * nat)%type.
Definition region_of (m : matrix_t) : region := (data m, size m).

(** Two regions do not overlap.  A region of no elements overlaps nothing,
    whatever its pointer. *)
Definition apart (r1 r2 : region) : bool :=
  negb (fst r1 =? fst r2) || (snd r1 =? 0) || (snd r2 =? 0).

Fixpoint apart_from (r : region) (l : list region) : bool :=
  match l with
  | [] => true
  | r' :: l' => apart r r' && apart_from r l'
  end.

Fixpoint separated (l : list region) : bool :=
  match l with
  | [] => true
  | r :: l' => apart_from r l' && separated l'
  end.

(* ===================================================================== *)
(** ** The dense-matrix collaborator, on flat row-major data *)
(* ===================================================================== *)

(** What the contract of the matrix library leaves open: the values
    [matrix_mult] leaves in its scratch vector, and the algorithms behind
    the Cholesky factor and the triangular inverse (entry by entry). *)
Class Collaborator (T : Type) : Type := {
  mult_scratch : nat -> nat -> nat -> list T -> list T -> list T -> nat -> T;
  cholesky_entry : nat -> list T -> nat -> nat -> T;
  lower_inverse_entry : nat -> list T -> nat -> nat -> T
}.

Section Algebra.
Context {T : Type} {ST : Scalar T}.

(** Element [(i, j)] of a row-major matrix with [c] columns. *)
Definition entry (c : nat) (d : list T) (i j : nat) : T :=
  nth (i * c + j) d s_zero.

(** [f 0 + f 1 + ... + f (n-1)], accumulated left to right from zero as a
    C loop [total = 0; for (k...) total += ...] does. *)
Definition sum_upto (n : nat) (f : nat -> T) : T :=
  fold_left (fun acc k => s_add acc (f k)) (seq 0 n) s_zero.

(** The row-major data of the [r] x [c] matrix with entries [f i j]. *)
Definition tabulate (r c : nat) (f : nat -> nat -> T) : list T :=
  flat_map (fun i => map (f i) (seq 0 c)) (seq 0 r).

(** Modelled from the spec: plain matrix multiplication writing to a fresh
    destination (matrix.h is not part of the sources); [a] is [r] x [n],
    [b] is [n] x [c]. *)
Definition mat_mul (r n c : nat) (a b : list T) : list T :=
  tabulate r c (fun i j =>
    sum_upto n (fun k => s_mul (entry n a i k) (entry c b k j))).

(** Modelled from the spec: transposed multiplication [a * b^T]; [a] is
    [r] x [n], [b] is [c] x [n]. *)
Definition mat_mul_transb (r n c : nat) (a b : list T) : list T :=
  tabulate r c (fun i j =>
    sum_upto n (fun k => s_mul (entry n a i k) (entry n b j k))).

(** Modelled from the spec: the transposed multiply that applies a uniform
    scale factor, [a * b^T * scale]. *)
Definition mat_mulscale_transb (r n c : nat) (a b : list T) (scale : T)
  : list T :=
  tabulate r c (fun i j =>
    s_mul (sum_upto n (fun k => s_mul (entry n a i k) (entry n b j k)))
          scale).

(** Modelled from the spec: the transposed multiply that accumulates into
    an existing destination, [old + a * b^T]. *)
Definition mat_muladd_transb (r n c : nat) (a b old : list T) : list T :=
  tabulate r c (fun i j =>
    s_add (entry c old i j)
          (sum_upto n (fun k => s_mul (entry n a i k) (entry n b j k)))).

(** Modelled from the spec: the plain multiply that accumulates into an
    existing destination, [old + a * b]. *)
Definition mat_muladd (r n c : nat) (a b old : list T) : list T :=
  tabulate r c (fun i j =>
    s_add (entry c old i j)
          (sum_upto n (fun k => s_mul (entry n a i k) (entry c b k j)))).

(** Modelled from the spec: elementwise addition. *)
Definition mat_add (r c : nat) (a b : list T) : list T :=
  tabulate r c (fun i j => s_add (entry c a i j) (entry c b i j)).

(** Modelled from the spec: elementwise subtraction. *)
Definition mat_sub (r c : nat) (a b : list T) : list T :=
  tabulate r c (fun i j => s_sub (entry c a i j) (entry c b i j)).

(** A square matrix equals its transpose. *)
Definition symmetric (n : nat) (d : list T) : Prop :=
  forall i j, i < n -> j < n -> entry n d i j = entry n d j i.
End Algebra.

(* ===================================================================== *)
(** ** Program state and the monad of the core *)
(* ===================================================================== *)

(** The calls the core makes into the matrix library, in order. *)
Inductive call (T : Type) : Type :=
| Call_init (r c : nat) (buffer : buf)
| Call_mult_rowvector (a x c : matrix_t)
| Call_copy (src dst : matrix_t)
| Call_mult (a b c : matrix_t) (aux : buf)
| Call_multscale_transb (a b : matrix_t) (scale : T) (c : matrix_t)
| Call_multadd_transb (a b c : matrix_t)
| Call_sub_inplace_b (a b : matrix_t)
| Call_mult_transb (a b c : matrix_t)
| Call_add_inplace (a b : matrix_t)
| Call_cholesky_decompose_lower (m : matrix_t)
| Call_invert_lower (lower inverse : matrix_t)
| Call_multadd_rowvector (a x c : matrix_t)
| Call_sub (a b c : matrix_t).

Arguments Call_init {T} r c buffer.
Arguments Call_mult_rowvector {T} a x c.
Arguments Call_copy {T} src dst.
Arguments Call_mult {T} a b c aux.
Arguments Call_multadd_transb {T} a b c.
Arguments Call_sub_inplace_b {T} a b.
Arguments Call_mult_transb {T} a b c.
Arguments Call_add_inplace {T} a b.
Arguments Call_cholesky_decompose_lower {T} m.
Arguments Call_invert_lower {T} lower inverse.
Arguments Call_multadd_rowvector {T} a x c.
Arguments Call_sub {T} a b c.

(** The caller-owned buffers by pointer, and the trace of library calls. *)
Record state (T : Type) : Type := {
  mem : buf -> list T;
  calls : list (call T)
}.

(** How a call can end without a result: [assert] aborted the program, or
    the contract of a primitive was violated (a dimension mismatch, an
    access past the end of a buffer, overlapping operands), which C leaves
    undefined. *)
Inductive error : Type := AssertionFailed | UndefinedBehaviour.

(** State passing with errors; a failing computation still yields the state
    it had reached when it stopped. *)
Definition M (T : Type) : Type -> Type :=
  eitherT error (StateMonad.state (state T)).

Section Primitives.
Context {T : Type} {ST : Scalar T} {CT : Collaborator T}.

Definition upd (f : buf -> list T) (p : buf) (v : list T) : buf -> list T :=
  fun q => if q =? p then v else f q.

(** The elements of [m] as the store holds them. *)
Definition contents (st : state T) (m : matrix_t) : list T :=
  firstn (size m) (mem st (data m)).

(** The buffer of [m] is long enough for its declared shape. *)
Definition fits (st : state T) (m : matrix_t) : bool :=
  size m <=? length (mem st (data m)).

(** Overwrite the leading elements of buffer [p] with [v]. *)
Definition poke (p : buf) (v : list T) (st : state T) : state T :=
  {| mem := upd (mem st) p (v ++ skipn (length v) (mem st p));
     calls := calls st |}.

Definition write (m : matrix_t) (v : list T) (st : state T) : state T :=
  poke (data m) v st.

Definition record (c : call T) (st : state T) : state T :=
  {| mem := mem st; calls := calls st ++ [c] |}.

(** A library primitive: undefined unless its contract [ok] holds of the
    current state, otherwise the state change [eff]. *)
Definition primitive (ok : state T -> bool) (eff : state T -> state T)
  : M T unit :=
  st <- get ;;
  if ok st then put (eff st) else raise UndefinedBehaviour.

(** C [assert] with assertions compiled in (NDEBUG not defined). *)
Definition c_assert (b : bool) : M T unit :=
  if b then ret tt else raise AssertionFailed.

Definition same_shape (a b : matrix_t) : bool :=
  (rows a =? rows b) && (cols a =? cols b).

Definition shape_is (m : matrix_t) (r c : nat) : bool :=
  (rows m =? r) && (cols m =? c).

(** Modelled from the spec: fixed-shape matrix construction over
    caller-owned storage (rows, columns, backing buffer); the buffer is
    referenced, not read or copied (matrix.h is not part of the
    sources). *)
Definition matrix_init (r c : nat) (buffer : buf) : M T matrix_t :=
  modify (record (Call_init r c buffer)) ;;
  ret {| rows := r; cols := c; data := buffer |}.

(** *** Contracts of the primitives (matrix.h and cholesky.h are not part
    of the sources)

    Every matrix's declared shape must match the operation it takes part
    in, every buffer must cover its declared shape, and the destination of
    a multiplication must not overlap its operands; anything else is
    undefined. *)

(** Modelled from the spec: the contract of [c = a * x] and [c += a * x]
    for a column vector [x]. *)
Definition rowvector_ok (a x c : matrix_t) (st : state T) : bool :=
  (cols a =? rows x) && (cols x =? 1) && shape_is c (rows a) 1
  && fits st a && fits st x && fits st c
  && apart (region_of c) (region_of a)
  && apart (region_of c) (region_of x).

(** Modelled from the spec: the contract of [c = a * b^T],
    [c = a * b^T * scale] and [c += a * b^T]. *)
Definition transb_ok (a b c : matrix_t) (st : state T) : bool :=
  (cols a =? cols b) && shape_is c (rows a) (rows b)
  && fits st a && fits st b && fits st c
  && apart (region_of c) (region_of a)
  && apart (region_of c) (region_of b).

(** Modelled from the spec: the caller-supplied scratch vector is sized to
    the larger operand dimension. *)
Definition scratch_need (a b : matrix_t) : nat :=
  Nat.max (Nat.max (rows a) (cols a)) (Nat.max (rows b) (cols b)).

(** Modelled from the spec: the contract of [c = a * b] with scratch vector
    [aux]. *)
Definition mult_ok (a b c : matrix_t) (aux : buf) (st : state T) : bool :=
  (cols a =? rows b) && shape_is c (rows a) (cols b)
  && fits st a && fits st b && fits st c
  && (scratch_need a b <=? length (mem st aux))
  && apart (region_of c) (region_of a)
  && apart (region_of c) (region_of b)
  && apart_from (aux, scratch_need a b)
                [region_of a; region_of b; region_of c].

(** Modelled from the spec: the contract of the elementwise operations and
    of the copy, on two equally-shaped matrices. *)
Definition pair_ok (a b : matrix_t) (st : state T) : bool :=
  same_shape a b && fits st a && fits st b.

(** Modelled from the spec: the contract of the elementwise operation on
    three equally-shaped matrices. *)
Definition triple_ok (a b c : matrix_t) (st : state T) : bool :=
  same_shape a b && same_shape a c && fits st a && fits st b && fits st c.

(** Modelled from the spec: the contract of the in-place Cholesky
    decomposition, a square matrix. *)
Definition cholesky_ok (m : matrix_t) (st : state T) : bool :=
  (rows m =? cols m) && fits st m.

(** Modelled from the spec: the contract of the triangular inversion into a
    separate destination. *)
Definition invert_lower_ok (lower inverse : matrix_t) (st : state T)
  : bool :=
  (rows lower =? cols lower) && same_shape lower inverse
  && fits st lower && fits st inverse
  && apart (region_of inverse) (region_of lower).

(** *** The primitives *)

(** Modelled from the spec: [c = a * x] for a column vector [x]. *)
Definition mult_rowvector_eff (a x c : matrix_t) (st : state T) : state T :=
  record (Call_mult_rowvector a x c)
    (write c (mat_mul (rows a) (cols a) 1 (contents st a) (contents st x))
       st).

(** Modelled from the spec: [matrix_mult_rowvector(a, x, c)]. *)
Definition matrix_mult_rowvector (a x c : matrix_t) : M T unit :=
  primitive (rowvector_ok a x c) (mult_rowvector_eff a x c).

(** Modelled from the spec: plain copy between equally-shaped matrices. *)
Definition copy_eff (src dst : matrix_t) (st : state T) : state T :=
  record (Call_copy src dst) (write dst (contents st src) st).

(** Modelled from the spec: [matrix_copy(src, dst)]. *)
Definition matrix_copy (src dst : matrix_t) : M T unit :=
  primitive (pair_ok src dst) (copy_eff src dst).

(** Modelled from the spec: [c = a * b], using the caller-supplied scratch
    vector [aux], whose leading elements are clobbered. *)
Definition mult_eff (a b c : matrix_t) (aux : buf) (st : state T)
  : state T :=
  record (Call_mult a b c aux)
    (write c (mat_mul (rows a) (cols a) (cols b)
                (contents st a) (contents st b))
       (poke aux
          (map (mult_scratch (rows a) (cols a) (cols b)
                  (contents st a) (contents st b)
                  (firstn (scratch_need a b) (mem st aux)))
               (seq 0 (scratch_need a b)))
          st)).

(** Modelled from the spec: [matrix_mult(a, b, c, aux)]. *)
Definition matrix_mult (a b c : matrix_t) (aux : buf) : M T unit :=
  primitive (mult_ok a b c aux) (mult_eff a b c aux).

(** Modelled from the spec: [c = a * b^T * scale]. *)
Definition multscale_transb_eff (a b : matrix_t) (scale : T)
           (c : matrix_t) (st : state T) : state T :=
  record (Call_multscale_transb a b scale c)
    (write c (mat_mulscale_transb (rows a) (cols a) (rows b)
                (contents st a) (contents st b) scale) st).

(** Modelled from the spec: [matrix_multscale_transb(a, b, scale, c)]. *)
Definition matrix_multscale_transb (a b : matrix_t) (scale : T)
           (c : matrix_t) : M T unit :=
  primitive (transb_ok a b c) (multscale_transb_eff a b scale c).

(** Modelled from the spec: [c += a * b^T]. *)
Definition multadd_transb_eff (a b c : matrix_t) (st : state T) : state T :=
  record (Call_multadd_transb a b c)
    (write c (mat_muladd_transb (rows a) (cols a) (rows b)
                (contents st a) (contents st b) (contents st c)) st).

(** Modelled from the spec: [matrix_multadd_transb(a, b, c)]. *)
Definition matrix_multadd_transb (a b c : matrix_t) : M T unit :=
  primitive (transb_ok a b c) (multadd_transb_eff a b c).

(** Modelled from the spec: [c = a * b^T]. *)
Definition mult_transb_eff (a b c : matrix_t) (st : state T) : state T :=
  record (Call_mult_transb a b c)
    (write c (mat_mul_transb (rows a) (cols a) (rows b)
                (contents st a) (contents st b)) st).

(** Modelled from the spec: [matrix_mult_transb(a, b, c)]. *)
Definition matrix_mult_transb (a b c : matrix_t) : M T unit :=
  primitive (transb_ok a b c) (mult_transb_eff a b c).

(** Modelled from the spec: subtract in place, storing into the right
    operand's slot, [b = a - b]. *)
Definition sub_inplace_b_eff (a b : matrix_t) (st : state T) : state T :=
  record (Call_sub_inplace_b a b)
    (write b (mat_sub (rows a) (cols a) (contents st a) (contents st b))
       st).

(** Modelled from the spec: [matrix_sub_inplace_b(a, b)]. *)
Definition matrix_sub_inplace_b (a b : matrix_t) : M T unit :=
  primitive (pair_ok a b) (sub_inplace_b_eff a b).

(** Modelled from the spec: accumulate into the left operand,
    [a += b]. *)
Definition add_inplace_eff (a b : matrix_t) (st : state T) : state T :=
  record (Call_add_inplace a b)
    (write a (mat_add (rows a) (cols a) (contents st a) (contents st b))
       st).

(** Modelled from the spec: [matrix_add_inplace(a, b)]. *)
Definition matrix_add_inplace (a b : matrix_t) : M T unit :=
  primitive (pair_ok a b) (add_inplace_eff a b).

(** Modelled from the spec: [c = a - b], elementwise. *)
Definition sub_eff (a b c : matrix_t) (st : state T) : state T :=
  record (Call_sub a b c)
    (write c (mat_sub (rows a) (cols a) (contents st a) (contents st b))
       st).

(** Modelled from the spec: [matrix_sub(a, b, c)]. *)
Definition matrix_sub (a b c : matrix_t) : M T unit :=
  primitive (triple_ok a b c) (sub_eff a b c).

(** Modelled from the spec: [c += a * x] for a column vector [x]. *)
Definition multadd_rowvector_eff (a x c : matrix_t) (st : state T)
  : state T :=
  record (Call_multadd_rowvector a x c)
    (write c (mat_muladd (rows a) (cols a) 1
                (contents st a) (contents st x) (contents st c)) st).

(** Modelled from the spec: [matrix_multadd_rowvector(a, x, c)]. *)
Definition matrix_multadd_rowvector (a x c : matrix_t) : M T unit :=
  primitive (rowvector_ok a x c) (multadd_rowvector_eff a x c).

(** Modelled from the spec: lower-triangular Cholesky decomposition of a
    symmetric matrix, performed in place (cholesky.h is not part of the
    sources). *)
Definition cholesky_eff (m : matrix_t) (st : state T) : state T :=
  record (Call_cholesky_decompose_lower m)
    (write m (tabulate (rows m) (rows m)
                (cholesky_entry (rows m) (contents st m))) st).

(** Modelled from the spec: [cholesky_decompose_lower(m)]. *)
Definition cholesky_decompose_lower (m : matrix_t) : M T unit :=
  primitive (cholesky_ok m) (cholesky_eff m).

(** Modelled from the spec: inversion of a lower-triangular matrix into a
    separate destination. *)
Definition invert_lower_eff (lower inverse : matrix_t) (st : state T)
  : state T :=
  record (Call_invert_lower lower inverse)
    (write inverse
       (tabulate (rows lower) (rows lower)
          (lower_inverse_entry (rows lower) (contents st lower)))
       st).

(** Modelled from the spec: [matrix_invert_lower(lower, inverse)]. *)
Definition matrix_invert_lower (lower inverse : matrix_t) : M T unit :=
  primitive (invert_lower_ok lower inverse) (invert_lower_eff lower inverse).
End Primitives.

(** What a state [st'] reached from [st] by one library call [k] keeps:
    the call wrote [v] over matrix [c] and possibly clobbered the region
    [scratch]; matrices apart from both, and every other buffer, are as
    before, and no buffer changed its length. *)
Definition wrote {T : Type} (c : matrix_t) (scratch : option region)
           (v : list T) (k : call T) (st st' : state T) : Prop :=
  contents st' c = v
  /\ (forall m, apart (region_of c) (region_of m) = true ->
                match scratch with
                | Some r => apart r (region_of m) = true
                | None => True
                end ->
                contents st' m = contents st m)
  /\ (forall p, length (mem st' p) = length (mem st p))
  /\ (forall p, p <> data c ->
                match scratch with
                | Some r => p <> fst r
                | None => True
                end ->
                mem st' p = mem st p)
  /\ calls st' = calls st ++ [k].

(* ===================================================================== *)
(** ** kalman.h structures, as kalman.c accesses them *)
(* ===================================================================== *)

(** [kf->temporary]. *)
Record kalman_temporary : Type := {
  tmp_aux : buf;
  tmp_predicted_x : matrix_t;
  tmp_P : matrix_t;
  tmp_BQ : matrix_t
}.

(** [kalman_t]. *)
Record kalman_t : Type := {
  kf_A : matrix_t;
  kf_P : matrix_t;
  kf_x : matrix_t;
  kf_B : matrix_t;
  kf_Q : matrix_t;
  kf_u : matrix_t;
  kf_temporary : kalman_temporary
}.

(** [kalman_measurement_t]. *)
Record kalman_measurement_t : Type := {
  kfm_H : matrix_t;
  kfm_R : matrix_t;
  kfm_z : matrix_t;
  kfm_K : matrix_t;
  kfm_S : matrix_t;
  kfm_y : matrix_t
}.

(** Field assignments [kf->f = v]. *)
Definition set_A (kf : kalman_t) (m : matrix_t) : kalman_t :=
  {| kf_A := m; kf_P := kf_P kf; kf_x := kf_x kf; kf_B := kf_B kf;
     kf_Q := kf_Q kf; kf_u := kf_u kf; kf_temporary := kf_temporary kf |}.
Definition set_P (kf : kalman_t) (m : matrix_t) : kalman_t :=
  {| kf_A := kf_A kf; kf_P := m; kf_x := kf_x kf; kf_B := kf_B kf;
     kf_Q := kf_Q kf; kf_u := kf_u kf; kf_temporary := kf_temporary kf |}.
Definition set_x (kf : kalman_t) (m : matrix_t) : kalman_t :=
  {| kf_A := kf_A kf; kf_P := kf_P kf; kf_x := m; kf_B := kf_B kf;
     kf_Q := kf_Q kf; kf_u := kf_u kf; kf_temporary := kf_temporary kf |}.
Definition set_B (kf : kalman_t) (m : matrix_t) : kalman_t :=
  {| kf_A := kf_A kf; kf_P := kf_P kf; kf_x := kf_x kf; kf_B := m;
     kf_Q := kf_Q kf; kf_u := kf_u kf; kf_temporary := kf_temporary kf |}.
Definition set_Q (kf : kalman_t) (m : matrix_t) : kalman_t :=
  {| kf_A := kf_A kf; kf_P := kf_P kf; kf_x := kf_x kf; kf_B := kf_B kf;
     kf_Q := m; kf_u := kf_u kf; kf_temporary := kf_temporary kf |}.
Definition set_u (kf : kalman_t) (m : matrix_t) : kalman_t :=
  {| kf_A := kf_A kf; kf_P := kf_P kf; kf_x := kf_x kf; kf_B := kf_B kf;
     kf_Q := kf_Q kf; kf_u := m; kf_temporary := kf_temporary kf |}.
Definition set_temporary (kf : kalman_t) (t : kalman_temporary) : kalman_t :=
  {| kf_A := kf_A kf; kf_P := kf_P kf; kf_x := kf_x kf; kf_B := kf_B kf;
     kf_Q := kf_Q kf; kf_u := kf_u kf; kf_temporary := t |}.

Definition set_tmp_aux (kf : kalman_t) (p : buf) : kalman_t :=
  set_temporary kf
    {| tmp_aux := p;
       tmp_predicted_x := tmp_predicted_x (kf_temporary kf);
       tmp_P := tmp_P (kf_temporary kf);
       tmp_BQ := tmp_BQ (kf_temporary kf) |}.
Definition set_tmp_predicted_x (kf : kalman_t) (m : matrix_t) : kalman_t :=
  set_temporary kf
    {| tmp_aux := tmp_aux (kf_temporary kf);
       tmp_predicted_x := m;
       tmp_P := tmp_P (kf_temporary kf);
       tmp_BQ := tmp_BQ (kf_temporary kf) |}.
Definition set_tmp_P (kf : kalman_t) (m : matrix_t) : kalman_t :=
  set_temporary kf
    {| tmp_aux := tmp_aux (kf_temporary kf);
       tmp_predicted_x := tmp_predicted_x (kf_temporary kf);
       tmp_P := m;
       tmp_BQ := tmp_BQ (kf_temporary kf) |}.
Definition set_tmp_BQ (kf : kalman_t) (m : matrix_t) : kalman_t :=
  set_temporary kf
    {| tmp_aux := tmp_aux (kf_temporary kf);
       tmp_predicted_x := tmp_predicted_x (kf_temporary kf);
       tmp_P := tmp_P (kf_temporary kf);
       tmp_BQ := m |}.

Definition set_H (kfm : kalman_measurement_t) (m : matrix_t) :=
  {| kfm_H := m; kfm_R := kfm_R kfm; kfm_z := kfm_z kfm;
     kfm_K := kfm_K kfm; kfm_S := kfm_S kfm; kfm_y := kfm_y kfm |}.
Definition set_R (kfm : kalman_measurement_t) (m : matrix_t) :=
  {| kfm_H := kfm_H kfm; kfm_R := m; kfm_z := kfm_z kfm;
     kfm_K := kfm_K kfm; kfm_S := kfm_S kfm; kfm_y := kfm_y kfm |}.
Definition set_z (kfm : kalman_measurement_t) (m : matrix_t) :=
  {| kfm_H := kfm_H kfm; kfm_R := kfm_R kfm; kfm_z := m;
     kfm_K := kfm_K kfm; kfm_S := kfm_S kfm; kfm_y := kfm_y kfm |}.
Definition set_K (kfm : kalman_measurement_t) (m : matrix_t) :=
  {| kfm_H := kfm_H kfm; kfm_R := kfm_R kfm; kfm_z := kfm_z kfm;
     kfm_K := m; kfm_S := kfm_S kfm; kfm_y := kfm_y kfm |}.
Definition set_S (kfm : kalman_measurement_t) (m : matrix_t) :=
  {| kfm_H := kfm_H kfm; kfm_R := kfm_R kfm; kfm_z := kfm_z kfm;
     kfm_K := kfm_K kfm; kfm_S := m; kfm_y := kfm_y kfm |}.
Definition set_y (kfm : kalman_measurement_t) (m : matrix_t) :=
  {| kfm_H := kfm_H kfm; kfm_R := kfm_R kfm; kfm_z := kfm_z kfm;
     kfm_K := kfm_K kfm; kfm_S := kfm_S kfm; kfm_y := m |}.

(* ===================================================================== *)
(** ** The four functions of kalman.c *)
(* ===================================================================== *)

Section Kalman.
Context {T : Type} {ST : Scalar T} {CT : Collaborator T}.

(** [kalman_filter_initialize] (kalman.c:25-48).  [uint_fast8_t]
    dimensions are only passed on, never computed with. *)
Definition kalman_filter_initialize (kf : kalman_t)
           (num_states num_inputs : nat)
           (A x B u P Q aux predictedX temp_P temp_BQ : buf)
  : M T kalman_t :=
  m <- matrix_init num_states num_states A ;;
  let kf := set_A kf m in
  m <- matrix_init num_states num_states P ;;
  let kf := set_P kf m in
  m <- matrix_init num_states 1 x ;;
  let kf := set_x kf m in

  m <- matrix_init num_states num_inputs B ;;
  let kf := set_B kf m in
  m <- matrix_init num_inputs num_inputs Q ;;
  let kf := set_Q kf m in
  m <- matrix_init num_inputs 1 u ;;
  let kf := set_u kf m in

  (* set auxiliary vector *)
  let kf := set_tmp_aux kf aux in

  (* set predicted x vector *)
  m <- matrix_init num_states 1 predictedX ;;
  let kf := set_tmp_predicted_x kf m in

  (* set temporary P vector *)
  m <- matrix_init num_states num_states temp_P ;;
  let kf := set_tmp_P kf m in

  (* set temporary BQ vector *)
  m <- matrix_init num_states num_inputs temp_BQ ;;
  let kf := set_tmp_BQ kf m in
  ret kf.

(** [kalman_measurement_initialize] (kalman.c:63-72). *)
Definition kalman_measurement_initialize (kfm : kalman_measurement_t)
           (num_states num_measurements : nat)
           (H z R y S K : buf)
  : M T kalman_measurement_t :=
  m <- matrix_init num_measurements num_states H ;;
  let kfm := set_H kfm m in
  m <- matrix_init num_measurements num_measurements R ;;
  let kfm := set_R kfm m in
  m <- matrix_init num_measurements 1 z ;;
  let kfm := set_z kfm m in

  m <- matrix_init num_states num_measurements K ;;
  let kfm := set_K kfm m in
  m <- matrix_init num_measurements num_measurements S ;;
  let kfm := set_S kfm m in
  m <- matrix_init num_measurements 1 y ;;
  let kfm := set_y kfm m in
  ret kfm.

(** [kalman_predict] (kalman.c:82-123). *)
Definition kalman_predict (kf : kalman_t) (lambda : T) : M T unit :=
  (* matrices and vectors *)
  let A := kf_A kf in
  let B := kf_B kf in
  let P := kf_P kf in
  let x := kf_x kf in
  (* temporaries *)
  let aux := tmp_aux (kf_temporary kf) in
  let P_temp := tmp_P (kf_temporary kf) in
  let BQ_temp := tmp_BQ (kf_temporary kf) in
  let xpredicted := tmp_predicted_x (kf_temporary kf) in

  (* x = A*x *)
  matrix_mult_rowvector A x xpredicted ;;
  matrix_copy xpredicted x ;;

  (* lambda = 1/lambda^2 *)
  let lambda := s_div s_one (s_mul lambda lambda) in

  (* P = A*P*A' *)
  matrix_mult A P P_temp aux ;;
  matrix_multscale_transb P_temp A lambda P ;;

  (* P = P + B*Q*B' *)
  if 0 <? rows (kf_B kf) then
    matrix_mult B (kf_Q kf) BQ_temp aux ;;
    matrix_multadd_transb BQ_temp B P
  else
    ret tt.

(** [kalman_correct] (kalman.c:129-189).  The automatic variables [aux],
    [Sinv], [temp] and [temp2] are declared without initialiser; their
    indeterminate contents are the first four arguments ([aux_local] is
    the address of the one-element local [aux]). *)
Definition kalman_correct (aux_local : buf) (Sinv temp temp2 : matrix_t)
           (kf : kalman_t) (kfm : kalman_measurement_t) : M T unit :=
  (* TODO: need those fields in the structure! *)
  c_assert false ;;

  let P := kf_P kf in
  let H := kfm_H kfm in
  let K := kfm_K kfm in
  let S := kfm_S kfm in
  let y := kfm_y kfm in
  let x := kf_x kf in

  (* y = z - H*x *)
  matrix_mult_rowvector H x y ;;
  matrix_sub_inplace_b (kfm_z kfm) y ;;

  (* S = H*P*H' + R *)
  matrix_mult H P temp aux_local ;;
  matrix_mult_transb temp H S ;;
  matrix_add_inplace S (kfm_R kfm) ;;

  (* K = P*H' * S^-1 *)
  cholesky_decompose_lower S ;;
  matrix_invert_lower S Sinv ;;
  matrix_mult_transb P H temp ;;
  matrix_mult temp Sinv K aux_local ;;

  (* x = x + K*y *)
  matrix_multadd_rowvector K y x ;;

  (* P = P - K*(H*P) *)
  matrix_mult H P temp aux_local ;;
  matrix_mult K temp temp2 aux_local ;;
  matrix_sub P temp2 P.
End Kalman.

(** Running a computation of the core from a given state. *)
Definition run {T A : Type} (c : M T A) (st : state T)
  : (error + A) * state T := runState (unEitherT c) st.

(* ===================================================================== *)
(** ** The caller's contract and the quantities predict computes *)
(* ===================================================================== *)

Section Contract.
Context {T : Type} {ST : Scalar T}.

(** The shapes [kalman_filter_initialize] declares, for [n] states and
    [m] inputs. *)
Definition filter_shaped (kf : kalman_t) : bool :=
  let n := rows (kf_A kf) in
  let m := cols (kf_B kf) in
  let t := kf_temporary kf in
  shape_is (kf_A kf) n n && shape_is (kf_P kf) n n
  && shape_is (kf_x kf) n 1 && shape_is (kf_B kf) n m
  && shape_is (kf_Q kf) m m && shape_is (kf_u kf) m 1
  && shape_is (tmp_predicted_x t) n 1 && shape_is (tmp_P t) n n
  && shape_is (tmp_BQ t) n m.

(** The ten buffers of a filter with the extent each is used to; the
    auxiliary vector has the greater of [n] and [m] elements. *)
Definition filter_regions (kf : kalman_t) : list region :=
  let t := kf_temporary kf in
  [ region_of (kf_A kf); region_of (kf_x kf); region_of (kf_B kf);
    region_of (kf_u kf); region_of (kf_P kf); region_of (kf_Q kf);
    (tmp_aux t, Nat.max (rows (kf_A kf)) (cols (kf_B kf)));
    region_of (tmp_predicted_x t); region_of (tmp_P t);
    region_of (tmp_BQ t) ].

(** Every buffer is large enough for its declared shape. *)
Definition filter_fits (st : state T) (kf : kalman_t) : bool :=
  let t := kf_temporary kf in
  fits st (kf_A kf) && fits st (kf_x kf) && fits st (kf_B kf)
  && fits st (kf_u kf) && fits st (kf_P kf) && fits st (kf_Q kf)
  && (Nat.max (rows (kf_A kf)) (cols (kf_B kf))
      <=? length (mem st (tmp_aux t)))
  && fits st (tmp_predicted_x t) && fits st (tmp_P t)
  && fits st (tmp_BQ t).

(** Precondition of section 4.1: shapes as declared, buffers large enough
    and not aliasing each other. *)
Definition filter_ok (st : state T) (kf : kalman_t) : bool :=
  filter_shaped kf && filter_fits st kf && separated (filter_regions kf).

(** The inflation factor [1 / lambda^2] as line 111 forms it. *)
Definition inflation (lambda : T) : T :=
  s_div s_one (s_mul lambda lambda).

(** [A * x], [A * P], [A * P * A^T] (scaled or not), [B * Q] and
    [A * P * A^T * f + B * Q * B^T] over the buffer contents of [st]. *)
Definition A_x (st : state T) (kf : kalman_t) : list T :=
  let n := rows (kf_A kf) in
  mat_mul n n 1 (contents st (kf_A kf)) (contents st (kf_x kf)).

Definition A_P (st : state T) (kf : kalman_t) : list T :=
  let n := rows (kf_A kf) in
  mat_mul n n n (contents st (kf_A kf)) (contents st (kf_P kf)).

Definition A_P_At (st : state T) (kf : kalman_t) : list T :=
  let n := rows (kf_A kf) in
  mat_mul_transb n n n (A_P st kf) (contents st (kf_A kf)).

Definition A_P_At_scaled (st : state T) (kf : kalman_t) (f : T) : list T :=
  let n := rows (kf_A kf) in
  mat_mulscale_transb n n n (A_P st kf) (contents st (kf_A kf)) f.

Definition B_Q (st : state T) (kf : kalman_t) : list T :=
  let n := rows (kf_A kf) in
  let m := cols (kf_B kf) in
  mat_mul n m m (contents st (kf_B kf)) (contents st (kf_Q kf)).

Definition A_P_At_scaled_plus_B_Q_Bt (st : state T) (kf : kalman_t) (f : T)
  : list T :=
  let n := rows (kf_A kf) in
  let m := cols (kf_B kf) in
  mat_muladd_transb n m n (B_Q st kf) (contents st (kf_B kf))
                    (A_P_At_scaled st kf f).

(** The library calls of the state propagation and of the covariance
    propagation, and those of the input term. *)
Definition propagation_calls (kf : kalman_t) (f : T) : list (call T) :=
  let t := kf_temporary kf in
  [ Call_mult_rowvector (kf_A kf) (kf_x kf) (tmp_predicted_x t);
    Call_copy (tmp_predicted_x t) (kf_x kf);
    Call_mult (kf_A kf) (kf_P kf) (tmp_P t) (tmp_aux t);
    Call_multscale_transb (tmp_P t) (kf_A kf) f (kf_P kf) ].

Definition input_term_calls (kf : kalman_t) : list (call T) :=
  let t := kf_temporary kf in
  [ Call_mult (kf_B kf) (kf_Q kf) (tmp_BQ t) (tmp_aux t);
    Call_multadd_transb (tmp_BQ t) (kf_B kf) (kf_P kf) ].

(** The buffers predict may write. *)
Definition predict_footprint (kf : kalman_t) : list buf :=
  let t := kf_temporary kf in
  [ data (kf_x kf); data (kf_P kf); tmp_aux t;
    data (tmp_predicted_x t); data (tmp_P t); data (tmp_BQ t) ].
End Contract.

Section Outcome.
Context {T : Type} {ST : Scalar T}.

(** The state [st'] predict leaves when started in [st] with fading
    factor [lambda]. *)
Definition predicted (kf : kalman_t) (lambda : T) (st st' : state T)
  : Prop :=
  let t := kf_temporary kf in
  let f := inflation lambda in
  contents st' (kf_x kf) = A_x st kf
  /\ contents st' (tmp_predicted_x t) = A_x st kf
  /\ contents st' (tmp_P t) = A_P st kf
  /\ contents st' (kf_P kf)
     = (if 0 <? rows (kf_B kf)
        then A_P_At_scaled_plus_B_Q_Bt st kf f
        else A_P_At_scaled st kf f)
  /\ (0 < rows (kf_B kf) -> contents st' (tmp_BQ t) = B_Q st kf)
  /\ (contents st' (kf_A kf) = contents st (kf_A kf)
      /\ contents st' (kf_B kf) = contents st (kf_B kf)
      /\ contents st' (kf_Q kf) = contents st (kf_Q kf)
      /\ contents st' (kf_u kf) = contents st (kf_u kf))
  /\ (forall p, ~ In p (predict_footprint kf) -> mem st' p = mem st p)
  /\ (forall p, length (mem st' p) = length (mem st p))
  /\ calls st'
     = calls st ++ propagation_calls kf f
                ++ (if 0 <? rows (kf_B kf)
                    then input_term_calls kf else []).
End Outcome.

(* ===================================================================== *)
(** ** Concrete inputs *)
(* ===================================================================== *)

(** A collaborator for concrete runs: its multiplication leaves the scratch
    vector as it found it. *)
Definition quiet_collaborator (T : Type) {ST : Scalar T} : Collaborator T := {|
  mult_scratch := fun _ _ _ _ _ old i => nth i old s_zero;
  cholesky_entry := fun n d i j => entry n d i j;
  lower_inverse_entry := fun n d i j => entry n d i j |}.
Arguments quiet_collaborator T {ST}.

(** A filter and a measurement structure before initialisation. *)
Definition blank_matrix : matrix_t := {| rows := 0; cols := 0; data := 0 |}.

Definition blank_filter : kalman_t := {|
  kf_A := blank_matrix; kf_P := blank_matrix; kf_x := blank_matrix;
  kf_B := blank_matrix; kf_Q := blank_matrix; kf_u := blank_matrix;
  kf_temporary := {| tmp_aux := 0; tmp_predicted_x := blank_matrix;
                     tmp_P := blank_matrix; tmp_BQ := blank_matrix |} |}.

Definition blank_measurement : kalman_measurement_t := {|
  kfm_H := blank_matrix; kfm_R := blank_matrix; kfm_z := blank_matrix;
  kfm_K := blank_matrix; kfm_S := blank_matrix; kfm_y := blank_matrix |}.

(** A store given by the list of its buffers: pointer [b] is the [b]-th. *)
Definition memory_of {T : Type} (bufs : list (list T)) : buf -> list T :=
  fun b => nth b bufs [].

(** The filter [kalman_filter_initialize] leaves for [n] states and [m]
    inputs over the buffers A 1, x 2, B 3, u 4, P 5, Q 6, aux 7,
    predicted x 8, temporary P 9, temporary BQ 10. *)
Definition example_filter (n m : nat) : kalman_t := {|
  kf_A := {| rows := n; cols := n; data := 1 |};
  kf_P := {| rows := n; cols := n; data := 5 |};
  kf_x := {| rows := n; cols := 1; data := 2 |};
  kf_B := {| rows := n; cols := m; data := 3 |};
  kf_Q := {| rows := m; cols := m; data := 6 |};
  kf_u := {| rows := m; cols := 1; data := 4 |};
  kf_temporary := {|
    tmp_aux := 7;
    tmp_predicted_x := {| rows := n; cols := 1; data := 8 |};
    tmp_P := {| rows := n; cols := n; data := 9 |};
    tmp_BQ := {| rows := n; cols := m; data := 10 |} |} |}.

(** The measurement block [kalman_measurement_initialize] leaves for [n]
    states and [k] measurements over the buffers H 11, z 12, R 13, y 14,
    S 15, K 16. *)
Definition example_measurement (n k : nat) : kalman_measurement_t := {|
  kfm_H := {| rows := k; cols := n; data := 11 |};
  kfm_R := {| rows := k; cols := k; data := 13 |};
  kfm_z := {| rows := k; cols := 1; data := 12 |};
  kfm_K := {| rows := n; cols := k; data := 16 |};
  kfm_S := {| rows := k; cols := k; data := 15 |};
  kfm_y := {| rows := k; cols := 1; data := 14 |} |}.

(** The scalar worked example: one state, no input, one measurement. *)
Definition scalar_state {T : Type} (a x p h z r junk : T) : state T :=
  {| mem := memory_of
              [ []; [a]; [x]; []; []; [p]; []; [junk]; [junk]; [junk]; [];
                [h]; [z]; [r]; [junk]; [junk]; [junk]; [junk] ];
     calls := [] |}.

Definition scalar_filter : kalman_t := example_filter 1 0.
Definition scalar_measurement : kalman_measurement_t :=
  example_measurement 1 1.

(** A constant-velocity model: two states, one input.
    A = [1 1; 0 1], x = [0; 1], B = [1/2; 1], u = [0],
    P = [2 1; 1 3], Q = [1]; the scratch buffers hold 3. *)
Definition cv_state {T : Type} (zero one two three half : T) : state T :=
  {| mem := memory_of
              [ []; [one; one; zero; one]; [zero; one]; [half; one]; [zero];
                [two; one; one; three]; [one]; [three; three];
                [three; three]; [three; three; three; three];
                [three; three] ];
     calls := [] |}.

Definition cv_filter : kalman_t := example_filter 2 1.

Definition cv_state_real : state R := cv_state 0%R 1%R 2%R 3%R (/ 2)%R.

(** Floats of the two formats from an integer mantissa and an exponent. *)
Definition f64 (m e : Z) : spec_float := dyadic 53 1024 m e.
Definition f32 (m e : Z) : spec_float := dyadic 24 128 m e.

Definition cv_state_double : state spec_float :=
  cv_state (f64 0 0) (f64 1 0) (f64 2 0) (f64 3 0) (f64 1 (-1)).

(** Two states, no input, in binary64:
    A = [3 6.5; 7 5*2^-50], x = [0; 0], P = [1 1; 1 1.25]. *)
Definition rounding_state : state spec_float :=
  {| mem := memory_of
              [ []; [f64 3 0; f64 13 (-1); f64 7 0; f64 5 (-50)];
                [f64 0 0; f64 0 0]; []; [];
                [f64 1 0; f64 1 0; f64 1 0; f64 5 (-2)]; [];
                [f64 0 0; f64 0 0]; [f64 0 0; f64 0 0];
                [f64 0 0; f64 0 0; f64 0 0; f64 0 0]; [] ];
     calls := [] |}.

(** Two states, no input, in binary64, with large and small entries:
    A = [2^600 0; 2^-600 0], x = [0; 0], P = [2^600 0; 0 0]. *)
Definition overflow_state : state spec_float :=
  {| mem := memory_of
              [ []; [f64 1 600; f64 0 0; f64 1 (-600); f64 0 0];
                [f64 0 0; f64 0 0]; []; [];
                [f64 1 600; f64 0 0; f64 0 0; f64 0 0]; [];
                [f64 0 0; f64 0 0]; [f64 0 0; f64 0 0];
                [f64 0 0; f64 0 0; f64 0 0; f64 0 0]; [] ];
     calls := [] |}.

(** One state, one input, in binary64, with a large process noise:
    A = [1], x = [0], B = [1], u = [0], P = [1], Q = [2^60]. *)
Definition absorbing_state : state spec_float :=
  {| mem := memory_of
              [ []; [f64 1 0]; [f64 0 0]; [f64 1 0]; [f64 0 0];
                [f64 1 0]; [f64 1 60]; [f64 0 0]; [f64 0 0]; [f64 0 0];
                [f64 0 0] ];
     calls := [] |}.

(** The constant-velocity model of [cv_state] with one measurement of the
    position: H = [1 0], z = [2], R = [1]; y, S and K hold 3, and buffer
    17 is one scalar, as the local [aux] of [kalman_correct] is. *)
Definition cv_measured_state {T : Type} (zero one two three half : T)
  : state T :=
  {| mem := memory_of
              [ []; [one; one; zero; one]; [zero; one]; [half; one]; [zero];
                [two; one; one; three]; [one]; [three; three];
                [three; three]; [three; three; three; three];
                [three; three];
                [one; zero]; [two]; [one]; [three]; [three];
                [three; three]; [three] ];
     calls := [] |}.

Definition cv_measured_double : state spec_float :=
  cv_measured_state (f64 0 0) (f64 1 0) (f64 2 0) (f64 3 0) (f64 1 (-1)).

(** A=[1], x0=[0], P0=[1], H=[1], z=[2], R=[1]; scratch holds 7. *)
Definition worked_example (num : Z -> Z -> spec_float) : state spec_float :=
  scalar_state (num 1 0)%Z (num 0 0)%Z (num 1 0)%Z (num 1 0)%Z (num 2 0)%Z
               (num 1 0)%Z (num 7 0)%Z.

(** The worked example step by step: both initialisations; then one
    predict; then one correct, whose four automatic variables are a
    one-element buffer (pointer 17) and three matrices of indeterminate
    contents. *)
Section Scenario.
Context {T : Type} {ST : Scalar T} {CT : Collaborator T}.

Definition worked_setup : M T (kalman_t * kalman_measurement_t) :=
  kf <- kalman_filter_initialize blank_filter 1 0 1 2 3 4 5 6 7 8 9 10 ;;
  kfm <- kalman_measurement_initialize blank_measurement 1 1
           11 12 13 14 15 16 ;;
  ret (kf, kfm).

Definition worked_predict (lambda : T)
  : M T (kalman_t * kalman_measurement_t) :=
  s <- worked_setup ;;
  kalman_predict (fst s) lambda ;;
  ret s.

Definition worked_scenario (lambda : T)
  : M T (kalman_t * kalman_measurement_t) :=
  s <- worked_predict lambda ;;
  kalman_correct 17 blank_matrix blank_matrix blank_matrix
                 (fst s) (snd s) ;;
  ret s.
End Scenario.

(* ===================================================================== *)
(** ** Callers of the core, the release build, and covariances *)
(* ===================================================================== *)

(** The caller's obligation of section 4.1 in terms of what is handed to
    [kalman_filter_initialize]: each of the ten buffers is large enough for
    the shape declared for it, and no two of them overlap. *)
Definition buffers_ok {T : Type} (st : state T) (n m : nat)
           (A x B u P Q aux predictedX temp_P temp_BQ : buf) : bool :=
  (n * n <=? length (mem st A)) && (n * 1 <=? length (mem st x))
  && (n * m <=? length (mem st B)) && (m * 1 <=? length (mem st u))
  && (n * n <=? length (mem st P)) && (m * m <=? length (mem st Q))
  && (Nat.max n m <=? length (mem st aux))
  && (n * 1 <=? length (mem st predictedX))
  && (n * n <=? length (mem st temp_P))
  && (n * m <=? length (mem st temp_BQ))
  && separated [ (A, n * n); (x, n * 1); (B, n * m); (u, m * 1);
                 (P, n * n); (Q, m * m); (aux, Nat.max n m);
                 (predictedX, n * 1); (temp_P, n * n); (temp_BQ, n * m) ].

Section Callers.
Context {T : Type} {ST : Scalar T} {CT : Collaborator T}.

(** A driver that binds the buffers and predicts once. *)
Definition initialize_and_predict (kf : kalman_t) (n m : nat)
           (A x B u P Q aux predictedX temp_P temp_BQ : buf) (lambda : T)
  : M T kalman_t :=
  kf <- kalman_filter_initialize kf n m A x B u P Q
          aux predictedX temp_P temp_BQ ;;
  kalman_predict kf lambda ;;
  ret kf.

(** A driver that predicts twice in a row. *)
Definition predict_twice (kf : kalman_t) (lambda1 lambda2 : T) : M T unit :=
  kalman_predict kf lambda1 ;;
  kalman_predict kf lambda2.
End Callers.

Section Release.
Context {T : Type} {ST : Scalar T} {CT : Collaborator T}.

(** [kalman_correct] (kalman.c:129-189) as a build with [NDEBUG] defined
    compiles it: [assert(0)] expands to nothing, and the statements behind
    it run.  As in [kalman_correct], the automatic variables are the first
    four arguments. *)
Definition kalman_correct_ndebug (aux_local : buf)
           (Sinv temp temp2 : matrix_t)
           (kf : kalman_t) (kfm : kalman_measurement_t) : M T unit :=
  let P := kf_P kf in
  let H := kfm_H kfm in
  let K := kfm_K kfm in
  let S := kfm_S kfm in
  let y := kfm_y kfm in
  let x := kf_x kf in

  (* y = z - H*x *)
  matrix_mult_rowvector H x y ;;
  matrix_sub_inplace_b (kfm_z kfm) y ;;

  (* S = H*P*H' + R *)
  matrix_mult H P temp aux_local ;;
  matrix_mult_transb temp H S ;;
  matrix_add_inplace S (kfm_R kfm) ;;

  (* K = P*H' * S^-1 *)
  cholesky_decompose_lower S ;;
  matrix_invert_lower S Sinv ;;
  matrix_mult_transb P H temp ;;
  matrix_mult temp Sinv K aux_local ;;

  (* x = x + K*y *)
  matrix_multadd_rowvector K y x ;;

  (* P = P - K*(H*P) *)
  matrix_mult H P temp aux_local ;;
  matrix_mult K temp temp2 aux_local ;;
  matrix_sub P temp2 P.
End Release.

(** The quadratic form [v^T * d * v] of an [n] x [n] matrix over the reals,
    and positive semi-definiteness. *)
Definition quadratic_form (n : nat) (d : list R) (v : nat -> R) : R :=
  sum_upto n (fun i =>
    sum_upto n (fun j => (v i * entry n d i j * v j)%R)).

Definition positive_semidefinite (n : nat) (d : list R) : Prop :=
  forall v : nat -> R, (0 <= quadratic_form n d v)%R.

(* ===================================================================== *)
(** ** Running computations *)
(* ===================================================================== *)

Section Running.
Context {T : Type}.

Lemma run_bind (A B : Type) (c : M T A) (k : A -> M T B) (st : state T) :
  run (bind c k) st =
  match run c st with
  | (inl e, st') => (inl e, st')
  | (inr a, st') => run (k a) st'
  end.
Proof.
  unfold run. simpl.
  destruct (runState (unEitherT c) st) as [[e | a] st']; reflexivity.
Qed.

Lemma run_ret (A : Type) (a : A) (st : state T) :
  run (ret a : M T A) st = (inr a, st).
Proof. reflexivity. Qed.

Lemma run_primitive (ok : state T -> bool) (eff : state T -> state T)
      (st : state T) :
  run (primitive ok eff) st =
  if ok st then (inr tt, eff st) else (inl UndefinedBehaviour, st).
Proof. unfold run, primitive. simpl. destruct (ok st); reflexivity. Qed.

Lemma run_step (B : Type) (ok : state T -> bool) (eff : state T -> state T)
      (k : M T B) (st : state T) :
  ok st = true ->
  run (primitive ok eff ;; k) st = run k (eff st).
Proof. intros Hok. rewrite run_bind, run_primitive, Hok. reflexivity. Qed.

Lemma run_last (ok : state T -> bool) (eff : state T -> state T)
      (st : state T) :
  ok st = true -> run (primitive ok eff) st = (inr tt, eff st).
Proof. intros Hok. rewrite run_primitive, Hok. reflexivity. Qed.

Lemma run_assert_false (B : Type) (k : M T B) (st : state T) :
  run (c_assert false ;; k) st = (inl AssertionFailed, st).
Proof. reflexivity. Qed.

Lemma run_matrix_init (r c : nat) (p : buf) (st : state T) :
  run (matrix_init r c p) st =
  (inr {| rows := r; cols := c; data := p |}, record (Call_init r c p) st).
Proof. reflexivity. Qed.
End Running.

(* ===================================================================== *)
(** ** Row-major tables *)
(* ===================================================================== *)

Section Tables.
Context {T : Type} {ST : Scalar T}.

Lemma length_tabulate (r c : nat) (f : nat -> nat -> T) :
  length (tabulate r c f) = r * c.
Proof.
  unfold tabulate.
  assert (Hgen : forall s,
            length (flat_map (fun i => map (f i) (seq 0 c)) (seq s r))
            = r * c).
  { induction r as [| r IH]; intros s; simpl; [reflexivity |].
    rewrite length_app, length_map, length_seq, IH. reflexivity. }
  apply Hgen.
Qed.

Lemma nth_tabulate_from (r c : nat) (g : nat -> nat -> T) (s i j : nat) :
  i < r -> j < c ->
  nth (i * c + j)
      (flat_map (fun i' => map (g i') (seq 0 c)) (seq s r)) s_zero
  = g (s + i) j.
Proof.
  revert s i. induction r as [| r IH]; intros s i Hi Hj; [lia |].
  simpl. destruct i as [| i].
  - simpl. rewrite app_nth1 by (rewrite length_map, length_seq; lia).
    rewrite (nth_indep _ s_zero (g s 0))
      by (rewrite length_map, length_seq; lia).
    rewrite (map_nth (g s)), seq_nth by lia.
    f_equal; lia.
  - rewrite app_nth2 by (rewrite length_map, length_seq; simpl; lia).
    rewrite length_map, length_seq.
    replace (S i * c + j - c) with (i * c + j) by (simpl; lia).
    rewrite IH by lia. f_equal; lia.
Qed.

Lemma entry_tabulate (r c : nat) (f : nat -> nat -> T) (i j : nat) :
  i < r -> j < c -> entry c (tabulate r c f) i j = f i j.
Proof.
  intros Hi Hj. unfold entry, tabulate.
  rewrite nth_tabulate_from by assumption. reflexivity.
Qed.

Lemma tabulate_ext (r c : nat) (f g : nat -> nat -> T) :
  (forall i j, i < r -> j < c -> f i j = g i j) ->
  tabulate r c f = tabulate r c g.
Proof.
  intros Hfg. unfold tabulate.
  assert (Hgen : forall s k, s + k <= r ->
            flat_map (fun i => map (f i) (seq 0 c)) (seq s k)
            = flat_map (fun i => map (g i) (seq 0 c)) (seq s k)).
  { intros s k. revert s. induction k as [| k IH]; intros s Hs; simpl.
    - reflexivity.
    - rewrite IH by lia. f_equal.
      apply map_ext_in. intros j Hj. apply in_seq in Hj.
      apply Hfg; lia. }
  apply Hgen. lia.
Qed.

Lemma sum_upto_ext (n : nat) (f g : nat -> T) :
  (forall k, k < n -> f k = g k) -> sum_upto n f = sum_upto n g.
Proof.
  intros Hfg. unfold sum_upto.
  assert (Hgen : forall s k acc, s + k <= n ->
            fold_left (fun a i => s_add a (f i)) (seq s k) acc
            = fold_left (fun a i => s_add a (g i)) (seq s k) acc).
  { intros s k. revert s. induction k as [| k IH]; intros s acc Hs.
    - reflexivity.
    - simpl. rewrite (Hfg s) by lia. apply IH; lia. }
  apply Hgen. lia.
Qed.

Lemma sum_upto_0 (f : nat -> T) : sum_upto 0 f = s_zero.
Proof. reflexivity. Qed.

Lemma sum_upto_S (n : nat) (f : nat -> T) :
  sum_upto (S n) f = s_add (sum_upto n f) (f n).
Proof.
  unfold sum_upto. rewrite seq_S, fold_left_app. reflexivity.
Qed.
End Tables.

(* ===================================================================== *)
(** ** Regions *)
(* ===================================================================== *)

Lemma apart_sym (r1 r2 : region) : apart r1 r2 = apart r2 r1.
Proof.
  unfold apart. rewrite (Nat.eqb_sym (fst r1) (fst r2)).
  destruct (fst r2 =? fst r1), (snd r1 =? 0), (snd r2 =? 0); reflexivity.
Qed.

Lemma apart_shrink (p : buf) (k k' : nat) (r : region) :
  k' <= k -> apart (p, k) r = true -> apart (p, k') r = true.
Proof.
  unfold apart. simpl. intros Hk H.
  destruct (p =? fst r); simpl in *; [| reflexivity].
  destruct (snd r =? 0); [apply orb_true_r |].
  rewrite orb_false_r in *. apply Nat.eqb_eq in H. apply Nat.eqb_eq. lia.
Qed.

Lemma apart_from_nth (r : region) (l : list region) (j : nat) (d : region) :
  apart_from r l = true -> j < length l -> apart r (nth j l d) = true.
Proof.
  revert j. induction l as [| r' l IH]; intros j H Hj; simpl in *; [lia |].
  apply andb_prop in H. destruct H as [H1 H2].
  destruct j as [| j]; [assumption | apply IH; [assumption | lia]].
Qed.

Lemma separated_nth (l : list region) (i j : nat) (d : region) :
  separated l = true -> i < j -> j < length l ->
  apart (nth i l d) (nth j l d) = true.
Proof.
  revert i j. induction l as [| r l IH]; intros i j H Hij Hj; simpl in *;
    [lia |].
  apply andb_prop in H. destruct H as [H1 H2].
  destruct j as [| j]; [lia |].
  destruct i as [| i].
  - apply apart_from_nth; [assumption | lia].
  - apply IH; [assumption | lia | lia].
Qed.

(* ===================================================================== *)
(** ** The store *)
(* ===================================================================== *)

Section Store.
Context {T : Type}.
Implicit Types (st : state T) (m : matrix_t) (v : list T) (p q : buf).

Lemma mem_poke_same p v st :
  mem (poke p v st) p = v ++ skipn (length v) (mem st p).
Proof. unfold poke, upd. simpl. rewrite Nat.eqb_refl. reflexivity. Qed.

Lemma mem_poke_other p q v st :
  q <> p -> mem (poke p v st) q = mem st q.
Proof.
  intros Hq. unfold poke, upd. simpl.
  destruct (Nat.eqb_spec q p); [contradiction | reflexivity].
Qed.

Lemma length_mem_poke p q v st :
  length v <= length (mem st p) ->
  length (mem (poke p v st) q) = length (mem st q).
Proof.
  intros Hv. destruct (Nat.eq_dec q p) as [-> | Hq].
  - rewrite mem_poke_same, length_app, length_skipn. lia.
  - rewrite mem_poke_other by assumption. reflexivity.
Qed.

Lemma contents_poke_hit p v st m :
  data m = p -> size m = length v -> contents (poke p v st) m = v.
Proof.
  intros Hp Hs. unfold contents. rewrite Hp, mem_poke_same, Hs.
  rewrite firstn_app, Nat.sub_diag, firstn_all. simpl.
  apply app_nil_r.
Qed.

Lemma contents_poke_apart p v st m :
  apart (p, length v) (region_of m) = true ->
  contents (poke p v st) m = contents st m.
Proof.
  unfold apart, region_of. cbn [fst snd]. intros H. unfold contents.
  destruct (Nat.eqb_spec p (data m)) as [<- | Hp]; cbn [negb orb] in H.
  - rewrite mem_poke_same.
    apply orb_prop in H. destruct H as [H | H]; apply Nat.eqb_eq in H.
    + destruct v; [reflexivity | discriminate].
    + rewrite H. reflexivity.
  - rewrite mem_poke_other by congruence. reflexivity.
Qed.

Lemma fits_same_lengths st st' m :
  (forall p, length (mem st' p) = length (mem st p)) ->
  fits st' m = fits st m.
Proof. intros H. unfold fits. rewrite H. reflexivity. Qed.

Lemma length_contents st m :
  fits st m = true -> length (contents st m) = size m.
Proof.
  unfold fits, contents. intros H. apply Nat.leb_le in H.
  apply firstn_length_le. assumption.
Qed.

(** What writing [v] over all of [c] (and noting the call) changes. *)
Lemma write_effect (k : call T) (c : matrix_t) v st :
  length v = size c -> fits st c = true ->
  let st' := record k (write c v st) in
  contents st' c = v
  /\ (forall m, apart (region_of c) (region_of m) = true ->
                contents st' m = contents st m)
  /\ (forall p, length (mem st' p) = length (mem st p))
  /\ (forall p, p <> data c -> mem st' p = mem st p)
  /\ calls st' = calls st ++ [k].
Proof.
  intros Hv Hfit st'. unfold fits in Hfit. apply Nat.leb_le in Hfit.
  refine (conj _ (conj _ (conj _ (conj _ _)))).
  - apply contents_poke_hit; [reflexivity | symmetry; assumption].
  - intros m Hm. apply contents_poke_apart.
    rewrite Hv. exact Hm.
  - intros p. apply length_mem_poke. lia.
  - intros p Hp. apply mem_poke_other. assumption.
  - reflexivity.
Qed.
End Store.

(* ===================================================================== *)
(** ** Effects of the primitives predict calls *)
(* ===================================================================== *)

Ltac split_ands :=
  repeat match goal with
         | H : _ && _ = true |- _ => apply andb_prop in H; destruct H
         end.

Ltac eqb_props :=
  repeat match goal with
         | H : (_ =? _) = true |- _ => apply Nat.eqb_eq in H
         | H : shape_is _ _ _ = true |- _ =>
             unfold shape_is in H; apply andb_prop in H; destruct H
         | H : same_shape _ _ = true |- _ =>
             unfold same_shape in H; apply andb_prop in H; destruct H
         end.

Section Effects.
Context {T : Type} {ST : Scalar T} {CT : Collaborator T}.
Implicit Types (st : state T) (a b c x m : matrix_t).

Lemma wrote_plain (k : call T) c (v : list T) st :
  length v = size c -> fits st c = true ->
  wrote c None v k st (record k (write c v st)).
Proof.
  intros Hv Hfit.
  destruct (write_effect k c v st Hv Hfit) as (E1 & E2 & E3 & E4 & E5).
  unfold wrote. refine (conj _ (conj _ (conj _ (conj _ _)))); auto.
Qed.

Lemma mult_rowvector_effect a x c st :
  rowvector_ok a x c st = true ->
  wrote c None
        (mat_mul (rows a) (cols a) 1 (contents st a) (contents st x))
        (Call_mult_rowvector a x c) st (mult_rowvector_eff a x c st).
Proof.
  unfold rowvector_ok. intros H. split_ands. eqb_props.
  apply wrote_plain; [| assumption].
  unfold mat_mul, size. rewrite length_tabulate. congruence.
Qed.

Lemma copy_effect a c st :
  pair_ok a c st = true ->
  wrote c None (contents st a) (Call_copy a c) st (copy_eff a c st).
Proof.
  unfold pair_ok. intros H. split_ands. eqb_props.
  apply wrote_plain; [| assumption].
  rewrite length_contents by assumption. unfold size. congruence.
Qed.

Lemma multscale_transb_effect a b (scale : T) c st :
  transb_ok a b c st = true ->
  wrote c None
        (mat_mulscale_transb (rows a) (cols a) (rows b)
           (contents st a) (contents st b) scale)
        (Call_multscale_transb a b scale c) st
        (multscale_transb_eff a b scale c st).
Proof.
  unfold transb_ok. intros H. split_ands. eqb_props.
  apply wrote_plain; [| assumption].
  unfold mat_mulscale_transb, size. rewrite length_tabulate. congruence.
Qed.

Lemma multadd_transb_effect a b c st :
  transb_ok a b c st = true ->
  wrote c None
        (mat_muladd_transb (rows a) (cols a) (rows b)
           (contents st a) (contents st b) (contents st c))
        (Call_multadd_transb a b c) st (multadd_transb_eff a b c st).
Proof.
  unfold transb_ok. intros H. split_ands. eqb_props.
  apply wrote_plain; [| assumption].
  unfold mat_muladd_transb, size. rewrite length_tabulate. congruence.
Qed.

Lemma mult_effect a b c (aux : buf) st :
  mult_ok a b c aux st = true ->
  wrote c (Some (aux, scratch_need a b))
        (mat_mul (rows a) (cols a) (cols b) (contents st a) (contents st b))
        (Call_mult a b c aux) st (mult_eff a b c aux st).
Proof.
  unfold mult_ok. intros H. split_ands. eqb_props.
  unfold mult_eff.
  set (w := map _ (seq 0 (scratch_need a b))).
  set (v := mat_mul _ _ _ _ _).
  assert (Hw : length w = scratch_need a b)
    by (unfold w; rewrite length_map, length_seq; reflexivity).
  assert (Hv : length v = size c)
    by (unfold v, mat_mul, size; rewrite length_tabulate; congruence).
  assert (Hlen : forall p, length (mem (poke aux w st) p)
                           = length (mem st p)).
  { intros p. apply length_mem_poke. rewrite Hw.
    apply Nat.leb_le. assumption. }
  assert (Hfit : fits (poke aux w st) c = true)
    by (rewrite fits_same_lengths with (st := st); [assumption | exact Hlen]).
  destruct (write_effect (Call_mult a b c aux) c v _ Hv Hfit)
    as (E1 & E2 & E3 & E4 & E5).
  unfold wrote. refine (conj _ (conj _ (conj _ (conj _ _)))).
  - exact E1.
  - intros m Hm Haux. rewrite E2 by assumption.
    apply contents_poke_apart. rewrite Hw. assumption.
  - intros p. rewrite E3. apply Hlen.
  - intros p Hp Haux. rewrite E4 by assumption.
    apply mem_poke_other. assumption.
  - exact E5.
Qed.
End Effects.

(* ===================================================================== *)
(** ** Predict, step by step *)
(* ===================================================================== *)

Ltac apart_at H i j :=
  first
    [ exact (@separated_nth _ i j (0, 0) H ltac:(lia) ltac:(simpl; lia))
    | rewrite apart_sym;
      exact (@separated_nth _ i j (0, 0) H ltac:(lia) ltac:(simpl; lia)) ].

Section Predict.
Context {T : Type} {ST : Scalar T} {CT : Collaborator T}.

Lemma filter_shaped_eqs (kf : kalman_t) :
  filter_shaped kf = true ->
  let n := rows (kf_A kf) in
  let m := cols (kf_B kf) in
  let t := kf_temporary kf in
  cols (kf_A kf) = n
  /\ (rows (kf_P kf) = n /\ cols (kf_P kf) = n)
  /\ (rows (kf_x kf) = n /\ cols (kf_x kf) = 1)
  /\ rows (kf_B kf) = n
  /\ (rows (kf_Q kf) = m /\ cols (kf_Q kf) = m)
  /\ (rows (kf_u kf) = m /\ cols (kf_u kf) = 1)
  /\ (rows (tmp_predicted_x t) = n /\ cols (tmp_predicted_x t) = 1)
  /\ (rows (tmp_P t) = n /\ cols (tmp_P t) = n)
  /\ (rows (tmp_BQ t) = n /\ cols (tmp_BQ t) = m).
Proof.
  unfold filter_shaped. intros H. split_ands. eqb_props.
  cbv zeta. repeat split; assumption.
Qed.

Lemma predict_outcome (kf : kalman_t) (lambda : T) (st : state T) :
  filter_ok st kf = true ->
  exists st', run (kalman_predict kf lambda) st = (inr tt, st')
              /\ predicted kf lambda st st'.
Proof.
  unfold filter_ok. intros Hok.
  apply andb_prop in Hok. destruct Hok as [Hok Hsep].
  apply andb_prop in Hok. destruct Hok as [Hshape Hfit].
  destruct (filter_shaped_eqs kf Hshape)
    as (HAc & [HPr HPc] & [Hxr Hxc] & HBr & [HQr HQc] & [Hur Huc]
        & [Hpr Hpc] & [Htr Htc] & [Hqr Hqc]).
  unfold filter_fits in Hfit.
  apply andb_prop in Hfit. destruct Hfit as [Hfit FtBQ].
  apply andb_prop in Hfit. destruct Hfit as [Hfit FtP].
  apply andb_prop in Hfit. destruct Hfit as [Hfit Fpx].
  apply andb_prop in Hfit. destruct Hfit as [Hfit Faux].
  apply andb_prop in Hfit. destruct Hfit as [Hfit FQ].
  apply andb_prop in Hfit. destruct Hfit as [Hfit FP].
  apply andb_prop in Hfit. destruct Hfit as [Hfit Fu].
  apply andb_prop in Hfit. destruct Hfit as [Hfit FB].
  apply andb_prop in Hfit. destruct Hfit as [FA Fx].
  apply Nat.leb_le in Faux.
  remember (kf_temporary kf) as t eqn:Et.
  remember (kf_A kf) as A eqn:EA.
  remember (kf_P kf) as P eqn:EP.
  remember (kf_x kf) as x eqn:Ex.
  remember (kf_B kf) as B eqn:EB.
  remember (kf_Q kf) as Q eqn:EQ.
  remember (kf_u kf) as u eqn:Eu.
  remember (tmp_predicted_x t) as px eqn:Epx.
  remember (tmp_P t) as tP eqn:EtP.
  remember (tmp_BQ t) as tBQ eqn:EtBQ.
  remember (tmp_aux t) as aux eqn:Eaux.
  remember (inflation lambda) as f eqn:Ef.
  assert (Sep : separated
            [ region_of A; region_of x; region_of B; region_of u;
              region_of P; region_of Q;
              (aux, Nat.max (rows A) (cols B));
              region_of px; region_of tP; region_of tBQ ] = true)
    by (subst; exact Hsep).
  clear Hsep.
  (* step 1: xpredicted = A * x *)
  assert (Ok1 : rowvector_ok A x px st = true).
  { unfold rowvector_ok, shape_is.
    rewrite FA, Fx, Fpx.
    replace (cols A =? rows x) with true by (symmetry; apply Nat.eqb_eq; lia).
    replace (cols x =? 1) with true by (symmetry; apply Nat.eqb_eq; lia).
    replace (rows px =? rows A) with true
      by (symmetry; apply Nat.eqb_eq; lia).
    replace (cols px =? 1) with true by (symmetry; apply Nat.eqb_eq; lia).
    cbn [andb].
    apply andb_true_intro; split; [apart_at Sep 0 7 | apart_at Sep 1 7]. }
  destruct (mult_rowvector_effect _ _ _ _ Ok1) as (D1 & F1 & L1 & M1 & C1).
  set (s1 := mult_rowvector_eff A x px st) in *.
  (* step 2: x = xpredicted *)
  assert (Ok2 : pair_ok px x s1 = true).
  { unfold pair_ok, same_shape.
    rewrite !(fits_same_lengths _ _ _ L1), Fx, Fpx.
    replace (rows px =? rows x) with true
      by (symmetry; apply Nat.eqb_eq; lia).
    replace (cols px =? cols x) with true
      by (symmetry; apply Nat.eqb_eq; lia).
    reflexivity. }
  destruct (copy_effect _ _ _ Ok2) as (D2 & F2 & L2 & M2 & C2).
  set (s2 := copy_eff px x s1) in *.
  assert (L2' : forall p, length (mem s2 p) = length (mem st p))
    by (intros p; rewrite L2; apply L1).
  (* step 3: P_temp = A * P *)
  assert (Need3 : scratch_need A P = rows A)
    by (unfold scratch_need; lia).
  assert (Ok3 : mult_ok A P tP aux s2 = true).
  { unfold mult_ok, shape_is.
    rewrite !(fits_same_lengths _ _ _ L2'), FA, FP, FtP, L2', Need3.
    replace (cols A =? rows P) with true by (symmetry; apply Nat.eqb_eq; lia).
    replace (rows tP =? rows A) with true
      by (symmetry; apply Nat.eqb_eq; lia).
    replace (cols tP =? cols P) with true
      by (symmetry; apply Nat.eqb_eq; lia).
    replace (rows A <=? length (mem st aux)) with true
      by (symmetry; apply Nat.leb_le; lia).
    cbn [andb apart_from].
    repeat (apply andb_true_intro; split); try reflexivity.
    - apart_at Sep 0 8.
    - apart_at Sep 4 8.
    - apply apart_shrink with (k := Nat.max (rows A) (cols B)); [lia |].
      apart_at Sep 0 6.
    - apply apart_shrink with (k := Nat.max (rows A) (cols B)); [lia |].
      apart_at Sep 4 6.
    - apply apart_shrink with (k := Nat.max (rows A) (cols B)); [lia |].
      apart_at Sep 6 8. }
  destruct (mult_effect _ _ _ _ _ Ok3) as (D3 & F3 & L3 & M3 & C3).
  set (s3 := mult_eff A P tP aux s2) in *.
  rewrite Need3 in F3.
  assert (L3' : forall p, length (mem s3 p) = length (mem st p))
    by (intros p; rewrite L3; apply L2').
  (* step 4: P = P_temp * A' * f *)
  assert (Ok4 : transb_ok tP A P s3 = true).
  { unfold transb_ok, shape_is.
    rewrite !(fits_same_lengths _ _ _ L3'), FA, FP, FtP.
    replace (cols tP =? cols A) with true
      by (symmetry; apply Nat.eqb_eq; lia).
    replace (rows P =? rows tP) with true
      by (symmetry; apply Nat.eqb_eq; lia).
    replace (cols P =? rows A) with true
      by (symmetry; apply Nat.eqb_eq; lia).
    cbn [andb].
    apply andb_true_intro; split; [apart_at Sep 4 8 | apart_at Sep 0 4]. }
  destruct (multscale_transb_effect _ _ f _ _ Ok4)
    as (D4 & F4 & L4 & M4 & C4).
  set (s4 := multscale_transb_eff tP A f P s3) in *.
  assert (L4' : forall p, length (mem s4 p) = length (mem st p))
    by (intros p; rewrite L4; apply L3').
  (* what the first four calls leave *)
  assert (KA : forall s, (s = s1 \/ s = s2 \/ s = s3 \/ s = s4) ->
                         contents s A = contents st A).
  { assert (K1 : contents s1 A = contents st A)
      by (apply F1; [apart_at Sep 0 7 | exact I]).
    assert (K2 : contents s2 A = contents st A)
      by (rewrite <- K1; apply F2; [apart_at Sep 0 1 | exact I]).
    assert (K3 : contents s3 A = contents st A).
    { rewrite <- K2. apply F3; [apart_at Sep 0 8 |].
      apply apart_shrink with (k := Nat.max (rows A) (cols B)); [lia |].
      apart_at Sep 0 6. }
    assert (K4 : contents s4 A = contents st A)
      by (rewrite <- K3; apply F4; [apart_at Sep 0 4 | exact I]).
    intros s [-> | [-> | [-> | ->]]]; assumption. }
  assert (KP2 : contents s2 P = contents st P).
  { transitivity (contents s1 P).
    - apply F2; [apart_at Sep 1 4 | exact I].
    - apply F1; [apart_at Sep 4 7 | exact I]. }
  assert (Kx4 : contents s4 x = A_x st kf).
  { transitivity (contents s3 x);
      [apply F4; [apart_at Sep 1 4 | exact I] |].
    transitivity (contents s2 x).
    { apply F3; [apart_at Sep 1 8 |].
      apply apart_shrink with (k := Nat.max (rows A) (cols B)); [lia |].
      apart_at Sep 1 6. }
    rewrite D2, D1. unfold A_x. rewrite <- EA, <- Ex, HAc. reflexivity. }
  assert (Kpx4 : contents s4 px = A_x st kf).
  { transitivity (contents s3 px);
      [apply F4; [apart_at Sep 4 7 | exact I] |].
    transitivity (contents s2 px).
    { apply F3; [apart_at Sep 7 8 |].
      apply apart_shrink with (k := Nat.max (rows A) (cols B)); [lia |].
      apart_at Sep 6 7. }
    transitivity (contents s1 px);
      [apply F2; [apart_at Sep 1 7 | exact I] |].
    rewrite D1. unfold A_x. rewrite <- EA, <- Ex, HAc. reflexivity. }
  assert (KtP3 : contents s3 tP = A_P st kf).
  { rewrite D3, (KA s2), KP2 by tauto.
    unfold A_P. rewrite <- EA, <- EP, HAc, HPc. reflexivity. }
  assert (KtP4 : contents s4 tP = A_P st kf)
    by (rewrite <- KtP3; apply F4; [apart_at Sep 4 8 | exact I]).
  assert (KP4 : contents s4 P = A_P_At_scaled st kf f).
  { rewrite D4, KtP3, (KA s3) by tauto.
    unfold A_P_At_scaled. rewrite <- EA, Htr, Htc. reflexivity. }
  assert (Kother : forall m, apart (region_of m) (region_of x) = true ->
                             apart (region_of m) (region_of P) = true ->
                             apart (region_of m) (region_of px) = true ->
                             apart (region_of m) (region_of tP) = true ->
                             apart (region_of m)
                                   (aux, Nat.max (rows A) (cols B)) = true ->
                             contents s4 m = contents st m).
  { intros m Hx HP Hpx HtP Haux.
    transitivity (contents s3 m);
      [apply F4; [rewrite apart_sym; exact HP | exact I] |].
    transitivity (contents s2 m).
    { apply F3; [rewrite apart_sym; exact HtP |].
      apply apart_shrink with (k := Nat.max (rows A) (cols B)); [lia |].
      rewrite apart_sym; exact Haux. }
    transitivity (contents s1 m);
      [apply F2; [rewrite apart_sym; exact Hx | exact I] |].
    apply F1; [rewrite apart_sym; exact Hpx | exact I]. }
  assert (KB4 : contents s4 B = contents st B)
    by (apply Kother; [apart_at Sep 1 2 | apart_at Sep 2 4 | apart_at Sep 2 7
                      | apart_at Sep 2 8 | apart_at Sep 2 6]).
  assert (KQ4 : contents s4 Q = contents st Q)
    by (apply Kother; [apart_at Sep 1 5 | apart_at Sep 4 5 | apart_at Sep 5 7
                      | apart_at Sep 5 8 | apart_at Sep 5 6]).
  assert (Ku4 : contents s4 u = contents st u)
    by (apply Kother; [apart_at Sep 1 3 | apart_at Sep 3 4 | apart_at Sep 3 7
                      | apart_at Sep 3 8 | apart_at Sep 3 6]).
  assert (Kmem4 : forall p, p <> data x -> p <> data P -> p <> aux ->
                            p <> data px -> p <> data tP ->
                            mem s4 p = mem st p).
  { intros p Hx HP Haux Hpx HtP.
    rewrite M4 by (assumption || exact I).
    rewrite M3 by (assumption || exact I).
    rewrite M2 by (assumption || exact I).
    apply M1; [assumption | exact I]. }
  assert (Kcalls4 : calls s4 = calls st ++ propagation_calls kf f).
  { rewrite C4, C3, C2, C1. unfold propagation_calls.
    rewrite <- Et, <- EA, <- EP, <- Ex, <- Epx, <- EtP, <- Eaux.
    rewrite <- !app_assoc. reflexivity. }
  assert (Run4 : run (kalman_predict kf lambda) st
                 = run (if 0 <? rows B
                        then matrix_mult B Q tBQ aux ;;
                             matrix_multadd_transb tBQ B P
                        else ret tt) s4).
  { unfold kalman_predict. cbv zeta.
    rewrite <- Et, <- EA, <- EP, <- Ex, <- EB, <- EQ, <- Epx, <- EtP,
      <- EtBQ, <- Eaux.
    fold (inflation lambda). rewrite <- Ef.
    unfold matrix_mult_rowvector. rewrite run_step by exact Ok1.
    unfold matrix_copy. rewrite run_step by exact Ok2.
    unfold matrix_mult at 1. rewrite run_step by exact Ok3.
    unfold matrix_multscale_transb. rewrite run_step by exact Ok4.
    reflexivity. }
  rewrite Run4. unfold predicted. cbv zeta.
  rewrite <- Et, <- EA, <- EP, <- Ex, <- EB, <- EQ, <- Eu, <- Epx, <- EtP,
    <- EtBQ, <- Ef.
  destruct (Nat.ltb_spec 0 (rows B)) as [Hpos | Hzero].
  - (* the input term *)
    assert (Need5 : scratch_need B Q = Nat.max (rows A) (cols B))
      by (unfold scratch_need; lia).
    assert (Ok5 : mult_ok B Q tBQ aux s4 = true).
    { unfold mult_ok, shape_is.
      rewrite !(fits_same_lengths _ _ _ L4'), FB, FQ, FtBQ, L4', Need5.
      replace (cols B =? rows Q) with true
        by (symmetry; apply Nat.eqb_eq; lia).
      replace (rows tBQ =? rows B) with true
        by (symmetry; apply Nat.eqb_eq; lia).
      replace (cols tBQ =? cols Q) with true
        by (symmetry; apply Nat.eqb_eq; lia).
      replace (Nat.max (rows A) (cols B) <=? length (mem st aux)) with true
        by (symmetry; apply Nat.leb_le; lia).
      cbn [andb apart_from].
      repeat (apply andb_true_intro; split); try reflexivity.
      - apart_at Sep 2 9.
      - apart_at Sep 5 9.
      - apart_at Sep 2 6.
      - apart_at Sep 5 6.
      - apart_at Sep 6 9. }
    destruct (mult_effect _ _ _ _ _ Ok5) as (D5 & F5 & L5 & M5 & C5).
    set (s5 := mult_eff B Q tBQ aux s4) in *.
    rewrite Need5 in F5.
    assert (L5' : forall p, length (mem s5 p) = length (mem st p))
      by (intros p; rewrite L5; apply L4').
    assert (Ok6 : transb_ok tBQ B P s5 = true).
    { unfold transb_ok, shape_is.
      rewrite !(fits_same_lengths _ _ _ L5'), FB, FP, FtBQ.
      replace (cols tBQ =? cols B) with true
        by (symmetry; apply Nat.eqb_eq; lia).
      replace (rows P =? rows tBQ) with true
        by (symmetry; apply Nat.eqb_eq; lia).
      replace (cols P =? rows B) with true
        by (symmetry; apply Nat.eqb_eq; lia).
      cbn [andb].
      apply andb_true_intro; split; [apart_at Sep 4 9 | apart_at Sep 2 4]. }
    destruct (multadd_transb_effect _ _ _ _ Ok6)
      as (D6 & F6 & L6 & M6 & C6).
    set (s6 := multadd_transb_eff tBQ B P s5) in *.
    exists s6. split.
    { unfold matrix_mult. rewrite run_step by exact Ok5.
      unfold matrix_multadd_transb. rewrite run_last by exact Ok6.
      reflexivity. }
    assert (Keep : forall m, apart (region_of m) (region_of P) = true ->
                             apart (region_of m) (region_of tBQ) = true ->
                             apart (region_of m)
                               (aux, Nat.max (rows A) (cols B)) = true ->
                             contents s6 m = contents s4 m).
    { intros m HP HtBQ Haux.
      transitivity (contents s5 m);
        [apply F6; [rewrite apart_sym; exact HP | exact I] |].
      apply F5; rewrite apart_sym; assumption. }
    assert (KB5 : contents s5 B = contents st B).
    { rewrite <- KB4. apply F5; [apart_at Sep 2 9 | apart_at Sep 2 6]. }
    refine (conj _ (conj _ (conj _ (conj _ (conj _
              (conj (conj _ (conj _ (conj _ _)))
                 (conj _ (conj _ _)))))))).
    + rewrite <- Kx4. apply Keep;
        [apart_at Sep 1 4 | apart_at Sep 1 9 | apart_at Sep 1 6].
    + rewrite <- Kpx4. apply Keep;
        [apart_at Sep 4 7 | apart_at Sep 7 9 | apart_at Sep 6 7].
    + rewrite <- KtP4. apply Keep;
        [apart_at Sep 4 8 | apart_at Sep 8 9 | apart_at Sep 6 8].
    + rewrite D6, D5, KB5, KB4, KQ4.
      replace (contents s5 P) with (contents s4 P)
        by (symmetry; apply F5; [apart_at Sep 4 9 | apart_at Sep 4 6]).
      rewrite KP4. unfold A_P_At_scaled_plus_B_Q_Bt, B_Q.
      rewrite <- EA, <- EB, <- EQ, Hqr, Hqc, HBr, HQc. reflexivity.
    + intros _.
      transitivity (contents s5 tBQ);
        [apply F6; [apart_at Sep 4 9 | exact I] |].
      rewrite D5, KB4, KQ4. unfold B_Q.
      rewrite <- EA, <- EB, <- EQ, HBr, HQc. reflexivity.
    + rewrite <- (KA s4) by tauto. apply Keep;
        [apart_at Sep 0 4 | apart_at Sep 0 9 | apart_at Sep 0 6].
    + rewrite <- KB4. apply Keep;
        [apart_at Sep 2 4 | apart_at Sep 2 9 | apart_at Sep 2 6].
    + rewrite <- KQ4. apply Keep;
        [apart_at Sep 4 5 | apart_at Sep 5 9 | apart_at Sep 5 6].
    + rewrite <- Ku4. apply Keep;
        [apart_at Sep 3 4 | apart_at Sep 3 9 | apart_at Sep 3 6].
    + intros p Hp. unfold predict_footprint in Hp.
      rewrite <- Et, <- EP, <- Ex, <- Epx, <- EtP, <- EtBQ, <- Eaux in Hp.
      cbn [In] in Hp.
      rewrite M6 by (try exact I; intros ->; tauto).
      rewrite M5 by (cbn [fst]; intros ->; tauto).
      apply Kmem4; intros ->; tauto.
    + intros p. rewrite L6. apply L5'.
    + rewrite C6, C5, Kcalls4. unfold input_term_calls.
      rewrite <- Et, <- EB, <- EQ, <- EP, <- EtBQ, <- Eaux.
      rewrite <- !app_assoc. reflexivity.
  - (* no rows: the input term is skipped *)
    exists s4. split; [reflexivity |].
    refine (conj _ (conj _ (conj _ (conj _ (conj _
              (conj (conj _ (conj _ (conj _ _)))
                 (conj _ (conj _ _)))))))).
    + exact Kx4.
    + exact Kpx4.
    + exact KtP4.
    + exact KP4.
    + intros Hpos. lia.
    + apply KA; tauto.
    + exact KB4.
    + exact KQ4.
    + exact Ku4.
    + intros p Hp. unfold predict_footprint in Hp.
      rewrite <- Et, <- EP, <- Ex, <- Epx, <- EtP, <- EtBQ, <- Eaux in Hp.
      cbn [In] in Hp.
      apply Kmem4; intros ->; tauto.
    + exact L4'.
    + rewrite Kcalls4, app_nil_r. reflexivity.
Qed.
End Predict.

(* ===================================================================== *)
(** ** Initialisation *)
(* ===================================================================== *)

(** C10. [kalman_filter_initialize] and [kalman_measurement_initialize] are
    pure wiring.  Whatever the structure held before, whatever the
    dimensions and pointers (nothing is validated) and whatever the buffers
    contain, each returns the structure whose matrices have the declared
    shapes (A n x n, x n x 1, B n x m, u m x 1, P n x n, Q m x m and the
    scratch matrices; H k x n, z k x 1, R k x k, y k x 1, S k x k,
    K n x k) over the caller's buffers; the only library calls are the
    [matrix_init]s, and the store of buffers is the one it was. *)
Theorem initialize_is_pure_wiring (T : Type)
        (kf : kalman_t) (kfm : kalman_measurement_t)
        (n m n' k : nat)
        (A x B u P Q aux predictedX temp_P temp_BQ : buf)
        (pH pz pR py pS pK : buf) (st : state T) :
  run (kalman_filter_initialize kf n m A x B u P Q
         aux predictedX temp_P temp_BQ) st
  = (inr {| kf_A := {| rows := n; cols := n; data := A |};
            kf_P := {| rows := n; cols := n; data := P |};
            kf_x := {| rows := n; cols := 1; data := x |};
            kf_B := {| rows := n; cols := m; data := B |};
            kf_Q := {| rows := m; cols := m; data := Q |};
            kf_u := {| rows := m; cols := 1; data := u |};
            kf_temporary :=
              {| tmp_aux := aux;
                 tmp_predicted_x :=
                   {| rows := n; cols := 1; data := predictedX |};
                 tmp_P := {| rows := n; cols := n; data := temp_P |};
                 tmp_BQ := {| rows := n; cols := m; data := temp_BQ |} |} |},
     {| mem := mem st;
        calls := calls st
                 ++ [ Call_init n n A; Call_init n n P; Call_init n 1 x;
                      Call_init n m B; Call_init m m Q; Call_init m 1 u;
                      Call_init n 1 predictedX; Call_init n n temp_P;
                      Call_init n m temp_BQ ] |})
  /\ run (kalman_measurement_initialize kfm n' k pH pz pR py pS pK) st
     = (inr {| kfm_H := {| rows := k; cols := n'; data := pH |};
               kfm_R := {| rows := k; cols := k; data := pR |};
               kfm_z := {| rows := k; cols := 1; data := pz |};
               kfm_K := {| rows := n'; cols := k; data := pK |};
               kfm_S := {| rows := k; cols := k; data := pS |};
               kfm_y := {| rows := k; cols := 1; data := py |} |},
        {| mem := mem st;
           calls := calls st
                    ++ [ Call_init k n' pH; Call_init k k pR;
                         Call_init k 1 pz; Call_init n' k pK;
                         Call_init k k pS; Call_init k 1 py ] |}).
Proof.
  split.
  - unfold kalman_filter_initialize.
    repeat (rewrite run_bind, run_matrix_init).
    rewrite run_ret. unfold record. cbn.
    repeat rewrite <- app_assoc. reflexivity.
  - unfold kalman_measurement_initialize.
    repeat (rewrite run_bind, run_matrix_init).
    rewrite run_ret. unfold record. cbn.
    repeat rewrite <- app_assoc. reflexivity.
Qed.

(* ===================================================================== *)
(** ** The measurement update as given *)
(* ===================================================================== *)

Lemma kalman_correct_fails_at_entry
      (T : Type) (ST : Scalar T) (CT : Collaborator T)
      (aux_local : buf) (Sinv temp temp2 : matrix_t)
      (kf : kalman_t) (kfm : kalman_measurement_t) (st : state T) :
  run (kalman_correct aux_local Sinv temp temp2 kf kfm) st
  = (inl AssertionFailed, st).
Proof. unfold kalman_correct. apply run_assert_false. Qed.

(** C4. [kalman_correct] as given fails on every input: the assertion at
    its entry is false, so it stops there, before any matrix operation and
    with every buffer as it was; it never runs to completion. *)
Theorem kalman_correct_always_fails
        (T : Type) (ST : Scalar T) (CT : Collaborator T)
        (aux_local : buf) (Sinv temp temp2 : matrix_t)
        (kf : kalman_t) (kfm : kalman_measurement_t) (st : state T) :
  run (kalman_correct aux_local Sinv temp temp2 kf kfm) st
  = (inl AssertionFailed, st).
Proof. apply kalman_correct_fails_at_entry. Qed.

(* ===================================================================== *)
(** ** The time update *)
(* ===================================================================== *)

Section EmptyFilter.
Context {T : Type} {ST : Scalar T} {CT : Collaborator T}.

Lemma empty_covariance (kf : kalman_t) (st : state T) (f : T) :
  rows (kf_A kf) = 0 ->
  A_P_At_scaled st kf f = A_P_At_scaled_plus_B_Q_Bt st kf f.
Proof.
  intros Hn. unfold A_P_At_scaled_plus_B_Q_Bt, A_P_At_scaled.
  cbv zeta. rewrite Hn. reflexivity.
Qed.
End EmptyFilter.

(** C1. On a filter whose buffers have the declared shapes, are large enough
    and do not overlap, and for every fading factor, [kalman_predict]
    completes and leaves
    - [A * x] in the predicted-state scratch buffer and, copied from there,
      in [x];
    - [A * P] in the temporary covariance buffer;
    - in [P] the product [(A * P) * A^T * (1 / lambda^2)] formed from that
      buffer by the combined multiply-transpose-and-scale step, with
      [(B * Q) * B^T] added afterwards when the filter has an input model,
      which is what [kf->B.rows > 0] tests (line 118): for every filter
      with at least one state.  Where [B] has no columns, what is added to
      each entry is the empty sum;
    through exactly these library calls in this order. *)
Theorem kalman_predict_computes
        (T : Type) (ST : Scalar T) (CT : Collaborator T)
        (kf : kalman_t) (lambda : T) (st : state T) :
  filter_ok st kf = true ->
  exists st',
    run (kalman_predict kf lambda) st = (inr tt, st')
    /\ contents st' (tmp_predicted_x (kf_temporary kf)) = A_x st kf
    /\ contents st' (kf_x kf) = A_x st kf
    /\ contents st' (tmp_P (kf_temporary kf)) = A_P st kf
    /\ contents st' (kf_P kf)
       = (if 0 <? rows (kf_B kf)
          then A_P_At_scaled_plus_B_Q_Bt st kf (inflation lambda)
          else A_P_At_scaled st kf (inflation lambda))
    /\ (cols (kf_B kf) = 0 ->
        forall i j, i < rows (kf_A kf) -> j < rows (kf_A kf) ->
          entry (rows (kf_A kf)) (contents st' (kf_P kf)) i j
          = s_add (entry (rows (kf_A kf))
                     (A_P_At_scaled st kf (inflation lambda)) i j)
                  s_zero)
    /\ calls st'
       = calls st
         ++ [ Call_mult_rowvector (kf_A kf) (kf_x kf)
                (tmp_predicted_x (kf_temporary kf));
              Call_copy (tmp_predicted_x (kf_temporary kf)) (kf_x kf);
              Call_mult (kf_A kf) (kf_P kf) (tmp_P (kf_temporary kf))
                (tmp_aux (kf_temporary kf));
              Call_multscale_transb (tmp_P (kf_temporary kf)) (kf_A kf)
                (s_div s_one (s_mul lambda lambda)) (kf_P kf) ]
         ++ (if 0 <? rows (kf_B kf)
             then [ Call_mult (kf_B kf) (kf_Q kf)
                      (tmp_BQ (kf_temporary kf)) (tmp_aux (kf_temporary kf));
                    Call_multadd_transb (tmp_BQ (kf_temporary kf)) (kf_B kf)
                      (kf_P kf) ]
             else []).
Proof.
  intros Hok.
  destruct (predict_outcome kf lambda st Hok)
    as (st' & Hrun & Hx & Hpx & HtP & HP & _ & _ & _ & _ & Hcalls).
  exists st'. repeat (split; [assumption |]).
  assert (HBr : rows (kf_B kf) = rows (kf_A kf)).
  { unfold filter_ok in Hok. apply andb_prop in Hok. destruct Hok as [Hok _].
    apply andb_prop in Hok. destruct Hok as [Hshape _].
    apply (filter_shaped_eqs kf Hshape). }
  split; [| exact Hcalls].
  intros Hm i j Hi Hj. rewrite HP.
  replace (0 <? rows (kf_B kf)) with true
    by (symmetry; apply Nat.ltb_lt; lia).
  unfold A_P_At_scaled_plus_B_Q_Bt, mat_muladd_transb. cbv zeta.
  rewrite entry_tabulate by assumption.
  rewrite Hm, sum_upto_0. reflexivity.
Qed.

Lemma kalman_predict_computes_witness :
  filter_ok cv_state_double cv_filter = true
  /\ filter_ok (worked_example f64) scalar_filter = true
  /\ (exists st',
        run (kalman_predict (ST := binary64)
               (CT := quiet_collaborator spec_float (ST := binary64))
               cv_filter (f64 1 (-1))) cv_state_double = (inr tt, st')
        /\ contents st' (kf_x cv_filter) = [f64 1 0; f64 1 0]
        /\ contents st' (kf_P cv_filter)
           = [f64 113 (-2); f64 33 (-1); f64 33 (-1); f64 13 0])
  /\ (exists st',
        run (kalman_predict (ST := binary64)
               (CT := quiet_collaborator spec_float (ST := binary64))
               scalar_filter (f64 1 (-1))) (worked_example f64)
        = (inr tt, st')
        /\ contents st' (kf_x scalar_filter) = [f64 0 0]
        /\ contents st' (kf_P scalar_filter) = [f64 4 0]).
Proof.
  split; [reflexivity |]. split; [reflexivity |]. split.
  - destruct (@kalman_predict_computes spec_float binary64
                (quiet_collaborator spec_float (ST := binary64))
                cv_filter (f64 1 (-1)) cv_state_double eq_refl)
      as (st' & Hrun & _ & Hx & _ & HP & _).
    exists st'. split; [exact Hrun |].
    rewrite Hx, HP. split; vm_compute; reflexivity.
  - destruct (@kalman_predict_computes spec_float binary64
                (quiet_collaborator spec_float (ST := binary64))
                scalar_filter (f64 1 (-1)) (worked_example f64) eq_refl)
      as (st' & Hrun & _ & Hx & _ & HP & _).
    exists st'. split; [exact Hrun |].
    rewrite Hx, HP. split; vm_compute; reflexivity.
Defined.

(** C9. On a filter whose buffers have the declared shapes, are large enough
    and do not overlap, [kalman_predict] completes and
    - every buffer other than [x], [P] and the four scratch buffers (aux,
      predicted state, temporary P, temporary BQ) is exactly as before, and
      the matrices [A], [B], [Q] and the vector [u] in particular;
    - the new [x] and [P] are determined by [A], [B], [Q], [x], [P] and
      lambda alone: from any other store that holds the same five
      matrices, whatever it holds in [u] and in the scratch buffers,
      predict yields the same [x] and [P];
    and [kalman_correct] stops at its assertion without reading anything. *)
Theorem kalman_predict_frame
        (T : Type) (ST : Scalar T) (CT : Collaborator T)
        (kf : kalman_t) (lambda : T) (st : state T) :
  filter_ok st kf = true ->
  exists st',
    run (kalman_predict kf lambda) st = (inr tt, st')
    /\ (forall p,
           ~ In p [ data (kf_x kf); data (kf_P kf);
                    tmp_aux (kf_temporary kf);
                    data (tmp_predicted_x (kf_temporary kf));
                    data (tmp_P (kf_temporary kf));
                    data (tmp_BQ (kf_temporary kf)) ] ->
           mem st' p = mem st p)
    /\ contents st' (kf_A kf) = contents st (kf_A kf)
    /\ contents st' (kf_B kf) = contents st (kf_B kf)
    /\ contents st' (kf_Q kf) = contents st (kf_Q kf)
    /\ contents st' (kf_u kf) = contents st (kf_u kf)
    /\ (forall other : state T,
           filter_ok other kf = true ->
           contents other (kf_A kf) = contents st (kf_A kf) ->
           contents other (kf_B kf) = contents st (kf_B kf) ->
           contents other (kf_Q kf) = contents st (kf_Q kf) ->
           contents other (kf_x kf) = contents st (kf_x kf) ->
           contents other (kf_P kf) = contents st (kf_P kf) ->
           exists other',
             run (kalman_predict kf lambda) other = (inr tt, other')
             /\ contents other' (kf_x kf) = contents st' (kf_x kf)
             /\ contents other' (kf_P kf) = contents st' (kf_P kf))
    /\ (forall (aux_local : buf) (Sinv temp temp2 : matrix_t)
               (kfm : kalman_measurement_t) (any : state T),
           run (kalman_correct aux_local Sinv temp temp2 kf kfm) any
           = (inl AssertionFailed, any)).
Proof.
  intros Hok.
  destruct (predict_outcome kf lambda st Hok)
    as (st' & Hrun & Hx & _ & _ & HP & _ & (HA & HB & HQ & Hu) & Hmem & _).
  exists st'.
  split; [exact Hrun |]. split; [exact Hmem |].
  split; [exact HA |]. split; [exact HB |].
  split; [exact HQ |]. split; [exact Hu |].
  split.
  - intros other Hok2 EA EB EQ Ex EP.
    destruct (predict_outcome kf lambda other Hok2)
      as (other' & Hrun2 & Hx2 & _ & _ & HP2 & _).
    exists other'. split; [exact Hrun2 |].
    rewrite Hx, Hx2, HP, HP2.
    unfold A_P_At_scaled_plus_B_Q_Bt, B_Q, A_P_At_scaled, A_P, A_x.
    cbv zeta. rewrite EA, EB, EQ, Ex, EP. split; reflexivity.
  - intros aux_local Sinv temp temp2 kfm any.
    apply kalman_correct_fails_at_entry.
Qed.

Lemma kalman_predict_frame_witness :
  filter_ok cv_state_double cv_filter = true
  /\ exists st',
       run (kalman_predict (ST := binary64)
              (CT := quiet_collaborator spec_float (ST := binary64))
              cv_filter (f64 1 (-1))) cv_state_double = (inr tt, st')
       /\ contents st' (kf_u cv_filter)
          = contents cv_state_double (kf_u cv_filter).
Proof.
  split; [reflexivity |].
  destruct (@kalman_predict_frame spec_float binary64
              (quiet_collaborator spec_float (ST := binary64))
              cv_filter (f64 1 (-1)) cv_state_double eq_refl)
    as (st' & Hrun & _ & _ & _ & _ & Hu & _).
  exists st'. split; assumption.
Defined.

(* ===================================================================== *)
(** ** No input model, no inflation *)
(* ===================================================================== *)

Lemma real_unit_laws : UnitLaws R.
Proof.
  split; simpl; intros; try lra.
Qed.

Section NoInput.
Context {T : Type} {ST : Scalar T} {UL : UnitLaws T}.

Lemma inflation_one : inflation (s_one : T) = s_one.
Proof. unfold inflation. rewrite mul_one_r. apply div_one_one. Qed.

Lemma unscaled_covariance (kf : kalman_t) (st : state T) :
  A_P_At_scaled st kf s_one = A_P_At st kf.
Proof.
  unfold A_P_At_scaled, A_P_At, mat_mulscale_transb, mat_mul_transb.
  cbv zeta. apply tabulate_ext. intros i j _ _. apply mul_one_r.
Qed.

Lemma empty_input_term (kf : kalman_t) (st : state T) (f : T) :
  cols (kf_B kf) = 0 ->
  A_P_At_scaled_plus_B_Q_Bt st kf f = A_P_At_scaled st kf f.
Proof.
  intros Hm.
  unfold A_P_At_scaled_plus_B_Q_Bt, A_P_At_scaled, mat_muladd_transb.
  cbv zeta. rewrite Hm. unfold mat_mulscale_transb at 2.
  apply tabulate_ext. intros i j Hi Hj.
  rewrite sum_upto_0, add_zero_r.
  unfold mat_mulscale_transb.
  rewrite entry_tabulate by assumption. reflexivity.
Qed.
End NoInput.

(** The no-input identity in an arithmetic where adding zero and
    multiplying by one change nothing, as the reals: for a filter without
    input and lambda = 1, [kalman_predict] leaves exactly [A * x] in [x]
    and exactly [A * P * A^T] in [P].  (For IEEE arithmetic see
    [unscaled_covariance_ieee] below.) *)
Lemma no_input_identity_exact
        (T : Type) (ST : Scalar T) (CT : Collaborator T) (UL : UnitLaws T)
        (kf : kalman_t) (st : state T) :
  filter_ok st kf = true ->
  cols (kf_B kf) = 0 ->
  exists st',
    run (kalman_predict kf s_one) st = (inr tt, st')
    /\ contents st' (kf_x kf) = A_x st kf
    /\ contents st' (kf_P kf) = A_P_At st kf
    /\ inflation (s_one : T) = s_one
    /\ (rows (kf_B kf) = 0 ->
        calls st' = calls st ++ propagation_calls kf s_one)
    /\ (0 < rows (kf_B kf) ->
        calls st'
        = calls st ++ propagation_calls kf s_one ++ input_term_calls kf).
Proof.
  intros Hok Hm.
  destruct (predict_outcome kf s_one st Hok)
    as (st' & Hrun & Hx & _ & _ & HP & _ & _ & _ & _ & Hcalls).
  rewrite inflation_one in HP, Hcalls.
  exists st'. split; [exact Hrun |]. split; [exact Hx |].
  split; [| split; [exact inflation_one | split]].
  - rewrite HP.
    destruct (0 <? rows (kf_B kf)).
    + rewrite (empty_input_term kf st s_one Hm).
      apply unscaled_covariance.
    + apply unscaled_covariance.
  - intros Hzero. rewrite Hcalls, Hzero. cbn [Nat.ltb Nat.leb].
    rewrite app_nil_r. reflexivity.
  - intros Hpos. rewrite Hcalls.
    apply Nat.ltb_lt in Hpos. rewrite Hpos. reflexivity.
Qed.

(** C3 as stated fails: in the scalar worked example (one state, no input,
    lambda = 1) predict does not skip the [B * Q * B^T] step, its library
    calls are not just those of the propagation. *)
Lemma no_input_term_not_skipped :
  filter_ok (worked_example f64) scalar_filter = true
  /\ cols (kf_B scalar_filter) = 0
  /\ ~ (exists st',
          run (kalman_predict (ST := binary64)
                 (CT := quiet_collaborator spec_float (ST := binary64))
                 scalar_filter (f64 1 0)) (worked_example f64)
          = (inr tt, st')
          /\ calls st'
             = calls (worked_example f64)
               ++ propagation_calls scalar_filter
                    (inflation (ST := binary64) (f64 1 0))).
Proof.
  split; [reflexivity |]. split; [reflexivity |].
  intros (st' & Hrun & Hcalls).
  apply (f_equal (fun r => length (calls (snd r)))) in Hrun.
  cbn [snd] in Hrun. rewrite Hcalls in Hrun.
  vm_compute in Hrun. discriminate Hrun.
Qed.

(* ===================================================================== *)
(** ** The scalar worked example *)
(* ===================================================================== *)

(** C5, as the code has it (binary64 arithmetic, any matrix library that
    keeps the contract).  For A=[1], no input, x0=[0], P0=[1], H=[1],
    R=[1], z=[2]: after initialisation and one [kalman_predict] with
    lambda = 1, x = [0] and P = [1].  The subsequent [kalman_correct] stops
    at its assertion: x and P keep these values and y, S and K are never
    written (they still hold what the caller left there, 7). *)
Theorem worked_example_as_given (CT : Collaborator spec_float) :
  exists st1 : state spec_float,
    run (worked_predict (ST := binary64) (f64 1 0)) (worked_example f64)
    = (inr (scalar_filter, scalar_measurement), st1)
    /\ contents st1 (kf_x scalar_filter) = [f64 0 0]
    /\ contents st1 (kf_P scalar_filter) = [f64 1 0]
    /\ run (worked_scenario (ST := binary64) (f64 1 0)) (worked_example f64)
       = (inl AssertionFailed, st1)
    /\ contents st1 (kfm_y scalar_measurement) = [f64 7 0]
    /\ contents st1 (kfm_S scalar_measurement) = [f64 7 0]
    /\ contents st1 (kfm_K scalar_measurement) = [f64 7 0].
Proof.
  set (st0 := snd (run (worked_setup (T := spec_float))
                       (worked_example f64))).
  assert (Hsetup : run (worked_setup (T := spec_float)) (worked_example f64)
                   = (inr (scalar_filter, scalar_measurement), st0))
    by reflexivity.
  assert (Hok : filter_ok st0 scalar_filter = true) by reflexivity.
  destruct (predict_outcome (ST := binary64) scalar_filter (f64 1 0) st0 Hok)
    as (st1 & Hrun & Hx & _ & _ & HP & _ & _ & Hmem & _).
  assert (Hpredict :
            run (worked_predict (ST := binary64) (f64 1 0))
                (worked_example f64)
            = (inr (scalar_filter, scalar_measurement), st1)).
  { unfold worked_predict. rewrite run_bind, Hsetup. cbn [fst].
    rewrite run_bind, Hrun. apply run_ret. }
  exists st1.
  split; [exact Hpredict |].
  split; [rewrite Hx; vm_compute; reflexivity |].
  split; [rewrite HP; vm_compute; reflexivity |].
  split.
  { unfold worked_scenario. rewrite run_bind, Hpredict. cbn [fst snd].
    rewrite run_bind, kalman_correct_fails_at_entry. reflexivity. }
  unfold contents.
  rewrite !Hmem by (vm_compute; intuition discriminate).
  repeat split; vm_compute; reflexivity.
Qed.

(** C5 as stated fails: the scenario of the worked example does not end
    with y = [2], S = [2], K = [0.5], x = [1] and P = [0.5]; it does not
    end normally at all. *)
Lemma worked_example_correct_fails :
  ~ (exists (s : kalman_t * kalman_measurement_t) (st2 : state spec_float),
        run (worked_scenario (ST := binary64)
               (CT := quiet_collaborator spec_float (ST := binary64))
               (f64 1 0))
            (worked_example f64)
        = (inr s, st2)
        /\ contents st2 (kfm_y (snd s)) = [f64 2 0]
        /\ contents st2 (kfm_S (snd s)) = [f64 2 0]
        /\ contents st2 (kfm_K (snd s)) = [f64 1 (-1)]
        /\ contents st2 (kf_x (fst s)) = [f64 1 0]
        /\ contents st2 (kf_P (fst s)) = [f64 1 (-1)]).
Proof.
  intros (s & st2 & Hrun & _).
  apply (f_equal fst) in Hrun. vm_compute in Hrun. discriminate Hrun.
Qed.

(** The same scenario in binary32 arithmetic. *)
Lemma worked_example_single_precision :
  let c := worked_predict (ST := binary32)
             (CT := quiet_collaborator spec_float (ST := binary32))
             (f32 1 0) in
  fst (run c (worked_example f32))
  = inr (scalar_filter, scalar_measurement)
  /\ contents (snd (run c (worked_example f32))) (kf_x scalar_filter)
     = [f32 0 0]
  /\ contents (snd (run c (worked_example f32))) (kf_P scalar_filter)
     = [f32 1 0]
  /\ fst (run (worked_scenario (ST := binary32)
                 (CT := quiet_collaborator spec_float (ST := binary32))
                 (f32 1 0))
              (worked_example f32))
     = inl AssertionFailed.
Proof. repeat split; vm_compute; reflexivity. Qed.

(** C2, as the code has it.  [kalman_correct] as given computes none of
    the innovation, the residual covariance and the gain and updates
    neither the state nor the covariance: on every filter and measurement
    block it stops at the assertion at its entry, having made no library
    call and with every buffer, [y], [S], [K], [x] and [P] among them,
    holding what it held before. *)
Theorem kalman_correct_updates_nothing
        (T : Type) (ST : Scalar T) (CT : Collaborator T)
        (aux_local : buf) (Sinv temp temp2 : matrix_t)
        (kf : kalman_t) (kfm : kalman_measurement_t) (st : state T) :
  exists st',
    run (kalman_correct aux_local Sinv temp temp2 kf kfm) st
    = (inl AssertionFailed, st')
    /\ calls st' = calls st
    /\ (forall p, mem st' p = mem st p)
    /\ contents st' (kfm_y kfm) = contents st (kfm_y kfm)
    /\ contents st' (kfm_S kfm) = contents st (kfm_S kfm)
    /\ contents st' (kfm_K kfm) = contents st (kfm_K kfm)
    /\ contents st' (kf_x kf) = contents st (kf_x kf)
    /\ contents st' (kf_P kf) = contents st (kf_P kf).
Proof.
  exists st. split; [apply kalman_correct_fails_at_entry |].
  repeat split; reflexivity.
Qed.

(** C2 as stated fails: on the measurement block of the worked example
    [kalman_correct] does not end with the innovation [z - H * x] in [y]. *)
Lemma kalman_correct_leaves_no_innovation :
  ~ (exists st' : state spec_float,
        run (kalman_correct (ST := binary64)
               (CT := quiet_collaborator spec_float (ST := binary64))
               17 blank_matrix blank_matrix blank_matrix
               scalar_filter scalar_measurement)
            (worked_example f64)
        = (inr tt, st')
        /\ contents st' (kfm_y scalar_measurement)
           = mat_sub (ST := binary64) 1 1
               (contents (worked_example f64) (kfm_z scalar_measurement))
               (mat_mul (ST := binary64) 1 1 1
                  (contents (worked_example f64) (kfm_H scalar_measurement))
                  (contents (worked_example f64) (kf_x scalar_filter)))).
Proof.
  intros (st' & Hrun & _).
  rewrite kalman_correct_fails_at_entry in Hrun. discriminate Hrun.
Qed.

(* ===================================================================== *)
(** ** IEEE arithmetic: when a product underflows to zero *)
(* ===================================================================== *)

Section Rounding.
Local Open Scope Z_scope.
Local Unset Implicit Arguments.

Lemma digits2_pos_bounds (p : positive) :
  2 ^ (Zpos (digits2_pos p) - 1) <= Zpos p < 2 ^ Zpos (digits2_pos p).
Proof.
  induction p as [p IH | p IH |]; cbn [digits2_pos].
  - rewrite Pos2Z.inj_succ.
    replace (Z.succ (Zpos (digits2_pos p)) - 1)
      with (Z.succ (Zpos (digits2_pos p) - 1)) by lia.
    rewrite !Z.pow_succ_r by lia. lia.
  - rewrite Pos2Z.inj_succ.
    replace (Z.succ (Zpos (digits2_pos p)) - 1)
      with (Z.succ (Zpos (digits2_pos p) - 1)) by lia.
    rewrite !Z.pow_succ_r by lia. lia.
  - cbn. lia.
Qed.

Lemma shr_1_mantissa (mrs : shr_record) :
  0 <= shr_m mrs -> shr_m (shr_1 mrs) = shr_m mrs / 2.
Proof.
  destruct mrs as [m r s]. cbn [shr_m]. intros Hm. unfold shr_1.
  destruct m as [| [p | p |] | p]; cbn [shr_m]; try lia.
  - reflexivity.
  - rewrite (Pos2Z.inj_xI p). apply Z.div_unique with (r := 1); lia.
  - rewrite (Pos2Z.inj_xO p). apply Z.div_unique with (r := 0); lia.
  - reflexivity.
Qed.

Lemma iter_shr_1_mantissa (p : positive) :
  forall mrs : shr_record,
    0 <= shr_m mrs ->
    shr_m (iter_pos shr_1 p mrs) = shr_m mrs / 2 ^ Zpos p.
Proof.
  induction p as [p IH | p IH |]; intros mrs Hm; cbn [iter_pos].
  - assert (H1 : 0 <= shr_m (shr_1 mrs))
      by (rewrite shr_1_mantissa by assumption; apply Z.div_pos; lia).
    assert (H2 : 0 <= shr_m (iter_pos shr_1 p (shr_1 mrs)))
      by (rewrite IH by assumption; apply Z.div_pos; [assumption |];
          apply Z.pow_pos_nonneg; lia).
    rewrite IH by assumption. rewrite IH by assumption.
    rewrite shr_1_mantissa by assumption.
    rewrite !Z.div_div by (try apply Z.pow_pos_nonneg; lia).
    f_equal. rewrite (Pos2Z.inj_xI p).
    replace (2 * Zpos p + 1) with (1 + (Zpos p + Zpos p)) by lia.
    rewrite (Z.pow_add_r 2 1), (Z.pow_add_r 2 (Zpos p)) by lia.
    rewrite Z.pow_1_r. lia.
  - assert (H2 : 0 <= shr_m (iter_pos shr_1 p mrs))
      by (rewrite IH by assumption; apply Z.div_pos; [assumption |];
          apply Z.pow_pos_nonneg; lia).
    rewrite IH by assumption. rewrite IH by assumption.
    rewrite !Z.div_div by (try apply Z.pow_pos_nonneg; lia).
    f_equal. rewrite (Pos2Z.inj_xO p).
    replace (2 * Zpos p) with (Zpos p + Zpos p) by lia.
    rewrite (Z.pow_add_r 2 (Zpos p)) by lia. reflexivity.
  - rewrite shr_1_mantissa by assumption. reflexivity.
Qed.

Lemma shr_m_record_of_loc (m : Z) (l : location) :
  shr_m (shr_record_of_loc m l) = m.
Proof. destruct l as [| []]; reflexivity. Qed.

Lemma digits2_pos_monotone (a b : positive) :
  (a <= b)%positive -> Zpos (digits2_pos a) <= Zpos (digits2_pos b).
Proof.
  intros Hab.
  pose proof (digits2_pos_bounds a) as [Ha _].
  pose proof (digits2_pos_bounds b) as [_ Hb].
  assert (H : 2 ^ (Zpos (digits2_pos a) - 1) < 2 ^ Zpos (digits2_pos b))
    by lia.
  apply Z.pow_lt_mono_r_iff in H; lia.
Qed.

Lemma round_nearest_even_grows (m : Z) (l : location) :
  m <= round_nearest_even m l.
Proof.
  unfold round_nearest_even.
  destruct l as [| []]; try destruct (Z.even m); lia.
Qed.

Section Underflow.
Variables prec emax : Z.
Hypothesis prec_positive : 1 <= prec.

(** Shifting a positive mantissa down to the exponent the format asks for
    leaves a positive mantissa, provided the number lies above the smallest
    exponent of the format. *)
Lemma shr_fexp_keeps_positive (q : positive) (e : Z) (l : location) :
  emin prec emax < Zpos (digits2_pos q) + e ->
  exists q' : positive,
    shr_m (fst (shr_fexp prec emax (Zpos q) e l)) = Zpos q'
    /\ Zpos (digits2_pos q) + e
       <= Zpos (digits2_pos q') + snd (shr_fexp prec emax (Zpos q) e l).
Proof.
  intros Habove. unfold shr_fexp, shr. cbn [Zdigits2].
  set (d := Zpos (digits2_pos q)) in *.
  destruct (fexp prec emax (d + e) - e) as [| p | p] eqn:Hk.
  - exists q. cbn [fst snd]. rewrite shr_m_record_of_loc.
    split; [reflexivity | lia].
  - cbn [fst snd].
    assert (Hp : Zpos p <= d - 1) by (unfold fexp in Hk; lia).
    rewrite iter_shr_1_mantissa
      by (rewrite shr_m_record_of_loc; lia).
    rewrite shr_m_record_of_loc.
    pose proof (digits2_pos_bounds q) as [Hlow _]. fold d in Hlow.
    assert (Hsplit : 2 ^ (d - 1) = 2 ^ (d - 1 - Zpos p) * 2 ^ Zpos p).
    { rewrite <- Z.pow_add_r by lia. f_equal. lia. }
    assert (Hpow : 0 < 2 ^ Zpos p) by (apply Z.pow_pos_nonneg; lia).
    assert (Hquot : 2 ^ (d - 1 - Zpos p) <= Zpos q / 2 ^ Zpos p).
    { apply Z.div_le_lower_bound; [assumption |]. lia. }
    assert (Hone : 1 <= 2 ^ (d - 1 - Zpos p))
      by (apply (Z.pow_le_mono_r 2 0); lia).
    destruct (Zpos q / 2 ^ Zpos p) as [| q' | q'] eqn:Hq; try lia.
    exists q'. split; [reflexivity |].
    pose proof (digits2_pos_bounds q') as [_ Hup].
    assert (H : 2 ^ (d - 1 - Zpos p) < 2 ^ Zpos (digits2_pos q')) by lia.
    apply Z.pow_lt_mono_r_iff in H; lia.
  - exists q. cbn [fst snd]. rewrite shr_m_record_of_loc.
    split; [reflexivity | lia].
Qed.

Lemma binary_round_aux_nonzero (sx : bool) (q : positive) (e : Z) :
  emin prec emax < Zpos (digits2_pos q) + e ->
  nonzero_number (binary_round_aux prec emax sx (Zpos q) e loc_Exact) = true.
Proof.
  intros Habove. unfold binary_round_aux.
  destruct (shr_fexp_keeps_positive q e loc_Exact Habove)
    as (q1 & Hm1 & He1).
  destruct (shr_fexp prec emax (Zpos q) e loc_Exact) as [mrs1 e1].
  cbn [fst snd] in Hm1, He1.
  pose proof (round_nearest_even_grows (shr_m mrs1)
                (loc_of_shr_record mrs1)) as Hgrow.
  rewrite Hm1 in *.
  destruct (round_nearest_even (Zpos q1) (loc_of_shr_record mrs1))
    as [| q2 | q2] eqn:Hq2; try lia.
  assert (Hd : Zpos (digits2_pos q1) <= Zpos (digits2_pos q2))
    by (apply digits2_pos_monotone; lia).
  destruct (shr_fexp_keeps_positive q2 e1 loc_Exact ltac:(lia))
    as (q3 & Hm3 & _).
  destruct (shr_fexp prec emax (Zpos q2) e1 loc_Exact) as [mrs3 e3].
  cbn [fst] in Hm3. rewrite Hm3.
  destruct (e3 <=? emax - prec); reflexivity.
Qed.

(** The product of two finite numbers does not underflow to zero as long as
    the sum of their exponents (of the leading bits) stays above the
    smallest exponent of the format. *)
Lemma SFmul_nonzero (s s' : bool) (m m' : positive) (e e' : Z) :
  emin prec emax
  < (Zpos (digits2_pos m) + e) + (Zpos (digits2_pos m') + e') - 1 ->
  nonzero_number
    (SFmul prec emax (S754_finite s m e) (S754_finite s' m' e')) = true.
Proof.
  intros Habove. cbn [SFmul].
  apply binary_round_aux_nonzero.
  pose proof (digits2_pos_bounds m) as [Hm _].
  pose proof (digits2_pos_bounds m') as [Hm' _].
  pose proof (digits2_pos_bounds (m * m')) as [_ Hmm].
  assert (Hprod : 2 ^ (Zpos (digits2_pos m) - 1 + (Zpos (digits2_pos m') - 1))
                  <= Zpos (m * m')).
  { rewrite Z.pow_add_r by lia. rewrite Pos2Z.inj_mul.
    apply Z.mul_le_mono_nonneg; try assumption;
      apply Z.pow_nonneg; lia. }
  assert (H : 2 ^ (Zpos (digits2_pos m) - 1 + (Zpos (digits2_pos m') - 1))
              < 2 ^ Zpos (digits2_pos (m * m'))) by lia.
  apply Z.pow_lt_mono_r_iff in H; lia.
Qed.
End Underflow.

Section NotNaN.
Variables prec emax : Z.

Lemma shr_fexp_keeps_nonnegative (m e : Z) (l : location) :
  0 <= m -> 0 <= shr_m (fst (shr_fexp prec emax m e l)).
Proof.
  intros Hm. unfold shr_fexp, shr.
  destruct (fexp prec emax (Zdigits2 m + e) - e) as [| p | p];
    cbn [fst]; try (rewrite shr_m_record_of_loc; assumption).
  rewrite iter_shr_1_mantissa by (rewrite shr_m_record_of_loc; assumption).
  rewrite shr_m_record_of_loc.
  apply Z.div_pos; [assumption | apply Z.pow_pos_nonneg; lia].
Qed.

Lemma binary_round_aux_not_nan (sx : bool) (m e : Z) (l : location) :
  0 <= m -> binary_round_aux prec emax sx m e l <> S754_nan.
Proof.
  intros Hm. unfold binary_round_aux.
  pose proof (shr_fexp_keeps_nonnegative m e l Hm) as H1.
  destruct (shr_fexp prec emax m e l) as [mrs1 e1]. cbn [fst] in H1.
  pose proof (round_nearest_even_grows (shr_m mrs1)
                (loc_of_shr_record mrs1)) as Hgrow.
  pose proof (shr_fexp_keeps_nonnegative
                (round_nearest_even (shr_m mrs1) (loc_of_shr_record mrs1))
                e1 loc_Exact ltac:(lia)) as H3.
  destruct (shr_fexp prec emax
              (round_nearest_even (shr_m mrs1) (loc_of_shr_record mrs1))
              e1 loc_Exact) as [mrs3 e3].
  cbn [fst] in H3.
  destruct (shr_m mrs3) as [| q | q]; try lia.
  - discriminate.
  - destruct (e3 <=? emax - prec); discriminate.
Qed.

Lemma SFdiv_finite_not_nan (sx sy : bool) (mx my : positive) (ex ey : Z) :
  SFdiv prec emax (S754_finite sx mx ex) (S754_finite sy my ey) <> S754_nan.
Proof.
  cbn [SFdiv]. unfold SFdiv_core_binary.
  set (e' := Z.min _ _). set (s := ex - ey - e').
  set (m' := match s with Z.pos _ => Z.shiftl (Zpos mx) s | 0 => Zpos mx
                     | Z.neg _ => 0 end).
  assert (Hm' : 0 <= m').
  { unfold m'. destruct s; try lia. apply Z.shiftl_nonneg. lia. }
  pose proof (Z.div_pos m' (Zpos my) Hm' ltac:(lia)) as Hq.
  unfold Z.div in Hq.
  destruct (Z.div_eucl m' (Zpos my)) as [q r].
  apply binary_round_aux_not_nan. exact Hq.
Qed.
End NotNaN.
End Rounding.

(* ===================================================================== *)
(** ** IEEE arithmetic: numbers of the format stay numbers of the format *)
(* ===================================================================== *)

Section Format.
Local Open Scope Z_scope.
Local Unset Implicit Arguments.

Section Canonical.
Variables prec emax : Z.
Hypothesis prec_gt_1 : 1 < prec.
Hypothesis prec_lt_emax : prec < emax.

Lemma Zdigits2_bounds (m : Z) :
  0 < m -> 2 ^ (Zdigits2 m - 1) <= m < 2 ^ Zdigits2 m.
Proof.
  destruct m as [| p | p]; try lia. intros _. apply digits2_pos_bounds.
Qed.

Lemma Zdigits2_unique (m k : Z) :
  2 ^ (k - 1) <= m < 2 ^ k -> 0 < m -> Zdigits2 m = k.
Proof.
  intros [Hlow Hup] Hm.
  destruct (Zdigits2_bounds m Hm) as [Dlow Dup].
  assert (Hd : 0 < Zdigits2 m) by (destruct m; cbn; lia).
  assert (Hk : 0 < k).
  { destruct (Z.lt_trichotomy k 0) as [Hneg | [Hzero | Hpos]];
      [| | assumption].
    - rewrite (Z.pow_neg_r 2 k) in Hup by assumption. lia.
    - subst k. cbn in Hup. lia. }
  assert (H1 : 2 ^ (k - 1) < 2 ^ Zdigits2 m) by lia.
  assert (H2 : 2 ^ (Zdigits2 m - 1) < 2 ^ k) by lia.
  apply Z.pow_lt_mono_r_iff in H1; [| lia | lia].
  apply Z.pow_lt_mono_r_iff in H2; [| lia | lia].
  lia.
Qed.

Lemma Zdigits2_shift (m : positive) (k : Z) :
  0 <= k -> Zdigits2 (Zpos m * 2 ^ k) = Zpos (digits2_pos m) + k.
Proof.
  intros Hk.
  destruct (digits2_pos_bounds m) as [Hlow Hup].
  assert (Hpow : 0 < 2 ^ k) by (apply Z.pow_pos_nonneg; lia).
  apply Zdigits2_unique; [| lia].
  replace (Zpos (digits2_pos m) + k - 1)
    with ((Zpos (digits2_pos m) - 1) + k) by lia.
  rewrite !Z.pow_add_r by lia.
  split; [apply Z.mul_le_mono_nonneg_r | apply Z.mul_lt_mono_pos_r]; lia.
Qed.

(** *** Shifting right by the amount the format asks for *)

Lemma shr_fexp_spec (m : positive) (e : Z) (l : location) :
  e <= fexp prec emax (Zpos (digits2_pos m) + e) ->
  snd (shr_fexp prec emax (Zpos m) e l)
  = fexp prec emax (Zpos (digits2_pos m) + e)
  /\ shr_m (fst (shr_fexp prec emax (Zpos m) e l))
     = Zpos m / 2 ^ (fexp prec emax (Zpos (digits2_pos m) + e) - e).
Proof.
  intros Hpre. unfold shr_fexp, shr. cbn [Zdigits2].
  destruct (fexp prec emax (Zpos (digits2_pos m) + e) - e)
    as [| p | p] eqn:Hn; cbn [fst snd]; try lia.
  - rewrite shr_m_record_of_loc. split; [lia |].
    cbn. rewrite Z.div_1_r. reflexivity.
  - rewrite iter_shr_1_mantissa by (rewrite shr_m_record_of_loc; lia).
    rewrite shr_m_record_of_loc. split; [lia | reflexivity].
Qed.

(** After the first shift the mantissa has at most [prec] digits, and
    exactly [prec] unless the exponent is the smallest one. *)
Lemma shifted_mantissa_bounds (m : positive) (e : Z) :
  e <= fexp prec emax (Zpos (digits2_pos m) + e) ->
  let e' := fexp prec emax (Zpos (digits2_pos m) + e) in
  let m' := Zpos m / 2 ^ (e' - e) in
  0 <= m' < 2 ^ prec
  /\ emin prec emax <= e'
  /\ (e' = emin prec emax \/ 2 ^ (prec - 1) <= m').
Proof.
  intros Hpre e' m'.
  destruct (digits2_pos_bounds m) as [Hlow Hup].
  set (d := Zpos (digits2_pos m)) in *.
  assert (Hd : 0 < d) by (unfold d; lia).
  assert (He' : e' = Z.max (d + e - prec) (emin prec emax)) by reflexivity.
  assert (Hpow : 0 < 2 ^ (e' - e)) by (apply Z.pow_pos_nonneg; lia).
  assert (Hnonneg : 0 <= m') by (apply Z.div_pos; lia).
  split; [split; [assumption |] | split; [lia |]].
  - destruct (Z_le_gt_dec d prec) as [Hsmall | Hbig].
    + assert (m' <= Zpos m).
      { unfold m'. apply Z.div_le_upper_bound; [assumption |]. nia. }
      assert (2 ^ d <= 2 ^ prec) by (apply Z.pow_le_mono_r; lia).
      lia.
    + assert (Hq : 0 < 2 ^ (d - prec)) by (apply Z.pow_pos_nonneg; lia).
      assert (m' <= Zpos m / 2 ^ (d - prec)).
      { unfold m'. apply Z.div_le_compat_l; [lia |].
        split; [assumption | apply Z.pow_le_mono_r; lia]. }
      assert (Zpos m / 2 ^ (d - prec) < 2 ^ prec).
      { apply Z.div_lt_upper_bound; [assumption |].
        rewrite <- Z.pow_add_r by lia.
        replace (d - prec + prec) with d by lia. assumption. }
      lia.
  - destruct (Z.eq_dec e' (emin prec emax)) as [Hmin | Hnormal];
      [left; assumption | right].
    assert (Hshift : e' - e = d - prec) by lia.
    unfold m'. rewrite Hshift.
    apply Z.div_le_lower_bound; [apply Z.pow_pos_nonneg; lia |].
    rewrite <- Z.pow_add_r by lia.
    replace (d - prec + (prec - 1)) with (d - 1) by lia. assumption.
Qed.

Lemma round_nearest_even_cases (m : Z) (l : location) :
  round_nearest_even m l = m \/ round_nearest_even m l = m + 1.
Proof.
  unfold round_nearest_even.
  destruct l as [| []]; try destruct (Z.even m); auto.
Qed.

(** The second shift and the final case distinction of
    [binary_round_aux]. *)
Lemma finish_valid (s : bool) (m1 e' : Z) :
  0 <= m1 <= 2 ^ prec ->
  emin prec emax <= e' ->
  e' = emin prec emax \/ 2 ^ (prec - 1) <= m1 ->
  valid_binary prec emax
    (let '(mrs, e'') := shr_fexp prec emax m1 e' loc_Exact in
     match shr_m mrs with
     | 0 => S754_zero s
     | Zpos m => if e'' <=? emax - prec
                 then S754_finite s m e'' else S754_infinity s
     | Zneg _ => S754_nan
     end) = true.
Proof.
  intros [Hm0 Hm1] He' Hnorm.
  assert (Hpp : 0 < 2 ^ prec) by (apply Z.pow_pos_nonneg; lia).
  destruct (Z.eq_dec m1 0) as [-> | Hnz].
  { unfold shr_fexp, shr. cbn [Zdigits2].
    destruct (fexp prec emax (0 + e') - e') as [| p | p] eqn:Hn;
      try reflexivity.
    unfold fexp in Hn. lia. }
  assert (Hpos : 0 < m1) by lia.
  destruct (Zdigits2_bounds m1 Hpos) as [Dlow Dup].
  assert (Hd : 0 < Zdigits2 m1) by (destruct m1; cbn; lia).
  destruct (Z.eq_dec m1 (2 ^ prec)) as [Htop | Hbelow].
  - assert (Hdig : Zdigits2 m1 = prec + 1).
    { apply Zdigits2_unique; [| assumption].
      replace (prec + 1 - 1) with prec by lia.
      rewrite Z.pow_add_r, Z.pow_1_r by lia. lia. }
    unfold shr_fexp, shr. rewrite Hdig.
    replace (fexp prec emax (prec + 1 + e') - e') with 1
      by (unfold fexp; lia).
    cbn [iter_pos].
    assert (Hhalf : shr_m (shr_1 (shr_record_of_loc m1 loc_Exact))
                    = 2 ^ (prec - 1)).
    { rewrite shr_1_mantissa by (cbn; lia). cbn [shr_record_of_loc shr_m].
      rewrite Htop.
      replace prec with (prec - 1 + 1) at 1 by lia.
      rewrite Z.pow_add_r, Z.pow_1_r by lia.
      apply Z.div_mul. lia. }
    rewrite Hhalf.
    assert (Hq : 0 < 2 ^ (prec - 1)) by (apply Z.pow_pos_nonneg; lia).
    destruct (2 ^ (prec - 1)) as [| q | q] eqn:Eq; try lia.
    destruct (e' + 1 <=? emax - prec) eqn:Hle; [| reflexivity].
    cbn [valid_binary]. unfold bounded, canonical_mantissa.
    rewrite Hle, andb_true_r. apply Z.eqb_eq.
    assert (Hdq : Zdigits2 (Zpos q) = prec).
    { apply Zdigits2_unique; [| lia]. rewrite <- Eq.
      split; [lia |]. apply Z.pow_lt_mono_r; lia. }
    cbn [Zdigits2] in Hdq. rewrite Hdq. unfold fexp. lia.
  - assert (Hlt : m1 < 2 ^ prec) by lia.
    assert (Hdle : Zdigits2 m1 <= prec).
    { assert (H : 2 ^ (Zdigits2 m1 - 1) < 2 ^ prec) by lia.
      apply Z.pow_lt_mono_r_iff in H; lia. }
    assert (Hcanon : fexp prec emax (Zdigits2 m1 + e') = e').
    { destruct Hnorm as [Hmin | Hbig]; [unfold fexp; lia |].
      assert (H : 2 ^ (prec - 1) < 2 ^ Zdigits2 m1) by lia.
      apply Z.pow_lt_mono_r_iff in H; [| lia | lia].
      unfold fexp. lia. }
    unfold shr_fexp, shr. rewrite Hcanon, Z.sub_diag.
    cbn [shr_record_of_loc shr_m].
    destruct m1 as [| q | q]; try lia.
    destruct (e' <=? emax - prec) eqn:Hle; [| reflexivity].
    cbn [valid_binary]. unfold bounded, canonical_mantissa.
    rewrite Hle, andb_true_r. apply Z.eqb_eq. exact Hcanon.
Qed.

(** Rounding a mantissa that carries at least the precision of the format
    gives a number of the format. *)
Lemma binary_round_aux_valid (s : bool) (m : positive) (e : Z)
      (l : location) :
  e <= fexp prec emax (Zpos (digits2_pos m) + e) ->
  valid_binary prec emax (binary_round_aux prec emax s (Zpos m) e l) = true.
Proof.
  intros Hpre. unfold binary_round_aux.
  destruct (shr_fexp_spec m e l Hpre) as [He1 Hm1].
  destruct (shifted_mantissa_bounds m e Hpre) as ([Hlo Hhi] & Hemin & Hnorm).
  destruct (shr_fexp prec emax (Zpos m) e l) as [mrs1 e1].
  cbn [fst snd] in He1, Hm1. rewrite <- He1 in *. rewrite <- Hm1 in *.
  apply finish_valid; [| assumption |].
  - destruct (round_nearest_even_cases (shr_m mrs1)
                (loc_of_shr_record mrs1)) as [-> | ->]; lia.
  - destruct Hnorm as [Hmin | Hbig]; [left; assumption | right].
    pose proof (round_nearest_even_grows (shr_m mrs1)
                  (loc_of_shr_record mrs1)).
    lia.
Qed.

(** *** Numbers that need no rounding *)

Lemma shr_1_double (m : Z) :
  shr_1 {| shr_m := 2 * m; shr_r := false; shr_s := false |}
  = {| shr_m := m; shr_r := false; shr_s := false |}.
Proof. destruct m; reflexivity. Qed.

Lemma iter_shr_1_exact (p : positive) :
  forall m : Z,
    iter_pos shr_1 p
      {| shr_m := m * 2 ^ Zpos p; shr_r := false; shr_s := false |}
    = {| shr_m := m; shr_r := false; shr_s := false |}.
Proof.
  induction p as [p IH | p IH |]; intros m; cbn [iter_pos].
  - replace (m * 2 ^ Zpos p~1) with (2 * (m * 2 ^ Zpos p * 2 ^ Zpos p)).
    + rewrite shr_1_double, IH, IH. reflexivity.
    + rewrite (Pos2Z.inj_xI p).
      replace (2 * Zpos p + 1) with (1 + (Zpos p + Zpos p)) by lia.
      rewrite (Z.pow_add_r 2 1), (Z.pow_add_r 2 (Zpos p)) by lia.
      rewrite Z.pow_1_r. lia.
  - replace (m * 2 ^ Zpos p~0) with (m * 2 ^ Zpos p * 2 ^ Zpos p).
    + rewrite IH, IH. reflexivity.
    + rewrite (Pos2Z.inj_xO p).
      replace (2 * Zpos p) with (Zpos p + Zpos p) by lia.
      rewrite (Z.pow_add_r 2 (Zpos p)) by lia. lia.
  - rewrite Z.pow_1_r, Z.mul_comm. apply shr_1_double.
Qed.

Lemma canonical_exponent (m : positive) (e : Z) :
  bounded prec emax m e = true ->
  fexp prec emax (Zpos (digits2_pos m) + e) = e /\ e <= emax - prec.
Proof.
  unfold bounded, canonical_mantissa. intros H.
  apply andb_prop in H. destruct H as [H1 H2].
  apply Z.eqb_eq in H1. apply Z.leb_le in H2. split; assumption.
Qed.

Lemma shr_fexp_exact (m : positive) (e k : Z) :
  bounded prec emax m e = true -> 0 <= k ->
  shr_fexp prec emax (Zpos m * 2 ^ k) (e - k) loc_Exact
  = ({| shr_m := Zpos m; shr_r := false; shr_s := false |}, e).
Proof.
  intros Hb Hk. destruct (canonical_exponent m e Hb) as [Hc _].
  unfold shr_fexp, shr. rewrite Zdigits2_shift by assumption.
  replace (Zpos (digits2_pos m) + k + (e - k))
    with (Zpos (digits2_pos m) + e) by lia.
  rewrite Hc. replace (e - (e - k)) with k by lia.
  cbn [shr_record_of_loc].
  destruct k as [| p | p]; try lia.
  - cbn. rewrite Pos.mul_1_r, Z.sub_0_r. reflexivity.
  - rewrite iter_shr_1_exact. f_equal. lia.
Qed.

(** A number of the format, given with [k] extra low zero bits, rounds to
    itself. *)
Lemma binary_round_aux_exact (s : bool) (m : positive) (e k : Z) :
  bounded prec emax m e = true -> 0 <= k ->
  binary_round_aux prec emax s (Zpos m * 2 ^ k) (e - k) loc_Exact
  = S754_finite s m e.
Proof.
  intros Hb Hk. unfold binary_round_aux.
  rewrite shr_fexp_exact by assumption.
  cbn [shr_m loc_of_shr_record round_nearest_even].
  pose proof (shr_fexp_exact m e 0 Hb ltac:(lia)) as H0.
  rewrite Z.pow_0_r, Z.mul_1_r, Z.sub_0_r in H0. rewrite H0.
  cbn [shr_m].
  destruct (canonical_exponent m e Hb) as [_ Hle].
  apply Z.leb_le in Hle. rewrite Hle. reflexivity.
Qed.

Lemma ieee_one_mantissa :
  Zpos (Z.to_pos (Z.shiftl 1 (prec - 1))) = 2 ^ (prec - 1).
Proof.
  rewrite Z.shiftl_mul_pow2, Z.mul_1_l by lia.
  apply Z2Pos.id. apply Z.pow_pos_nonneg; lia.
Qed.

Lemma ieee_one_valid : valid_binary prec emax (ieee_one prec) = true.
Proof.
  unfold ieee_one. cbn [valid_binary]. unfold bounded, canonical_mantissa.
  assert (Hd : Zdigits2 (Zpos (Z.to_pos (Z.shiftl 1 (prec - 1)))) = prec).
  { apply Zdigits2_unique; [| lia]. rewrite ieee_one_mantissa.
    split; [lia |]. apply Z.pow_lt_mono_r; lia. }
  cbn [Zdigits2] in Hd. rewrite Hd.
  apply andb_true_intro. split.
  - apply Z.eqb_eq. unfold fexp, emin. lia.
  - apply Z.leb_le. lia.
Qed.

(** Multiplying a number of the format by one changes nothing. *)
Lemma SFmul_one_r (x : spec_float) :
  valid_binary prec emax x = true ->
  SFmul prec emax x (ieee_one prec) = x.
Proof.
  destruct x as [s | s | | s m e]; intros Hv; unfold ieee_one;
    cbn [SFmul]; try (rewrite xorb_false_r; reflexivity); try reflexivity.
  cbn [valid_binary] in Hv.
  rewrite xorb_false_r, Pos2Z.inj_mul, ieee_one_mantissa.
  replace (e + (1 - prec)) with (e - (prec - 1)) by lia.
  apply binary_round_aux_exact; [assumption | lia].
Qed.

(** One divided by one is one. *)
Lemma SFdiv_one_one :
  SFdiv prec emax (ieee_one prec) (ieee_one prec) = ieee_one prec.
Proof.
  pose proof ieee_one_valid as Hv.
  unfold ieee_one in *. cbn [SFdiv valid_binary] in *.
  set (q := Z.to_pos (Z.shiftl 1 (prec - 1))) in *.
  assert (Hq : Zpos q = 2 ^ (prec - 1)) by apply ieee_one_mantissa.
  assert (Hd : Zpos (digits2_pos q) = prec).
  { change (Zdigits2 (Zpos q) = prec).
    apply Zdigits2_unique; [| lia]. rewrite Hq.
    split; [lia |]. apply Z.pow_lt_mono_r; lia. }
  unfold SFdiv_core_binary. cbn [Zdigits2]. rewrite Hd.
  replace (prec + (1 - prec) - (prec + (1 - prec))) with 0 by lia.
  replace (1 - prec - (1 - prec)) with 0 by lia.
  replace (Z.min (fexp prec emax 0) 0) with (- prec)
    by (unfold fexp, emin; lia).
  replace (0 - - prec) with prec by lia.
  destruct prec as [| p | p] eqn:Ep; try lia.
  rewrite <- Ep in *.
  assert (Hpow : 0 < 2 ^ (prec - 1)) by (apply Z.pow_pos_nonneg; lia).
  rewrite Z.shiftl_mul_pow2 by lia.
  assert (Hdiv : Z.div_eucl (Zpos q * 2 ^ prec) (Zpos q) = (2 ^ prec, 0)).
  { pose proof (Z.div_eucl_eq (Zpos q * 2 ^ prec) (Zpos q) ltac:(lia)) as E.
    pose proof (Z.mod_pos_bound (Zpos q * 2 ^ prec) (Zpos q) ltac:(lia)) as B.
    unfold Z.modulo in B.
    destruct (Z.div_eucl (Zpos q * 2 ^ prec) (Zpos q)) as [a b].
    assert (Hb : b = 0).
    { assert (Hm : Zpos q * (2 ^ prec - a) = b) by lia.
      destruct (Z.eq_dec (2 ^ prec - a) 0) as [Hz | Hnz]; [nia |].
      assert (Zpos q <= Z.abs b).
      { rewrite <- Hm, Z.abs_mul.
        assert (1 <= Z.abs (2 ^ prec - a)) by lia. nia. }
      lia. }
    subst b. f_equal. nia. }
  rewrite Hdiv.
  assert (Hloc : new_location (Zpos q) 0 = loc_Exact).
  { unfold new_location, new_location_even, new_location_odd.
    destruct (Z.even (Zpos q)); reflexivity. }
  rewrite Hloc.
  replace (2 ^ prec) with (Zpos q * 2 ^ 1)
    by (rewrite Hq, <- Z.pow_add_r by lia; f_equal; lia).
  replace (- prec) with (1 - prec - 1) by lia.
  apply binary_round_aux_exact; [exact Hv | lia].
Qed.

(** *** Products and sums of numbers of the format *)

Lemma digits2_pos_mul (a b : positive) :
  Zpos (digits2_pos a) + Zpos (digits2_pos b) - 1
  <= Zpos (digits2_pos (a * b)).
Proof.
  pose proof (digits2_pos_bounds a) as [Ha _].
  pose proof (digits2_pos_bounds b) as [Hb _].
  pose proof (digits2_pos_bounds (a * b)) as [_ Hab].
  assert (Hprod : 2 ^ (Zpos (digits2_pos a) - 1 + (Zpos (digits2_pos b) - 1))
                  <= Zpos (a * b)).
  { rewrite Z.pow_add_r by lia. rewrite Pos2Z.inj_mul.
    apply Z.mul_le_mono_nonneg; try assumption;
      apply Z.pow_nonneg; lia. }
  assert (H : 2 ^ (Zpos (digits2_pos a) - 1 + (Zpos (digits2_pos b) - 1))
              < 2 ^ Zpos (digits2_pos (a * b))) by lia.
  apply Z.pow_lt_mono_r_iff in H; lia.
Qed.

Lemma SFmul_valid (x y : spec_float) :
  valid_binary prec emax x = true ->
  valid_binary prec emax y = true ->
  valid_binary prec emax (SFmul prec emax x y) = true.
Proof.
  destruct x as [sx | sx | | sx mx ex], y as [sy | sy | | sy my ey];
    intros Hx Hy; try reflexivity.
  cbn [SFmul valid_binary] in *.
  destruct (canonical_exponent mx ex Hx) as [Hcx _].
  destruct (canonical_exponent my ey Hy) as [Hcy _].
  pose proof (digits2_pos_mul mx my) as Hd.
  apply binary_round_aux_valid.
  unfold fexp, emin in *. lia.
Qed.

Lemma digits2_pos_iter_xO (m d : positive) :
  Zpos (digits2_pos (Pos.iter xO m d)) = Zpos (digits2_pos m) + Zpos d.
Proof.
  induction d as [| d IH] using Pos.peano_ind.
  - cbn. lia.
  - rewrite Pos.iter_succ. cbn [digits2_pos]. lia.
Qed.

Lemma shl_align_fexp_spec (m : positive) (e : Z) :
  let mz := fst (shl_align m e (fexp prec emax (Zpos (digits2_pos m) + e))) in
  let ez := snd (shl_align m e (fexp prec emax (Zpos (digits2_pos m) + e))) in
  Zpos (digits2_pos mz) + ez = Zpos (digits2_pos m) + e
  /\ ez <= fexp prec emax (Zpos (digits2_pos m) + e).
Proof.
  unfold shl_align.
  destruct (fexp prec emax (Zpos (digits2_pos m) + e) - e)
    as [| p | p] eqn:Hn; cbn [fst snd]; try lia.
  rewrite digits2_pos_iter_xO. lia.
Qed.

Lemma binary_round_valid (s : bool) (m : positive) (e : Z) :
  valid_binary prec emax (binary_round prec emax s m e) = true.
Proof.
  unfold binary_round.
  destruct (shl_align_fexp_spec m e) as [Hsum Hle].
  destruct (shl_align m e (fexp prec emax (Zpos (digits2_pos m) + e)))
    as [mz ez].
  cbn [fst snd] in *.
  apply binary_round_aux_valid. rewrite Hsum. exact Hle.
Qed.

Lemma binary_round_nonzero (s : bool) (m : positive) (e : Z) :
  emin prec emax <= e ->
  nonzero_number (binary_round prec emax s m e) = true.
Proof.
  intros He. unfold binary_round.
  destruct (shl_align_fexp_spec m e) as [Hsum _].
  destruct (shl_align m e (fexp prec emax (Zpos (digits2_pos m) + e)))
    as [mz ez].
  cbn [fst snd] in *.
  apply binary_round_aux_nonzero; lia.
Qed.

Lemma valid_exponent_above (s : bool) (m : positive) (e : Z) :
  valid_binary prec emax (S754_finite s m e) = true -> emin prec emax <= e.
Proof.
  cbn [valid_binary]. intros H.
  destruct (canonical_exponent m e H) as [Hc _].
  unfold fexp in Hc. lia.
Qed.

Lemma SFadd_valid (x y : spec_float) :
  valid_binary prec emax x = true ->
  valid_binary prec emax y = true ->
  valid_binary prec emax (SFadd prec emax x y) = true.
Proof.
  destruct x as [[] | [] | | sx mx ex], y as [[] | [] | | sy my ey];
    intros Hx Hy; try reflexivity; try assumption.
  cbn [SFadd]. unfold binary_normalize.
  destruct (cond_Zopp sx (Zpos (fst (shl_align mx ex (Z.min ex ey))))
            + cond_Zopp sy (Zpos (fst (shl_align my ey (Z.min ex ey)))));
    [reflexivity | apply binary_round_valid | apply binary_round_valid].
Qed.

(** A sum is the negative zero only when both terms are. *)
Lemma SFadd_not_negative_zero (x y : spec_float) :
  valid_binary prec emax x = true ->
  valid_binary prec emax y = true ->
  x <> S754_zero true ->
  SFadd prec emax x y <> S754_zero true.
Proof.
  destruct x as [[] | [] | | sx mx ex], y as [[] | [] | | sy my ey];
    intros Hx Hy Hnz; try discriminate; try congruence.
  cbn [SFadd]. unfold binary_normalize.
  pose proof (valid_exponent_above sx mx ex Hx).
  pose proof (valid_exponent_above sy my ey Hy).
  destruct (cond_Zopp sx (Zpos (fst (shl_align mx ex (Z.min ex ey))))
            + cond_Zopp sy (Zpos (fst (shl_align my ey (Z.min ex ey)))))
    as [| q | q]; [discriminate | |].
  - pose proof (binary_round_nonzero false q (Z.min ex ey) ltac:(lia)) as H1.
    intros E. rewrite E in H1. discriminate.
  - pose proof (binary_round_nonzero true q (Z.min ex ey) ltac:(lia)) as H1.
    intros E. rewrite E in H1. discriminate.
Qed.

Lemma SFadd_zero_r (x : spec_float) :
  x <> S754_zero true -> SFadd prec emax x (S754_zero false) = x.
Proof.
  destruct x as [[] | [] | | s m e]; intros H; try reflexivity.
  contradiction H. reflexivity.
Qed.
End Canonical.
End Format.

(* ===================================================================== *)
(** ** IEEE arithmetic: no input, no inflation *)
(* ===================================================================== *)

Section IeeeNoInput.
Variables prec emax : Z.
Hypothesis prec_gt_1 : (1 < prec)%Z.
Hypothesis prec_lt_emax : (prec < emax)%Z.

Lemma inflation_one_ieee :
  inflation (ST := ieee_scalar prec emax) (ieee_one prec) = ieee_one prec.
Proof.
  unfold inflation. cbn [s_div s_mul s_one ieee_scalar].
  rewrite SFmul_one_r
    by (try assumption; apply ieee_one_valid; assumption).
  apply SFdiv_one_one; assumption.
Qed.

Lemma entry_valid (c : nat) (d : list spec_float) (i j : nat) :
  Forall (fun v => valid_binary prec emax v = true) d ->
  valid_binary prec emax (entry (ST := ieee_scalar prec emax) c d i j)
  = true.
Proof.
  intros Hd. unfold entry.
  destruct (nth_in_or_default (i * c + j) d
              (s_zero (Scalar := ieee_scalar prec emax))) as [Hin | ->].
  - rewrite Forall_forall in Hd. apply Hd. exact Hin.
  - reflexivity.
Qed.

(** A sum accumulated from zero over numbers of the format is a number of
    the format, and never the negative zero. *)
Lemma sum_upto_settled (n : nat) (f : nat -> spec_float) :
  (forall k, k < n -> valid_binary prec emax (f k) = true) ->
  valid_binary prec emax (sum_upto (ST := ieee_scalar prec emax) n f) = true
  /\ sum_upto (ST := ieee_scalar prec emax) n f <> S754_zero true.
Proof.
  induction n as [| n IH]; intros Hf.
  - split; [reflexivity | discriminate].
  - destruct IH as [Hv Hnz]; [intros k Hk; apply Hf; lia |].
    rewrite sum_upto_S. cbn [s_add ieee_scalar]. split.
    + apply SFadd_valid; try assumption. apply Hf. lia.
    + apply SFadd_not_negative_zero; try assumption. apply Hf. lia.
Qed.

Lemma mat_mul_valid (r n c : nat) (a b : list spec_float) (i j : nat) :
  Forall (fun v => valid_binary prec emax v = true) a ->
  Forall (fun v => valid_binary prec emax v = true) b ->
  i < r -> j < c ->
  valid_binary prec emax
    (entry (ST := ieee_scalar prec emax) c
       (mat_mul (ST := ieee_scalar prec emax) r n c a b) i j) = true.
Proof.
  intros Ha Hb Hi Hj. unfold mat_mul.
  rewrite entry_tabulate by assumption.
  apply sum_upto_settled. intros k _. cbn [s_mul ieee_scalar].
  apply SFmul_valid; try assumption; apply entry_valid; assumption.
Qed.

(** Scaling by one and adding the empty input term change no entry of
    [A * P * A^T]. *)
Lemma unscaled_covariance_ieee (kf : kalman_t) (st : state spec_float) :
  Forall (fun v => valid_binary prec emax v = true)
         (contents st (kf_A kf)) ->
  Forall (fun v => valid_binary prec emax v = true)
         (contents st (kf_P kf)) ->
  cols (kf_B kf) = 0 ->
  A_P_At_scaled (ST := ieee_scalar prec emax) st kf (ieee_one prec)
  = A_P_At (ST := ieee_scalar prec emax) st kf
  /\ A_P_At_scaled_plus_B_Q_Bt (ST := ieee_scalar prec emax) st kf
       (ieee_one prec)
     = A_P_At (ST := ieee_scalar prec emax) st kf.
Proof.
  intros HA HP Hm.
  assert (Hsum : forall i j, i < rows (kf_A kf) -> j < rows (kf_A kf) ->
            let S := sum_upto (ST := ieee_scalar prec emax) (rows (kf_A kf))
                       (fun k =>
                          SFmul prec emax
                            (entry (ST := ieee_scalar prec emax)
                               (rows (kf_A kf))
                               (A_P (ST := ieee_scalar prec emax) st kf) i k)
                            (entry (ST := ieee_scalar prec emax)
                               (rows (kf_A kf)) (contents st (kf_A kf))
                               j k)) in
            valid_binary prec emax S = true /\ S <> S754_zero true).
  { intros i j Hi Hj. apply sum_upto_settled. intros k Hk.
    apply SFmul_valid; try assumption.
    - unfold A_P. cbv zeta. apply mat_mul_valid; assumption.
    - apply entry_valid; assumption. }
  assert (Hscaled :
            A_P_At_scaled (ST := ieee_scalar prec emax) st kf (ieee_one prec)
            = A_P_At (ST := ieee_scalar prec emax) st kf).
  { unfold A_P_At_scaled, A_P_At, mat_mulscale_transb, mat_mul_transb.
    cbv zeta. apply tabulate_ext. intros i j Hi Hj.
    cbn [s_mul ieee_scalar].
    apply SFmul_one_r; try assumption. apply (Hsum i j Hi Hj). }
  split; [exact Hscaled |].
  unfold A_P_At_scaled_plus_B_Q_Bt, mat_muladd_transb. cbv zeta.
  rewrite Hm, Hscaled.
  unfold A_P_At, mat_mul_transb. cbv zeta.
  apply tabulate_ext. intros i j Hi Hj.
  rewrite entry_tabulate by assumption.
  rewrite sum_upto_0. cbn [s_add s_zero s_mul ieee_scalar].
  apply SFadd_zero_r. apply (Hsum i j Hi Hj).
Qed.
End IeeeNoInput.

(** C3, as the code has it.  In IEEE arithmetic of any format, for a
    filter without input ([B] of zero width) whose [A] and [P] hold numbers
    of the format, and lambda = 1, [kalman_predict] leaves exactly [A * x]
    in [x] and exactly [A * P * A^T] in [P]: the factor [1 / lambda^2] is
    exactly one, and multiplying by it changes no entry.  The
    [B * Q * B^T] step is skipped when [B] has no rows; a filter with at
    least one state runs it on the zero-width operands, where it adds an
    empty sum, a positive zero, to every entry of [P], which changes no
    entry either. *)
Theorem no_input_identity
        (prec emax : Z) (CT : Collaborator spec_float)
        (kf : kalman_t) (st : state spec_float) :
  (1 < prec)%Z -> (prec < emax)%Z ->
  filter_ok st kf = true ->
  cols (kf_B kf) = 0 ->
  Forall (fun v => valid_binary prec emax v = true)
         (contents st (kf_A kf)) ->
  Forall (fun v => valid_binary prec emax v = true)
         (contents st (kf_P kf)) ->
  exists st',
    run (kalman_predict (ST := ieee_scalar prec emax) kf (ieee_one prec)) st
    = (inr tt, st')
    /\ contents st' (kf_x kf) = A_x (ST := ieee_scalar prec emax) st kf
    /\ contents st' (kf_P kf) = A_P_At (ST := ieee_scalar prec emax) st kf
    /\ inflation (ST := ieee_scalar prec emax) (ieee_one prec)
       = ieee_one prec
    /\ (rows (kf_B kf) = 0 ->
        calls st' = calls st ++ propagation_calls kf (ieee_one prec))
    /\ (0 < rows (kf_B kf) ->
        calls st'
        = calls st ++ propagation_calls kf (ieee_one prec)
                   ++ input_term_calls kf).
Proof.
  intros Hprec Hemax Hok Hm HA HP.
  destruct (predict_outcome (ST := ieee_scalar prec emax)
              kf (ieee_one prec) st Hok)
    as (st' & Hrun & Hx & _ & _ & HP' & _ & _ & _ & _ & Hcalls).
  rewrite (inflation_one_ieee Hprec Hemax) in HP', Hcalls.
  destruct (@unscaled_covariance_ieee prec emax Hprec Hemax kf st HA HP Hm)
    as [Hscaled Hplus].
  exists st'. split; [exact Hrun |]. split; [exact Hx |].
  split; [| split; [exact (inflation_one_ieee Hprec Hemax) | split]].
  - rewrite HP'. destruct (0 <? rows (kf_B kf)); assumption.
  - intros Hzero. rewrite Hcalls, Hzero. cbn [Nat.ltb Nat.leb].
    rewrite app_nil_r. reflexivity.
  - intros Hpos. rewrite Hcalls.
    apply Nat.ltb_lt in Hpos. rewrite Hpos. reflexivity.
Qed.

Lemma no_input_identity_witness :
  (1 < 53)%Z /\ (53 < 1024)%Z
  /\ filter_ok cv_state_double (example_filter 2 0) = true
  /\ cols (kf_B (example_filter 2 0)) = 0
  /\ Forall (fun v => valid_binary 53 1024 v = true)
            (contents cv_state_double (kf_A (example_filter 2 0)))
  /\ Forall (fun v => valid_binary 53 1024 v = true)
            (contents cv_state_double (kf_P (example_filter 2 0)))
  /\ exists st',
       run (kalman_predict (ST := binary64)
              (CT := quiet_collaborator spec_float (ST := binary64))
              (example_filter 2 0) (f64 1 0)) cv_state_double
       = (inr tt, st')
       /\ contents st' (kf_x (example_filter 2 0)) = [f64 1 0; f64 1 0]
       /\ contents st' (kf_P (example_filter 2 0))
          = [f64 7 0; f64 4 0; f64 4 0; f64 3 0].
Proof.
  assert (HA : Forall (fun v => valid_binary 53 1024 v = true)
                 (contents cv_state_double (kf_A (example_filter 2 0))))
    by (repeat constructor).
  assert (HP : Forall (fun v => valid_binary 53 1024 v = true)
                 (contents cv_state_double (kf_P (example_filter 2 0))))
    by (repeat constructor).
  split; [reflexivity |]. split; [reflexivity |].
  split; [reflexivity |]. split; [reflexivity |].
  split; [exact HA |]. split; [exact HP |].
  destruct (@no_input_identity 53%Z 1024%Z
              (quiet_collaborator spec_float (ST := binary64))
              (example_filter 2 0) cv_state_double
              eq_refl eq_refl eq_refl eq_refl HA HP)
    as (st' & Hrun & Hx & HP' & _).
  exists st'. split; [exact Hrun |].
  rewrite Hx, HP'. split; vm_compute; reflexivity.
Defined.
(* ===================================================================== *)
(** ** The fading factor zero *)
(* ===================================================================== *)

Lemma Forall_tabulate (T : Type) (Q : T -> Prop)
      (r c : nat) (f : nat -> nat -> T) :
  (forall i j, i < r -> j < c -> Q (f i j)) -> Forall Q (tabulate r c f).
Proof.
  intros H. unfold tabulate. apply Forall_flat_map.
  apply Forall_forall. intros i Hi. apply in_seq in Hi.
  apply Forall_map. apply Forall_forall. intros j Hj. apply in_seq in Hj.
  apply H; lia.
Qed.

Section Ieee.
Variables prec emax : Z.

Lemma nonfinite_mul_infinity (x : spec_float) :
  nonfinite (SFmul prec emax x (S754_infinity false)) = true.
Proof. destruct x; reflexivity. Qed.

Lemma nonfinite_add (x y : spec_float) :
  nonfinite x = true -> nonfinite (SFadd prec emax x y) = true.
Proof.
  destruct x as [sx | sx | | sx mx ex]; intros Hx; try discriminate Hx.
  - destruct y as [sy | sy | | sy my ey]; try reflexivity.
    destruct sx, sy; reflexivity.
  - reflexivity.
Qed.

Lemma inflation_zero (s : bool) :
  inflation (ST := ieee_scalar prec emax) (S754_zero s)
  = S754_infinity false.
Proof. destruct s; reflexivity. Qed.

(** A finite lambda whose leading bit has exponent [x] squares to something
    of exponent at least [2 * x - 1]; above the smallest exponent of the
    format the square is not zero, and dividing one by it gives a number. *)
Lemma inflation_defined (s : bool) (m : positive) (e : Z) :
  (1 <= prec)%Z ->
  (emin prec emax < 2 * (Zpos (digits2_pos m) + e) - 1)%Z ->
  nonzero_number
    (s_mul (Scalar := ieee_scalar prec emax)
           (S754_finite s m e) (S754_finite s m e)) = true
  /\ inflation (ST := ieee_scalar prec emax) (S754_finite s m e)
     <> S754_nan.
Proof.
  intros Hprec Habove.
  assert (Hsq : nonzero_number
                  (SFmul prec emax (S754_finite s m e) (S754_finite s m e))
                = true)
    by (apply SFmul_nonzero; [assumption | lia]).
  split; [exact Hsq |].
  unfold inflation. cbn [s_div s_mul s_one ieee_scalar]. unfold ieee_one.
  destruct (SFmul prec emax (S754_finite s m e) (S754_finite s m e))
    as [sz | sz | | sz mz ez]; try discriminate Hsq.
  - discriminate.
  - apply SFdiv_finite_not_nan.
Qed.
End Ieee.

(** In binary64 every finite lambda of magnitude at least 2^-537 has a
    non-zero square. *)
Lemma double_square_is_nonzero (s : bool) (m : positive) (e : Z) :
  (-536 <= Zpos (digits2_pos m) + e)%Z ->
  nonzero_number
    (s_mul (Scalar := binary64) (S754_finite s m e) (S754_finite s m e))
  = true.
Proof.
  intros Hexp. apply inflation_defined; [lia |]. unfold emin. lia.
Qed.

(** C6, as the code has it.  In IEEE arithmetic of any format,
    [kalman_predict] called with lambda = 0 forms the factor [1 / (0 * 0)],
    a division by zero whose result is +infinity; nothing detects it, the
    call completes, and every entry of the covariance it leaves is infinite
    or NaN.  For a finite lambda the divisor [lambda * lambda] is a
    non-zero number, and the factor is not NaN, as long as twice the
    exponent of lambda's leading bit stays above the smallest exponent of
    the format (in binary64: lambda >= 2^-537).  In exact arithmetic the
    divisor is not zero for any lambda with 0 < lambda <= 1, and the factor
    is at least one. *)
Theorem zero_lambda_unguarded
        (prec emax : Z) (CT : Collaborator spec_float)
        (kf : kalman_t) (st : state spec_float) (s : bool) :
  filter_ok st kf = true ->
  (1 <= prec)%Z ->
  (inflation (ST := ieee_scalar prec emax) (S754_zero s)
   = SFdiv prec emax (ieee_one prec) (S754_zero false)
   /\ inflation (ST := ieee_scalar prec emax) (S754_zero s)
      = S754_infinity false
   /\ exists st',
        run (kalman_predict (ST := ieee_scalar prec emax) kf (S754_zero s))
            st = (inr tt, st')
        /\ length (contents st' (kf_P kf)) = rows (kf_A kf) * rows (kf_A kf)
        /\ Forall (fun v => nonfinite v = true) (contents st' (kf_P kf)))
  /\ (forall (sl : bool) (m : positive) (e : Z),
         (emin prec emax < 2 * (Zpos (digits2_pos m) + e) - 1)%Z ->
         nonzero_number
           (s_mul (Scalar := ieee_scalar prec emax)
                  (S754_finite sl m e) (S754_finite sl m e)) = true
         /\ inflation (ST := ieee_scalar prec emax) (S754_finite sl m e)
            <> S754_nan)
  /\ (forall lambda : R,
         (0 < lambda <= 1)%R ->
         s_mul lambda lambda <> (s_zero : R)
         /\ (1 <= inflation lambda)%R).
Proof.
  intros Hok Hprec. split; [| split].
  - split; [destruct s; reflexivity |].
    split; [apply inflation_zero |].
    destruct (predict_outcome (ST := ieee_scalar prec emax)
                kf (S754_zero s) st Hok)
      as (st' & Hrun & _ & _ & _ & HP & _).
    exists st'. split; [exact Hrun |].
    rewrite HP, inflation_zero.
    assert (Hscaled :
              forall i j, i < rows (kf_A kf) -> j < rows (kf_A kf) ->
                nonfinite
                  (entry (ST := ieee_scalar prec emax) (rows (kf_A kf))
                     (A_P_At_scaled (ST := ieee_scalar prec emax)
                        st kf (S754_infinity false)) i j) = true).
    { intros i j Hi Hj. unfold A_P_At_scaled, mat_mulscale_transb.
      cbv zeta. rewrite entry_tabulate by assumption.
      apply nonfinite_mul_infinity. }
    destruct (0 <? rows (kf_B kf)).
    + unfold A_P_At_scaled_plus_B_Q_Bt, mat_muladd_transb. cbv zeta.
      split; [apply length_tabulate |].
      apply (Forall_tabulate (fun v => nonfinite v = true)).
      intros i j Hi Hj.
      apply nonfinite_add. apply Hscaled; assumption.
    + unfold A_P_At_scaled, mat_mulscale_transb. cbv zeta.
      split; [apply length_tabulate |].
      apply (Forall_tabulate (fun v => nonfinite v = true)).
      intros i j Hi Hj.
      apply nonfinite_mul_infinity.
  - intros sl m e Habove. apply inflation_defined; assumption.
  - intros lambda [Hpos Hle]. unfold inflation. simpl.
    assert (Hsq : (0 < lambda * lambda <= 1)%R) by nra.
    split; [lra |].
    unfold Rdiv. rewrite Rmult_1_l.
    rewrite <- Rinv_1 at 1.
    apply Rinv_le_contravar; lra.
Qed.

Lemma zero_lambda_unguarded_witness :
  filter_ok cv_state_double cv_filter = true
  /\ (1 <= 53)%Z
  /\ exists st',
       run (kalman_predict (ST := binary64)
              (CT := quiet_collaborator spec_float (ST := binary64))
              cv_filter (f64 0 0)) cv_state_double = (inr tt, st')
       /\ Forall (fun v => nonfinite v = true)
                 (contents st' (kf_P cv_filter)).
Proof.
  assert (Hprec : (1 <= 53)%Z) by lia.
  split; [reflexivity |]. split; [exact Hprec |].
  destruct (@zero_lambda_unguarded 53%Z 1024%Z
              (quiet_collaborator spec_float (ST := binary64))
              cv_filter cv_state_double false eq_refl Hprec)
    as [(_ & _ & st' & Hrun & _ & Hinf) _].
  exists st'. split; assumption.
Defined.

(** C6 as stated fails: a fading factor inside (0, 1] can still divide by
    zero.  In binary64 the square of lambda = 2^-600 underflows to zero, in
    binary32 the square of 2^-80 does; the factor is then +infinity, and
    predict leaves an infinite covariance in the scalar example. *)
Lemma tiny_lambda_divides_by_zero :
  (valid_binary 53 1024 (f64 1 (-600)) = true
   /\ SFltb (f64 0 0) (f64 1 (-600)) = true
   /\ SFleb (f64 1 (-600)) (f64 1 0) = true
   /\ s_mul (Scalar := binary64) (f64 1 (-600)) (f64 1 (-600))
      = S754_zero false
   /\ inflation (ST := binary64) (f64 1 (-600)) = S754_infinity false)
  /\ (valid_binary 24 128 (f32 1 (-80)) = true
      /\ SFltb (f32 0 0) (f32 1 (-80)) = true
      /\ SFleb (f32 1 (-80)) (f32 1 0) = true
      /\ s_mul (Scalar := binary32) (f32 1 (-80)) (f32 1 (-80))
         = S754_zero false
      /\ inflation (ST := binary32) (f32 1 (-80)) = S754_infinity false)
  /\ contents
       (snd (run (kalman_predict (ST := binary64)
                    (CT := quiet_collaborator spec_float (ST := binary64))
                    scalar_filter (f64 1 (-600)))
                 (worked_example f64)))
       (kf_P scalar_filter)
     = [S754_infinity false].
Proof.
  repeat split; vm_compute; reflexivity.
Qed.

(** Between the two, the divisor is not zero but the quotient overflows:
    in binary64 the factor for lambda = 2^-530 is +infinity as well. *)
Remark small_lambda_overflows :
  s_mul (Scalar := binary64) (f64 1 (-530)) (f64 1 (-530))
  = f64 1 (-1060)
  /\ inflation (ST := binary64) (f64 1 (-530)) = S754_infinity false.
Proof. split; vm_compute; reflexivity. Qed.

(* ===================================================================== *)
(** ** Exact arithmetic: symmetry *)
(* ===================================================================== *)

Lemma real_exact_laws : ExactLaws R.
Proof. split; simpl; intros; ring. Qed.

Section Exact.
Context {T : Type} {ST : Scalar T} {EL : ExactLaws T}.

Lemma add_zero_right (a : T) : s_add a s_zero = a.
Proof. rewrite add_comm. apply add_zero_l. Qed.

Lemma add_shuffle (a b c d : T) :
  s_add (s_add a b) (s_add c d) = s_add (s_add a c) (s_add b d).
Proof.
  rewrite !add_assoc. f_equal.
  rewrite <- !add_assoc. f_equal. apply add_comm.
Qed.

Lemma mul_rotate (a b c : T) :
  s_mul (s_mul a b) c = s_mul (s_mul c b) a.
Proof.
  rewrite (mul_comm a b), mul_assoc, (mul_comm a c), <- mul_assoc.
  rewrite (mul_comm b c). reflexivity.
Qed.

Lemma sum_upto_zero (n : nat) :
  sum_upto n (fun _ => s_zero) = (s_zero : T).
Proof.
  induction n as [| n IH]; [reflexivity |].
  rewrite sum_upto_S, IH. apply add_zero_l.
Qed.

Lemma sum_upto_add (n : nat) (f g : nat -> T) :
  sum_upto n (fun k => s_add (f k) (g k))
  = s_add (sum_upto n f) (sum_upto n g).
Proof.
  induction n as [| n IH].
  - rewrite !sum_upto_0. symmetry. apply add_zero_l.
  - rewrite !sum_upto_S, IH. apply add_shuffle.
Qed.

Lemma sum_upto_mul_r (n : nat) (f : nat -> T) (c : T) :
  s_mul (sum_upto n f) c = sum_upto n (fun k => s_mul (f k) c).
Proof.
  induction n as [| n IH].
  - rewrite !sum_upto_0. apply mul_zero_l.
  - rewrite !sum_upto_S, mul_add_distr_r, IH. reflexivity.
Qed.

Lemma sum_upto_swap (n m : nat) (F : nat -> nat -> T) :
  sum_upto n (fun k => sum_upto m (fun l => F k l))
  = sum_upto m (fun l => sum_upto n (fun k => F k l)).
Proof.
  induction n as [| n IH].
  - rewrite sum_upto_0. symmetry. apply sum_upto_zero.
  - rewrite sum_upto_S, IH, <- sum_upto_add.
    apply sum_upto_ext. intros l _. rewrite sum_upto_S. reflexivity.
Qed.

(** [a * p * a^T] is symmetric when [p] is: [a] is [r] x [n], [p] is
    [n] x [n]. *)
Lemma sandwich_symmetric (r n : nat) (a p : list T) (i j : nat) :
  symmetric n p -> i < r -> j < r ->
  sum_upto n (fun k => s_mul (entry n (mat_mul r n n a p) i k)
                             (entry n a j k))
  = sum_upto n (fun k => s_mul (entry n (mat_mul r n n a p) j k)
                               (entry n a i k)).
Proof.
  intros Hp Hi Hj.
  assert (Hopen : forall i' j', i' < r ->
            sum_upto n (fun k => s_mul (entry n (mat_mul r n n a p) i' k)
                                       (entry n a j' k))
            = sum_upto n (fun k => sum_upto n (fun l =>
                s_mul (s_mul (entry n a i' l) (entry n p l k))
                      (entry n a j' k)))).
  { intros i' j' Hi'. apply sum_upto_ext. intros k Hk.
    unfold mat_mul. rewrite entry_tabulate by assumption.
    apply sum_upto_mul_r. }
  rewrite (Hopen i j Hi), (Hopen j i Hj), sum_upto_swap.
  apply sum_upto_ext. intros k Hk.
  apply sum_upto_ext. intros l Hl.
  rewrite (Hp l k Hl Hk). apply mul_rotate.
Qed.

Lemma scaled_symmetric (kf : kalman_t) (st : state T) (f : T) :
  symmetric (rows (kf_A kf)) (contents st (kf_P kf)) ->
  symmetric (rows (kf_A kf)) (A_P_At_scaled st kf f).
Proof.
  intros HP i j Hi Hj.
  unfold A_P_At_scaled, mat_mulscale_transb, A_P. cbv zeta.
  rewrite !entry_tabulate by assumption. f_equal.
  apply sandwich_symmetric; assumption.
Qed.

Lemma scaled_plus_input_symmetric (kf : kalman_t) (st : state T) (f : T) :
  symmetric (rows (kf_A kf)) (contents st (kf_P kf)) ->
  symmetric (cols (kf_B kf)) (contents st (kf_Q kf)) ->
  symmetric (rows (kf_A kf)) (A_P_At_scaled_plus_B_Q_Bt st kf f).
Proof.
  intros HP HQ i j Hi Hj.
  unfold A_P_At_scaled_plus_B_Q_Bt, mat_muladd_transb, B_Q. cbv zeta.
  rewrite !entry_tabulate by assumption.
  rewrite (scaled_symmetric kf st f HP Hi Hj). f_equal.
  apply sandwich_symmetric; assumption.
Qed.
End Exact.


Lemma cv_covariance_symmetric :
  symmetric (ST := real_scalar) 2 (contents cv_state_real (kf_P cv_filter)).
Proof.
  intros i j Hi Hj.
  destruct i as [| [| i]]; destruct j as [| [| j]];
    try lia; reflexivity.
Defined.

Lemma cv_input_covariance_symmetric :
  symmetric (ST := real_scalar) 1 (contents cv_state_real (kf_Q cv_filter)).
Proof.
  intros i j Hi Hj.
  destruct i as [| i]; destruct j as [| j]; try lia; reflexivity.
Defined.

Lemma cv_products_symmetric :
  symmetric (ST := binary64) 2 (A_P_At (ST := binary64)
                                  cv_state_double cv_filter)
  /\ symmetric (ST := binary64) 2
       (mat_mul_transb (ST := binary64) 2 1 2
          (B_Q (ST := binary64) cv_state_double cv_filter)
          (contents cv_state_double (kf_B cv_filter))).
Proof.
  split; intros i j Hi Hj;
    destruct i as [| [| i]]; destruct j as [| [| j]];
      try lia; vm_compute; reflexivity.
Defined.



(** Short of overflow, rounding alone already separates the two: in
    binary64 the covariance predict leaves for a symmetric [P] can differ
    from its transpose in the last place. *)
Remark rounding_breaks_exact_symmetry :
  let P' := contents
              (snd (run (kalman_predict (ST := binary64)
                           (CT := quiet_collaborator spec_float
                                    (ST := binary64))
                           (example_filter 2 0) (f64 1 0))
                        rounding_state))
              (kf_P (example_filter 2 0)) in
  filter_ok rounding_state (example_filter 2 0) = true
  /\ entry (ST := binary64) 2 P' 0 1 = f64 0x10a00000000003 (-46)
  /\ entry (ST := binary64) 2 P' 1 0 = f64 0x10a00000000004 (-46).
Proof. repeat split; vm_compute; reflexivity. Qed.

(* ===================================================================== *)
(** ** Exact arithmetic: the fading factor *)
(* ===================================================================== *)

Section Diagonal.
Context {T : Type} {ST : Scalar T}.

Lemma scaled_entry (kf : kalman_t) (st : state T) (f : T) (i j : nat) :
  i < rows (kf_A kf) -> j < rows (kf_A kf) ->
  entry (rows (kf_A kf)) (A_P_At_scaled st kf f) i j
  = s_mul (entry (rows (kf_A kf)) (A_P_At st kf) i j) f.
Proof.
  intros Hi Hj.
  unfold A_P_At_scaled, A_P_At, mat_mulscale_transb, mat_mul_transb.
  cbv zeta. rewrite !entry_tabulate by assumption. reflexivity.
Qed.

Lemma scaled_plus_input_entry (kf : kalman_t) (st : state T) (i j : nat) :
  i < rows (kf_A kf) -> j < rows (kf_A kf) ->
  exists w : T, forall f : T,
    entry (rows (kf_A kf)) (A_P_At_scaled_plus_B_Q_Bt st kf f) i j
    = s_add (s_mul (entry (rows (kf_A kf)) (A_P_At st kf) i j) f) w.
Proof.
  intros Hi Hj.
  exists (sum_upto (cols (kf_B kf))
            (fun k => s_mul (entry (cols (kf_B kf)) (B_Q st kf) i k)
                            (entry (cols (kf_B kf))
                                   (contents st (kf_B kf)) j k))).
  intros f. unfold A_P_At_scaled_plus_B_Q_Bt, mat_muladd_transb.
  cbv zeta. rewrite entry_tabulate by assumption.
  rewrite scaled_entry by assumption. reflexivity.
Qed.
End Diagonal.

Lemma inflation_decreasing (l1 l2 : R) :
  (0 < l2 < l1)%R -> (inflation l1 < inflation l2)%R.
Proof.
  intros [Hpos Hlt]. unfold inflation. simpl.
  unfold Rdiv. rewrite !Rmult_1_l.
  assert (H1 : (0 < l1 * l1)%R) by nra.
  assert (H2 : (0 < l2 * l2)%R) by nra.
  apply Rinv_lt_contravar; [apply Rmult_lt_0_compat; assumption | nra].
Qed.




(* ===================================================================== *)
(** ** Initialise, then predict; predict again *)
(* ===================================================================== *)

Section Drivers.
Context {T : Type} {ST : Scalar T} {CT : Collaborator T}.

Lemma run_filter_initialize
      (kf : kalman_t) (n m : nat)
      (A x B u P Q aux predictedX temp_P temp_BQ : buf) (st : state T) :
  run (kalman_filter_initialize kf n m A x B u P Q
         aux predictedX temp_P temp_BQ) st
  = (inr {| kf_A := {| rows := n; cols := n; data := A |};
            kf_P := {| rows := n; cols := n; data := P |};
            kf_x := {| rows := n; cols := 1; data := x |};
            kf_B := {| rows := n; cols := m; data := B |};
            kf_Q := {| rows := m; cols := m; data := Q |};
            kf_u := {| rows := m; cols := 1; data := u |};
            kf_temporary :=
              {| tmp_aux := aux;
                 tmp_predicted_x :=
                   {| rows := n; cols := 1; data := predictedX |};
                 tmp_P := {| rows := n; cols := n; data := temp_P |};
                 tmp_BQ := {| rows := n; cols := m; data := temp_BQ |} |} |},
     {| mem := mem st;
        calls := calls st
                 ++ [ Call_init n n A; Call_init n n P; Call_init n 1 x;
                      Call_init n m B; Call_init m m Q; Call_init m 1 u;
                      Call_init n 1 predictedX; Call_init n n temp_P;
                      Call_init n m temp_BQ ] |}).
Proof.
  unfold kalman_filter_initialize.
  repeat (rewrite run_bind, run_matrix_init).
  rewrite run_ret. unfold record. cbn.
  repeat rewrite <- app_assoc. reflexivity.
Qed.

Lemma initialized_filter_ok
      (n m : nat) (A x B u P Q aux predictedX temp_P temp_BQ : buf)
      (st : state T) (log : list (call T)) :
  buffers_ok st n m A x B u P Q aux predictedX temp_P temp_BQ = true ->
  filter_ok {| mem := mem st; calls := log |}
    {| kf_A := {| rows := n; cols := n; data := A |};
       kf_P := {| rows := n; cols := n; data := P |};
       kf_x := {| rows := n; cols := 1; data := x |};
       kf_B := {| rows := n; cols := m; data := B |};
       kf_Q := {| rows := m; cols := m; data := Q |};
       kf_u := {| rows := m; cols := 1; data := u |};
       kf_temporary :=
         {| tmp_aux := aux;
            tmp_predicted_x := {| rows := n; cols := 1; data := predictedX |};
            tmp_P := {| rows := n; cols := n; data := temp_P |};
            tmp_BQ := {| rows := n; cols := m; data := temp_BQ |} |} |}
  = true.
Proof.
  unfold buffers_ok. intros H. split_ands.
  unfold filter_ok, filter_shaped, filter_fits, filter_regions, shape_is,
    fits, region_of, size.
  cbn [kf_A kf_P kf_x kf_B kf_Q kf_u kf_temporary tmp_aux tmp_predicted_x
       tmp_P tmp_BQ rows cols data mem].
  rewrite !Nat.eqb_refl. cbn [andb].
  apply andb_true_intro. split; [| assumption].
  repeat (apply andb_true_intro; split); assumption.
Qed.

Lemma filter_ok_same_lengths (kf : kalman_t) (st st' : state T) :
  (forall p, length (mem st' p) = length (mem st p)) ->
  filter_ok st' kf = filter_ok st kf.
Proof.
  intros H. unfold filter_ok, filter_fits.
  rewrite !(fits_same_lengths _ _ _ H), H. reflexivity.
Qed.
End Drivers.

(** X1.  Binding ten buffers that are large enough for [n] states and [m]
    inputs and do not overlap, then predicting, always completes: the
    shapes [kalman_filter_initialize] declares are the ones
    [kalman_predict] needs.  In terms of the caller's buffers, [x] then
    holds [A * x] and [P] holds [A * P * A^T / lambda^2 + B * Q * B^T],
    while [A], [B] and [Q] hold what they held. *)
Theorem initialize_then_predict
        (T : Type) (ST : Scalar T) (CT : Collaborator T)
        (kf0 : kalman_t) (n m : nat)
        (A x B u P Q aux predictedX temp_P temp_BQ : buf)
        (lambda : T) (st : state T) :
  buffers_ok st n m A x B u P Q aux predictedX temp_P temp_BQ = true ->
  exists kf st',
    run (initialize_and_predict kf0 n m A x B u P Q
           aux predictedX temp_P temp_BQ lambda) st = (inr kf, st')
    /\ let a := firstn (n * n) (mem st A) in
       let b := firstn (n * m) (mem st B) in
       let q := firstn (m * m) (mem st Q) in
       let p := firstn (n * n) (mem st P) in
       firstn (n * 1) (mem st' x)
       = mat_mul n n 1 a (firstn (n * 1) (mem st x))
       /\ firstn (n * n) (mem st' P)
          = (if 0 <? n
             then mat_muladd_transb n m n (mat_mul n m m b q) b
                    (mat_mulscale_transb n n n (mat_mul n n n a p) a
                       (inflation lambda))
             else [])
       /\ firstn (n * n) (mem st' A) = a
       /\ firstn (n * m) (mem st' B) = b
       /\ firstn (m * m) (mem st' Q) = q.
Proof.
  intros Hbuf. unfold initialize_and_predict.
  rewrite run_bind, run_filter_initialize.
  set (kf := {| kf_A := _ |}).
  set (st0 := {| mem := mem st; calls := _ |}).
  assert (Hok : filter_ok st0 kf = true)
    by (apply initialized_filter_ok; exact Hbuf).
  destruct (predict_outcome kf lambda st0 Hok)
    as (st' & Hrun & Hx & _ & _ & HP & _ & (HA & HB & HQ & _) & _).
  exists kf, st'. split.
  - rewrite run_bind, Hrun. apply run_ret.
  - cbv zeta.
    split; [exact Hx |]. split; [| split; [exact HA | split; [exact HB |
                                                             exact HQ]]].
    change (firstn (n * n) (mem st' P)) with (contents st' (kf_P kf)).
    rewrite HP. cbn [kf_B kf rows].
    destruct n as [| n]; reflexivity.
Qed.

Lemma initialize_then_predict_witness :
  buffers_ok cv_state_double 2 1 1 2 3 4 5 6 7 8 9 10 = true
  /\ exists kf st',
       run (initialize_and_predict (ST := binary64)
              (CT := quiet_collaborator spec_float (ST := binary64))
              blank_filter 2 1 1 2 3 4 5 6 7 8 9 10 (f64 1 0))
           cv_state_double = (inr kf, st').
Proof.
  split; [reflexivity |].
  destruct (@initialize_then_predict spec_float binary64
              (quiet_collaborator spec_float (ST := binary64))
              blank_filter 2 1 1 2 3 4 5 6 7 8 9 10 (f64 1 0)
              cv_state_double eq_refl)
    as (kf & st' & Hrun & _).
  exists kf, st'. exact Hrun.
Defined.

(** X2.  [kalman_predict] keeps its own precondition: the structure is not
    touched and no buffer changes its length, so the filter it leaves is
    again one whose buffers have the declared shapes, are large enough and
    do not overlap, and predict can be called on it again. *)
Theorem predict_keeps_contract
        (T : Type) (ST : Scalar T) (CT : Collaborator T)
        (kf : kalman_t) (lambda : T) (st : state T) :
  filter_ok st kf = true ->
  exists st',
    run (kalman_predict kf lambda) st = (inr tt, st')
    /\ filter_ok st' kf = true
    /\ forall p, length (mem st' p) = length (mem st p).
Proof.
  intros Hok.
  destruct (predict_outcome kf lambda st Hok)
    as (st' & Hrun & _ & _ & _ & _ & _ & _ & _ & Hlen & _).
  exists st'. split; [exact Hrun |]. split; [| exact Hlen].
  rewrite (filter_ok_same_lengths kf st st' Hlen). exact Hok.
Qed.

Lemma predict_keeps_contract_witness :
  filter_ok cv_state_double cv_filter = true
  /\ exists st',
       run (kalman_predict (ST := binary64)
              (CT := quiet_collaborator spec_float (ST := binary64))
              cv_filter (f64 1 (-1))) cv_state_double = (inr tt, st')
       /\ filter_ok st' cv_filter = true.
Proof.
  split; [reflexivity |].
  destruct (@predict_keeps_contract spec_float binary64
              (quiet_collaborator spec_float (ST := binary64))
              cv_filter (f64 1 (-1)) cv_state_double eq_refl)
    as (st' & Hrun & Hok & _).
  exists st'. split; assumption.
Defined.

(** X3.  Two predictions in a row both complete, whatever the two fading
    factors; the state estimate ends as [A * (A * x)], formed with the one
    [A] that neither call changes. *)
Theorem predict_twice_propagates
        (T : Type) (ST : Scalar T) (CT : Collaborator T)
        (kf : kalman_t) (lambda1 lambda2 : T) (st : state T) :
  filter_ok st kf = true ->
  exists st'',
    run (predict_twice kf lambda1 lambda2) st = (inr tt, st'')
    /\ contents st'' (kf_x kf)
       = mat_mul (rows (kf_A kf)) (rows (kf_A kf)) 1
           (contents st (kf_A kf))
           (mat_mul (rows (kf_A kf)) (rows (kf_A kf)) 1
              (contents st (kf_A kf)) (contents st (kf_x kf)))
    /\ contents st'' (kf_A kf) = contents st (kf_A kf)
    /\ length (calls st'') = length (calls st)
                             + (if 0 <? rows (kf_B kf) then 12 else 8).
Proof.
  intros Hok.
  destruct (predict_outcome kf lambda1 st Hok)
    as (st1 & Hrun1 & Hx1 & _ & _ & _ & _ & (HA1 & _) & _ & Hlen1 & Hc1).
  assert (Hok1 : filter_ok st1 kf = true)
    by (rewrite (filter_ok_same_lengths kf st st1 Hlen1); exact Hok).
  destruct (predict_outcome kf lambda2 st1 Hok1)
    as (st2 & Hrun2 & Hx2 & _ & _ & _ & _ & (HA2 & _) & _ & _ & Hc2).
  exists st2. split; [| split; [| split]].
  - unfold predict_twice. rewrite run_bind, Hrun1. exact Hrun2.
  - rewrite Hx2. unfold A_x. cbv zeta. rewrite HA1, Hx1. reflexivity.
  - rewrite HA2. exact HA1.
  - rewrite Hc2, Hc1, !length_app. unfold propagation_calls, input_term_calls.
    destruct (0 <? rows (kf_B kf)); cbn [length]; lia.
Qed.

Lemma predict_twice_propagates_witness :
  filter_ok cv_state_double cv_filter = true
  /\ exists st'',
       run (predict_twice (ST := binary64)
              (CT := quiet_collaborator spec_float (ST := binary64))
              cv_filter (f64 1 0) (f64 1 (-1))) cv_state_double
       = (inr tt, st'')
       /\ contents st'' (kf_x cv_filter) = [f64 2 0; f64 1 0].
Proof.
  split; [reflexivity |].
  destruct (@predict_twice_propagates spec_float binary64
              (quiet_collaborator spec_float (ST := binary64))
              cv_filter (f64 1 0) (f64 1 (-1)) cv_state_double eq_refl)
    as (st'' & Hrun & Hx & _).
  exists st''. split; [exact Hrun |]. rewrite Hx. vm_compute. reflexivity.
Defined.

(* ===================================================================== *)
(** ** Fading factors outside the documented range *)
(* ===================================================================== *)

Lemma SFmul_opp_opp (prec emax : Z) (x : spec_float) :
  SFmul prec emax (SFopp x) (SFopp x) = SFmul prec emax x x.
Proof. destruct x as [[] | [] | | [] m e]; reflexivity. Qed.

(** X4.  Only the square of lambda enters [kalman_predict]: a negative
    fading factor is not rejected and acts exactly as its absolute value,
    in IEEE arithmetic of any format and over the reals, on every filter
    and every store (also where predict is undefined). *)
Theorem predict_ignores_sign
        (prec emax : Z) (CT : Collaborator spec_float)
        (CR : Collaborator R) (kf : kalman_t) :
  (forall (lambda : spec_float) (st : state spec_float),
      run (kalman_predict (ST := ieee_scalar prec emax) kf (SFopp lambda)) st
      = run (kalman_predict (ST := ieee_scalar prec emax) kf lambda) st)
  /\ (forall (lambda : R) (st : state R),
         run (kalman_predict kf (- lambda)%R) st
         = run (kalman_predict kf lambda) st).
Proof.
  split; intros lambda st; unfold kalman_predict; cbv zeta.
  - cbn [s_mul ieee_scalar]. rewrite SFmul_opp_opp. reflexivity.
  - cbn [s_mul real_scalar].
    replace (- lambda * - lambda)%R with (lambda * lambda)%R by ring.
    reflexivity.
Qed.

Section NaN.
Variables prec emax : Z.

Lemma SFmul_nan_r (x : spec_float) : SFmul prec emax x S754_nan = S754_nan.
Proof. destruct x; reflexivity. Qed.

Lemma SFadd_nan_l (y : spec_float) : SFadd prec emax S754_nan y = S754_nan.
Proof. reflexivity. Qed.

Lemma inflation_nan :
  inflation (ST := ieee_scalar prec emax) S754_nan = S754_nan.
Proof. reflexivity. Qed.
End NaN.

(** X5.  In IEEE arithmetic of any format a NaN fading factor is not
    detected either: [kalman_predict] completes, the state estimate is
    still [A * x] (it is formed before lambda is used), and every entry of
    the covariance it leaves is NaN. *)
Theorem nan_lambda_poisons_covariance
        (prec emax : Z) (CT : Collaborator spec_float)
        (kf : kalman_t) (st : state spec_float) :
  filter_ok st kf = true ->
  exists st',
    run (kalman_predict (ST := ieee_scalar prec emax) kf S754_nan) st
    = (inr tt, st')
    /\ contents st' (kf_x kf) = A_x (ST := ieee_scalar prec emax) st kf
    /\ length (contents st' (kf_P kf)) = rows (kf_A kf) * rows (kf_A kf)
    /\ Forall (fun v => v = S754_nan) (contents st' (kf_P kf)).
Proof.
  intros Hok.
  destruct (predict_outcome (ST := ieee_scalar prec emax)
              kf S754_nan st Hok)
    as (st' & Hrun & Hx & _ & _ & HP & _).
  exists st'. split; [exact Hrun |]. split; [exact Hx |].
  rewrite HP, inflation_nan.
  assert (Hscaled :
            forall i j, i < rows (kf_A kf) -> j < rows (kf_A kf) ->
              entry (ST := ieee_scalar prec emax) (rows (kf_A kf))
                (A_P_At_scaled (ST := ieee_scalar prec emax)
                   st kf S754_nan) i j = S754_nan).
  { intros i j Hi Hj. unfold A_P_At_scaled, mat_mulscale_transb.
    cbv zeta. rewrite entry_tabulate by assumption.
    apply SFmul_nan_r. }
  destruct (0 <? rows (kf_B kf)).
  - unfold A_P_At_scaled_plus_B_Q_Bt, mat_muladd_transb. cbv zeta.
    split; [apply length_tabulate |].
    apply (Forall_tabulate (fun v => v = S754_nan)).
    intros i j Hi Hj. rewrite Hscaled by assumption. reflexivity.
  - unfold A_P_At_scaled, mat_mulscale_transb. cbv zeta.
    split; [apply length_tabulate |].
    apply (Forall_tabulate (fun v => v = S754_nan)).
    intros i j Hi Hj. apply SFmul_nan_r.
Qed.

Lemma nan_lambda_poisons_covariance_witness :
  filter_ok cv_state_double cv_filter = true
  /\ exists st',
       run (kalman_predict (ST := binary64)
              (CT := quiet_collaborator spec_float (ST := binary64))
              cv_filter S754_nan) cv_state_double = (inr tt, st')
       /\ Forall (fun v => v = S754_nan) (contents st' (kf_P cv_filter)).
Proof.
  split; [reflexivity |].
  destruct (@nan_lambda_poisons_covariance 53%Z 1024%Z
              (quiet_collaborator spec_float (ST := binary64))
              cv_filter cv_state_double eq_refl)
    as (st' & Hrun & _ & _ & Hnan).
  exists st'. split; assumption.
Defined.

(* ===================================================================== *)
(** ** What predict does not look at *)
(* ===================================================================== *)

(** X6.  [kalman_predict] never reads the input vector [u]: the state is
    propagated as [A * x], without a [B * u] term.  Overwriting [u] with
    any other values of its length before the call changes neither the
    state estimate nor the covariance predict leaves, and [u] holds those
    values afterwards. *)
Theorem predict_ignores_input_vector
        (T : Type) (ST : Scalar T) (CT : Collaborator T)
        (kf : kalman_t) (lambda : T) (st : state T) (v : list T) :
  filter_ok st kf = true ->
  length v = cols (kf_B kf) ->
  exists st1 st2,
    run (kalman_predict kf lambda) st = (inr tt, st1)
    /\ run (kalman_predict kf lambda) (write (kf_u kf) v st) = (inr tt, st2)
    /\ contents st2 (kf_x kf) = contents st1 (kf_x kf)
    /\ contents st2 (kf_P kf) = contents st1 (kf_P kf)
    /\ contents st2 (kf_u kf) = v.
Proof.
  intros Hok Hv.
  pose proof Hok as Hok0. unfold filter_ok in Hok0.
  apply andb_prop in Hok0. destruct Hok0 as [Hok0 Hsep].
  apply andb_prop in Hok0. destruct Hok0 as [Hshape Hfit].
  destruct (filter_shaped_eqs kf Hshape)
    as (_ & _ & _ & _ & _ & [Hur Huc] & _).
  assert (Fu : fits st (kf_u kf) = true)
    by (unfold filter_fits in Hfit; split_ands; assumption).
  assert (Hsize : length v = size (kf_u kf))
    by (unfold size; rewrite Hur, Huc, Hv; lia).
  set (st0 := write (kf_u kf) v st).
  assert (Hlen : forall p, length (mem st0 p) = length (mem st p)).
  { intros p. apply length_mem_poke. rewrite Hsize.
    apply Nat.leb_le. exact Fu. }
  assert (Hok' : filter_ok st0 kf = true)
    by (rewrite (filter_ok_same_lengths kf st st0 Hlen); exact Hok).
  assert (Hkeep : forall m, apart (region_of (kf_u kf)) (region_of m) = true ->
                            contents st0 m = contents st m).
  { intros m Hm. apply contents_poke_apart. rewrite Hsize. exact Hm. }
  assert (KA : contents st0 (kf_A kf) = contents st (kf_A kf))
    by (apply Hkeep; apart_at Hsep 0 3).
  assert (Kx : contents st0 (kf_x kf) = contents st (kf_x kf))
    by (apply Hkeep; apart_at Hsep 1 3).
  assert (KB : contents st0 (kf_B kf) = contents st (kf_B kf))
    by (apply Hkeep; apart_at Hsep 2 3).
  assert (KP : contents st0 (kf_P kf) = contents st (kf_P kf))
    by (apply Hkeep; apart_at Hsep 3 4).
  assert (KQ : contents st0 (kf_Q kf) = contents st (kf_Q kf))
    by (apply Hkeep; apart_at Hsep 3 5).
  destruct (predict_outcome kf lambda st Hok)
    as (st1 & Hrun1 & Hx1 & _ & _ & HP1 & _).
  destruct (predict_outcome kf lambda st0 Hok')
    as (st2 & Hrun2 & Hx2 & _ & _ & HP2 & _ & (_ & _ & _ & Hu2) & _).
  exists st1, st2.
  split; [exact Hrun1 |]. split; [exact Hrun2 |].
  split; [| split].
  - rewrite Hx1, Hx2. unfold A_x. cbv zeta. rewrite KA, Kx. reflexivity.
  - rewrite HP1, HP2.
    unfold A_P_At_scaled_plus_B_Q_Bt, B_Q, A_P_At_scaled, A_P. cbv zeta.
    rewrite KA, KB, KP, KQ. reflexivity.
  - rewrite Hu2. apply contents_poke_hit; [reflexivity | congruence].
Qed.

Lemma predict_ignores_input_vector_witness :
  filter_ok cv_state_double cv_filter = true
  /\ length [f64 5 0] = cols (kf_B cv_filter)
  /\ exists st1 st2,
       run (kalman_predict (ST := binary64)
              (CT := quiet_collaborator spec_float (ST := binary64))
              cv_filter (f64 1 0)) cv_state_double = (inr tt, st1)
       /\ run (kalman_predict (ST := binary64)
                 (CT := quiet_collaborator spec_float (ST := binary64))
                 cv_filter (f64 1 0))
              (write (kf_u cv_filter) [f64 5 0] cv_state_double)
          = (inr tt, st2)
       /\ contents st2 (kf_x cv_filter) = contents st1 (kf_x cv_filter)
       /\ contents st2 (kf_P cv_filter) = contents st1 (kf_P cv_filter).
Proof.
  split; [reflexivity |]. split; [reflexivity |].
  destruct (@predict_ignores_input_vector spec_float binary64
              (quiet_collaborator spec_float (ST := binary64))
              cv_filter (f64 1 0) cv_state_double [f64 5 0]
              eq_refl eq_refl)
    as (st1 & st2 & H1 & H2 & Hx & HP & _).
  exists st1, st2. repeat (split; [assumption |]). assumption.
Defined.

(* ===================================================================== *)
(** ** A filter with no states *)
(* ===================================================================== *)

Section Idle.
Context {T : Type} {ST : Scalar T} {CT : Collaborator T}.

Lemma mem_poke_nil (p q : buf) (st : state T) :
  mem (poke p [] st) q = mem st q.
Proof.
  unfold poke, upd. cbn.
  destruct (Nat.eqb_spec q p) as [-> | _]; reflexivity.
Qed.

Lemma contents_empty (st : state T) (m : matrix_t) :
  rows m = 0 -> contents st m = [].
Proof. intros H. unfold contents, size. rewrite H. reflexivity. Qed.
End Idle.

(** X7.  With no states ([kf->A.rows] is 0, whatever the number of
    inputs) [kalman_predict] completes and leaves every buffer as it was,
    element for element: the four propagation calls are still made, on
    empty operands, and the input term is skipped. *)
Theorem empty_filter_predict_is_idle
        (T : Type) (ST : Scalar T) (CT : Collaborator T)
        (kf : kalman_t) (lambda : T) (st : state T) :
  filter_ok st kf = true ->
  rows (kf_A kf) = 0 ->
  exists st',
    run (kalman_predict kf lambda) st = (inr tt, st')
    /\ (forall p, mem st' p = mem st p)
    /\ calls st' = calls st ++ propagation_calls kf (inflation lambda).
Proof.
  intros Hok Hn.
  pose proof Hok as Hok0. unfold filter_ok in Hok0.
  apply andb_prop in Hok0. destruct Hok0 as [Hok0 _].
  apply andb_prop in Hok0. destruct Hok0 as [Hshape _].
  destruct (filter_shaped_eqs kf Hshape)
    as (HAc & [HPr HPc] & [Hxr Hxc] & HBr & _ & _
        & [Hpr Hpc] & [Htr Htc] & _).
  rewrite Hn in *.
  destruct (predict_outcome kf lambda st Hok)
    as (st' & Hrun & _ & _ & _ & _ & _ & _ & _ & _ & Hcalls).
  exists st'. split; [exact Hrun |].
  rewrite HBr in Hcalls. cbn [Nat.ltb Nat.leb] in Hcalls.
  rewrite app_nil_r in Hcalls.
  split; [| exact Hcalls].
  clear Hcalls. revert Hrun.
  unfold kalman_predict. cbv zeta. rewrite HBr. cbn [Nat.ltb Nat.leb].
  unfold matrix_mult_rowvector, matrix_copy, matrix_mult,
    matrix_multscale_transb.
  rewrite run_bind, run_primitive.
  destruct (rowvector_ok _ _ _ st); [| discriminate].
  rewrite run_bind, run_primitive.
  destruct (pair_ok _ _ _); [| discriminate].
  rewrite run_bind, run_primitive.
  destruct (mult_ok _ _ _ _ _); [| discriminate].
  rewrite run_bind, run_primitive.
  destruct (transb_ok _ _ _ _); [| discriminate].
  rewrite run_ret. intros Hrun. injection Hrun as <-. intros p.
  unfold multscale_transb_eff, mult_eff, copy_eff, mult_rowvector_eff,
    write, record.
  cbn [mem].
  unfold mat_mulscale_transb, mat_mul, scratch_need.
  rewrite Htr, Hn, HAc, HPr, HPc.
  rewrite (contents_empty _ _ Hpr).
  cbn [Nat.max tabulate seq flat_map map].
  repeat (cbn [mem]; rewrite mem_poke_nil). reflexivity.
Qed.

Lemma empty_filter_predict_is_idle_witness :
  filter_ok cv_state_double (example_filter 0 1) = true
  /\ rows (kf_A (example_filter 0 1)) = 0
  /\ exists st',
       run (kalman_predict (ST := binary64)
              (CT := quiet_collaborator spec_float (ST := binary64))
              (example_filter 0 1) (f64 1 0)) cv_state_double
       = (inr tt, st')
       /\ forall p, mem st' p = mem cv_state_double p.
Proof.
  split; [reflexivity |]. split; [reflexivity |].
  destruct (@empty_filter_predict_is_idle spec_float binary64
              (quiet_collaborator spec_float (ST := binary64))
              (example_filter 0 1) (f64 1 0) cv_state_double
              eq_refl eq_refl)
    as (st' & Hrun & Hmem & _).
  exists st'. split; assumption.
Defined.

(* ===================================================================== *)
(** ** Exact arithmetic: the covariance stays a covariance *)
(* ===================================================================== *)

Section Quadratic.
Local Open Scope R_scope.

Lemma rsum_mul_r (n : nat) (f : nat -> R) (c : R) :
  sum_upto n f * c = sum_upto n (fun k => f k * c).
Proof. exact (sum_upto_mul_r (EL := real_exact_laws) n f c). Qed.

Lemma rsum_mul_l (n : nat) (f : nat -> R) (c : R) :
  c * sum_upto n f = sum_upto n (fun k => c * f k).
Proof.
  rewrite Rmult_comm, rsum_mul_r.
  apply sum_upto_ext. intros k _. apply Rmult_comm.
Qed.

Lemma rsum_swap (n m : nat) (F : nat -> nat -> R) :
  sum_upto n (fun k => sum_upto m (fun l => F k l))
  = sum_upto m (fun l => sum_upto n (fun k => F k l)).
Proof. exact (sum_upto_swap (EL := real_exact_laws) n m F). Qed.

Lemma rsum_add (n : nat) (f g : nat -> R) :
  sum_upto n (fun k => f k + g k) = sum_upto n f + sum_upto n g.
Proof. exact (sum_upto_add (EL := real_exact_laws) n f g). Qed.

(** [x^T (M b^T) y = sum_k (x^T M)_k (b^T y)_k]. *)
Lemma bilinear_form (n m : nat) (x y : nat -> R) (M b : nat -> nat -> R) :
  sum_upto n (fun i => sum_upto n (fun j =>
    x i * sum_upto m (fun k => M i k * b j k) * y j))
  = sum_upto m (fun k =>
      sum_upto n (fun i => x i * M i k) * sum_upto n (fun j => b j k * y j)).
Proof.
  transitivity
    (sum_upto n (fun i => sum_upto m (fun k => sum_upto n (fun j =>
       x i * M i k * (b j k * y j))))).
  - apply sum_upto_ext. intros i _.
    rewrite (rsum_swap m n (fun k j => x i * M i k * (b j k * y j))).
    apply sum_upto_ext. intros j _.
    rewrite rsum_mul_l, rsum_mul_r.
    apply sum_upto_ext. intros k _. ring.
  - rewrite (rsum_swap n m
               (fun i k => sum_upto n (fun j => x i * M i k * (b j k * y j)))).
    apply sum_upto_ext. intros k _.
    rewrite rsum_mul_r.
    apply sum_upto_ext. intros i _.
    rewrite rsum_mul_l. reflexivity.
Qed.

(** [(x^T (a p))_k = ((x^T a) p)_k]. *)
Lemma row_times_product (r n : nat) (x : nat -> R) (a p : nat -> nat -> R)
      (k : nat) :
  sum_upto r (fun i => x i * sum_upto n (fun l => a i l * p l k))
  = sum_upto n (fun l => sum_upto r (fun i => x i * a i l) * p l k).
Proof.
  transitivity
    (sum_upto r (fun i => sum_upto n (fun l => x i * a i l * p l k))).
  - apply sum_upto_ext. intros i _.
    rewrite rsum_mul_l. apply sum_upto_ext. intros l _. ring.
  - rewrite (rsum_swap r n (fun i l => x i * a i l * p l k)).
    apply sum_upto_ext. intros l _.
    rewrite rsum_mul_r. reflexivity.
Qed.

(** The quadratic form of [a * p * a^T] at [v] is that of [p] at
    [a^T * v]; [a] is [r] x [n], [p] is [n] x [n]. *)
Lemma quadratic_form_sandwich (r n : nat) (a p : list R) (v : nat -> R) :
  sum_upto r (fun i => sum_upto r (fun j =>
    v i * sum_upto n (fun k => entry n (mat_mul r n n a p) i k
                               * entry n a j k) * v j))
  = quadratic_form n p (fun l => sum_upto r (fun i => v i * entry n a i l)).
Proof.
  rewrite (bilinear_form r n v v
             (fun i k => entry n (mat_mul r n n a p) i k)
             (fun j k => entry n a j k)).
  unfold quadratic_form.
  rewrite (rsum_swap n n (fun l k =>
             sum_upto r (fun i => v i * entry n a i l) * entry n p l k
             * sum_upto r (fun i => v i * entry n a i k))).
  apply sum_upto_ext. intros k Hk.
  rewrite <- (rsum_mul_r n
                (fun l => sum_upto r (fun i => v i * entry n a i l)
                          * entry n p l k)
                (sum_upto r (fun i => v i * entry n a i k))).
  f_equal.
  - transitivity
      (sum_upto r (fun i =>
         v i * sum_upto n (fun l => entry n a i l * entry n p l k))).
    + apply sum_upto_ext. intros i Hi.
      unfold mat_mul. rewrite entry_tabulate by assumption. reflexivity.
    + apply (row_times_product r n v
               (fun i l => entry n a i l) (fun l k' => entry n p l k')).
  - apply sum_upto_ext. intros j _. apply Rmult_comm.
Qed.

Lemma scaled_form (kf : kalman_t) (st : state R) (f : R) (v : nat -> R) :
  quadratic_form (rows (kf_A kf)) (A_P_At_scaled st kf f) v
  = quadratic_form (rows (kf_A kf)) (contents st (kf_P kf))
      (fun l => sum_upto (rows (kf_A kf)) (fun i =>
         v i * entry (rows (kf_A kf)) (contents st (kf_A kf)) i l))
    * f.
Proof.
  rewrite <- quadratic_form_sandwich.
  unfold quadratic_form at 1.
  rewrite rsum_mul_r. apply sum_upto_ext. intros i Hi.
  rewrite rsum_mul_r. apply sum_upto_ext. intros j Hj.
  unfold A_P_At_scaled, mat_mulscale_transb, A_P. cbv zeta.
  rewrite entry_tabulate by assumption. simpl. ring.
Qed.

Lemma scaled_plus_input_form (kf : kalman_t) (st : state R) (f : R)
      (v : nat -> R) :
  quadratic_form (rows (kf_A kf)) (A_P_At_scaled_plus_B_Q_Bt st kf f) v
  = quadratic_form (rows (kf_A kf)) (contents st (kf_P kf))
      (fun l => sum_upto (rows (kf_A kf)) (fun i =>
         v i * entry (rows (kf_A kf)) (contents st (kf_A kf)) i l))
    * f
    + quadratic_form (cols (kf_B kf)) (contents st (kf_Q kf))
        (fun l => sum_upto (rows (kf_A kf)) (fun i =>
           v i * entry (cols (kf_B kf)) (contents st (kf_B kf)) i l)).
Proof.
  rewrite <- scaled_form, <- quadratic_form_sandwich.
  unfold quadratic_form.
  rewrite <- rsum_add. apply sum_upto_ext. intros i Hi.
  rewrite <- rsum_add. apply sum_upto_ext. intros j Hj.
  unfold A_P_At_scaled_plus_B_Q_Bt, mat_muladd_transb, B_Q. cbv zeta.
  rewrite entry_tabulate by assumption. simpl. ring.
Qed.

Lemma inflation_positive (lambda : R) :
  lambda <> 0 -> 0 < inflation lambda.
Proof.
  intros H. unfold inflation. simpl. unfold Rdiv. rewrite Rmult_1_l.
  apply Rinv_0_lt_compat.
  destruct (Rtotal_order lambda 0) as [Hneg | [Hzero | Hpos]];
    [nra | contradiction | nra].
Qed.
End Quadratic.


Lemma cv_covariance_positive :
  positive_semidefinite 2 (contents cv_state_real (kf_P cv_filter)).
Proof.
  intros v. unfold quadratic_form, sum_upto, entry. simpl.
  nra.
Defined.

Lemma cv_input_covariance_positive :
  positive_semidefinite 1 (contents cv_state_real (kf_Q cv_filter)).
Proof.
  intros v. unfold quadratic_form, sum_upto, entry. simpl.
  nra.
Defined.


(* ===================================================================== *)
(** ** The measurement update behind the assertion *)
(* ===================================================================== *)

(** X9.  Why the assertion guards [kalman_correct]: in a build with
    [NDEBUG] the statements behind it cannot work for a filter of two or
    more states.  The scratch vector they hand to [matrix_mult] is the
    single local scalar [aux], while the product [H * P] needs as many
    elements as the larger operand dimension.  So the run is undefined no
    later than the third library call, whatever the indeterminate locals
    [Sinv], [temp] and [temp2] hold and whatever the buffers contain: at
    most [matrix_mult_rowvector] and [matrix_sub_inplace_b] are completed,
    both of them when the measurement block meets their contracts, and
    the scratch vector is too short in the state where the run stops. *)
Theorem correct_body_lacks_scratch
        (T : Type) (ST : Scalar T) (CT : Collaborator T)
        (aux_local : buf) (Sinv temp temp2 : matrix_t)
        (kf : kalman_t) (kfm : kalman_measurement_t) (st : state T) :
  length (mem st aux_local) = 1 ->
  2 <= rows (kf_P kf) ->
  exists st' k,
    run (kalman_correct_ndebug aux_local Sinv temp temp2 kf kfm) st
    = (inl UndefinedBehaviour, st')
    /\ k <= 2
    /\ calls st'
       = calls st
         ++ firstn k
              [ Call_mult_rowvector (kfm_H kfm) (kf_x kf) (kfm_y kfm);
                Call_sub_inplace_b (kfm_z kfm) (kfm_y kfm) ]
    /\ length (mem st' aux_local) < scratch_need (kfm_H kfm) (kf_P kf)
    /\ (rowvector_ok (kfm_H kfm) (kf_x kf) (kfm_y kfm) st = true ->
        pair_ok (kfm_z kfm) (kfm_y kfm)
          (mult_rowvector_eff (kfm_H kfm) (kf_x kf) (kfm_y kfm) st) = true ->
        k = 2).
Proof.
  intros Haux Hn.
  assert (Hneed : 1 < scratch_need (kfm_H kfm) (kf_P kf))
    by (unfold scratch_need; lia).
  unfold kalman_correct_ndebug. cbv zeta.
  unfold matrix_mult_rowvector at 1.
  rewrite run_bind, run_primitive.
  destruct (rowvector_ok _ _ _ st) eqn:Ok1.
  2:{ exists st, 0. cbn [firstn]. rewrite app_nil_r.
      split; [reflexivity |]. split; [lia |]. split; [reflexivity |].
      split; [lia | discriminate]. }
  destruct (mult_rowvector_effect _ _ _ _ Ok1) as (_ & _ & L1 & _ & C1).
  set (s1 := mult_rowvector_eff _ _ _ st) in *.
  unfold matrix_sub_inplace_b.
  rewrite run_bind, run_primitive.
  destruct (pair_ok _ _ s1) eqn:Ok2.
  2:{ exists s1, 1. cbn [firstn].
      split; [reflexivity |]. split; [lia |]. split; [exact C1 |].
      split; [rewrite L1; lia | discriminate]. }
  assert (L2 : forall p,
             length (mem (sub_inplace_b_eff (kfm_z kfm) (kfm_y kfm) s1) p)
             = length (mem s1 p)).
  { intros p. unfold sub_inplace_b_eff, write.
    change (mem (record ?k ?s) p) with (mem s p).
    apply length_mem_poke.
    unfold pair_ok in Ok2. split_ands. eqb_props.
    unfold mat_sub. rewrite length_tabulate.
    match goal with
    | F : fits s1 (kfm_y kfm) = true |- _ =>
        unfold fits, size in F; apply Nat.leb_le in F
    end.
    congruence. }
  assert (C2 : calls (sub_inplace_b_eff (kfm_z kfm) (kfm_y kfm) s1)
               = calls st
                 ++ [ Call_mult_rowvector (kfm_H kfm) (kf_x kf) (kfm_y kfm);
                      Call_sub_inplace_b (kfm_z kfm) (kfm_y kfm) ]).
  { unfold sub_inplace_b_eff, record, write, poke. cbn [calls].
    rewrite C1, <- app_assoc. reflexivity. }
  set (s2 := sub_inplace_b_eff _ _ s1) in *.
  unfold matrix_mult at 1.
  rewrite run_bind, run_primitive.
  destruct (mult_ok _ _ _ _ s2) eqn:Ok3.
  { exfalso. unfold mult_ok in Ok3. split_ands.
    match goal with
    | F : (scratch_need _ _ <=? _) = true |- _ => apply Nat.leb_le in F;
        rewrite L2, L1, Haux in F
    end.
    lia. }
  exists s2, 2. cbn [firstn].
  split; [reflexivity |]. split; [lia |]. split; [exact C2 |].
  split; [rewrite L2, L1; lia | reflexivity].
Qed.

Lemma correct_body_lacks_scratch_witness :
  length (mem cv_measured_double 17) = 1
  /\ 2 <= rows (kf_P cv_filter)
  /\ exists st',
       run (kalman_correct_ndebug (ST := binary64)
              (CT := quiet_collaborator spec_float (ST := binary64))
              17 blank_matrix blank_matrix blank_matrix
              cv_filter (example_measurement 2 1))
           cv_measured_double
       = (inl UndefinedBehaviour, st')
       /\ calls st'
          = [ Call_mult_rowvector (kfm_H (example_measurement 2 1))
                (kf_x cv_filter) (kfm_y (example_measurement 2 1));
              Call_sub_inplace_b (kfm_z (example_measurement 2 1))
                (kfm_y (example_measurement 2 1)) ]
       /\ contents st' (kfm_y (example_measurement 2 1)) = [f64 2 0].
Proof.
  assert (Hn : 2 <= rows (kf_P cv_filter)) by (simpl; lia).
  split; [reflexivity |]. split; [exact Hn |].
  destruct (@correct_body_lacks_scratch spec_float binary64
              (quiet_collaborator spec_float (ST := binary64))
              17 blank_matrix blank_matrix blank_matrix
              cv_filter (example_measurement 2 1) cv_measured_double
              eq_refl Hn)
    as (st' & k & Hrun & _ & Hcalls & _ & Hk).
  rewrite (Hk eq_refl eq_refl) in Hcalls.
  exists st'. split; [exact Hrun |]. split; [exact Hcalls |].
  apply (f_equal snd) in Hrun. cbn [snd] in Hrun. rewrite <- Hrun.
  vm_compute. reflexivity.
Defined.
